(** * Workflow parser and secure workflow engine: a shallow embedding

    The development follows two source files,
    [workflows/parser/workflow_parser.py] and
    [workflows/engine/secure_workflow_engine.py].

    Conventions of the embedding.
    - A Python [str] is a Rocq [string]; a character is read as a code point
      below 256.
    - A Python [dict] is an association list kept in insertion order
      ([dict_set] updates in place or appends), a Python [set] of strings a
      duplicate-free list ([set_add]); nothing below depends on the iteration
      order of a set.
    - YAML or JSON values of type [Any] are values of [json].
    - A call either returns, raises ([Raise e]) or, for the one [while] loop
      that is run on fuel, exhausts its fuel ([OutOfFuel]); the theorems show
      that the fuel the code is given always suffices.
    - The modules [re], [hashlib] and [json] of the Python library are
      modelled by executable definitions ([Regex], [Sha256], [dumps]); the
      operating system and [simpleeval] are fields of a [Platform] record.
    - A global name that the source reads and never binds raises
      [NameError] where it is read. *)

From Stdlib Require Import String Ascii List ZArith NArith Lia Bool Arith.
From Stdlib Require Import Permutation DecimalString Relations RelationClasses.
From Stdlib Require Import OrdersEx Sorted.
Import ListNotations.

Set Warnings "-register-all".
Set Implicit Arguments.

(** [++] reads as string concatenation unless a term is marked [%list]. *)
Open Scope list_scope.
Open Scope string_scope.

(** ** Exceptions and outcomes *)

Inductive exn : Type :=
| WorkflowParseError (msg : string)
| WorkflowValidationError (msg : string)
| SecurityError (msg : string)
| KeyError (key : string)
| NameError (name : string)
| TimeoutError
| OtherError (msg : string).

(** [str(e)] of an exception. *)
Definition exn_str (e : exn) : string :=
  match e with
  | WorkflowParseError m | WorkflowValidationError m | SecurityError m
  | OtherError m => m
  | KeyError k => "'" ++ k ++ "'"
  | NameError n => "name '" ++ n ++ "' is not defined"
  | TimeoutError => ""
  end.

Inductive outcome (A : Type) : Type :=
| Return (a : A)
| Raise (e : exn)
| OutOfFuel.

Arguments Return {A} a.
Arguments Raise {A} e.
Arguments OutOfFuel {A}.

Definition bind {A B : Type} (m : outcome A) (f : A -> outcome B) : outcome B :=
  match m with
  | Return a => f a
  | Raise e => Raise e
  | OutOfFuel => OutOfFuel
  end.

Declare Scope outcome_scope.
Delimit Scope outcome_scope with outcome.
Notation "x <- m ;; k" := (bind m (fun x => k))
  (at level 61, m at next level, right associativity) : outcome_scope.
Notation "m ;;; k" := (bind m (fun _ => k))
  (at level 61, right associativity) : outcome_scope.

(** [mapM f l]: the comprehension or [for] loop that calls [f] on each element
    in order and stops at the first exception. *)
Fixpoint mapM {A B : Type} (f : A -> outcome B) (l : list A) : outcome (list B) :=
  match l with
  | [] => Return []
  | x :: l' =>
      match f x with
      | Return y =>
          match mapM f l' with
          | Return ys => Return (y :: ys)
          | Raise e => Raise e
          | OutOfFuel => OutOfFuel
          end
      | Raise e => Raise e
      | OutOfFuel => OutOfFuel
      end
  end.

(** ** Dictionaries and sets *)

Definition dict (V : Type) : Type := list (string * V).

Fixpoint dict_get {V : Type} (d : dict V) (k : string) : option V :=
  match d with
  | [] => None
  | (k', v) :: d' => if String.eqb k k' then Some v else dict_get d' k
  end.

(** [d[k] = v]: an existing key keeps its place, a new key goes last. *)
Fixpoint dict_set {V : Type} (d : dict V) (k : string) (v : V) : dict V :=
  match d with
  | [] => [(k, v)]
  | (k', v') :: d' =>
      if String.eqb k k' then (k', v) :: d' else (k', v') :: dict_set d' k v
  end.

Definition dict_keys {V : Type} (d : dict V) : list string := map fst d.

Definition dict_mem {V : Type} (d : dict V) (k : string) : bool :=
  match dict_get d k with Some _ => true | None => false end.

(** [d.get(k, default)] *)
Definition dict_get_default {V : Type} (d : dict V) (k : string) (default : V) : V :=
  match dict_get d k with Some v => v | None => default end.

(** [del d[k]] / [d.pop(k, None)] *)
Fixpoint dict_del {V : Type} (d : dict V) (k : string) : dict V :=
  match d with
  | [] => []
  | (k', v') :: d' =>
      if String.eqb k k' then d' else (k', v') :: dict_del d' k
  end.

(** [x in l] for a list or a set of strings. *)
Fixpoint mem (x : string) (l : list string) : bool :=
  match l with
  | [] => false
  | y :: l' => String.eqb x y || mem x l'
  end.

Definition set_add (s : list string) (x : string) : list string :=
  if mem x s then s else (s ++ [x])%list.

(** [set(l)] and a set comprehension over [l]. *)
Definition set_of_list (l : list string) : list string :=
  fold_left set_add l [].

(** ** Strings *)

Definition ascii_code (c : ascii) : nat := nat_of_ascii c.

(** [str.isspace] on one character (code points below 256). *)
Definition isspace (c : ascii) : bool :=
  let n := ascii_code c in
  (((9 <=? n) && (n <=? 13)) || ((28 <=? n) && (n <=? 32))
   || (n =? 133) || (n =? 160))%nat.

(** [str.lower] on one character (code points below 256). *)
Definition lower_char (c : ascii) : ascii :=
  let n := ascii_code c in
  if (((65 <=? n) && (n <=? 90))
      || ((192 <=? n) && (n <=? 222) && negb (n =? 215)))%nat
  then ascii_of_nat (n + 32) else c.

Fixpoint lower (s : string) : string :=
  match s with
  | EmptyString => EmptyString
  | String c s' => String (lower_char c) (lower s')
  end.

Fixpoint lstrip (s : string) : string :=
  match s with
  | EmptyString => EmptyString
  | String c s' => if isspace c then lstrip s' else s
  end.

Fixpoint string_rev_acc (s acc : string) : string :=
  match s with
  | EmptyString => acc
  | String c s' => string_rev_acc s' (String c acc)
  end.

Definition string_rev (s : string) : string := string_rev_acc s EmptyString.

Definition rstrip (s : string) : string := string_rev (lstrip (string_rev s)).

(** [s.strip()] *)
Definition strip (s : string) : string := rstrip (lstrip s).

(** [s.startswith(p)] *)
Fixpoint startswith (p s : string) : bool :=
  match p, s with
  | EmptyString, _ => true
  | String a p', String b s' => Ascii.eqb a b && startswith p' s'
  | String _ _, EmptyString => false
  end.

(** [p in s]: [p] occurs in [s] as a substring. *)
Fixpoint contains (p s : string) : bool :=
  startswith p s
  || match s with
     | EmptyString => false
     | String _ s' => contains p s'
     end.

(** [s[n:]] and [s[:n]] for [n >= 0]. *)
Fixpoint drop (n : nat) (s : string) : string :=
  match n, s with
  | O, _ => s
  | S n', String _ s' => drop n' s'
  | S _, EmptyString => EmptyString
  end.

Fixpoint take (n : nat) (s : string) : string :=
  match n, s with
  | O, _ => EmptyString
  | S n', String c s' => String c (take n' s')
  | S _, EmptyString => EmptyString
  end.

(** [sep.join(l)] *)
Fixpoint join (sep : string) (l : list string) : string :=
  match l with
  | [] => ""
  | [x] => x
  | x :: l' => x ++ sep ++ join sep l'
  end.

(** [s.split(sep)] for a separator of one character: the pieces between the
    occurrences, [[""]] for the empty string. *)
Fixpoint split_char_acc (sep : ascii) (s : string) (cur : string) : list string :=
  match s with
  | EmptyString => [string_rev cur]
  | String c s' =>
      if Ascii.eqb c sep then string_rev cur :: split_char_acc sep s' EmptyString
      else split_char_acc sep s' (String c cur)
  end.

Definition split_char (sep : ascii) (s : string) : list string :=
  split_char_acc sep s EmptyString.

(** [s.split(sep, 1)] for a non-empty separator: at most one cut, at the
    first occurrence. *)
Fixpoint split_once_acc (sep : string) (s : string) (cur : string) : list string :=
  if startswith sep s then [string_rev cur; drop (String.length sep) s]
  else match s with
       | EmptyString => [string_rev cur]
       | String c s' => split_once_acc sep s' (String c cur)
       end.

Definition split_once (sep s : string) : list string :=
  split_once_acc sep s EmptyString.

(** [s.split()]: the maximal runs of non-space characters. *)
Fixpoint split_ws_acc (s : string) (cur : string) : list string :=
  match s with
  | EmptyString => if (String.length cur =? 0)%nat then [] else [string_rev cur]
  | String c s' =>
      if isspace c
      then (if (String.length cur =? 0)%nat then split_ws_acc s' EmptyString
            else string_rev cur :: split_ws_acc s' EmptyString)
      else split_ws_acc s' (String c cur)
  end.

Definition split_ws (s : string) : list string := split_ws_acc s EmptyString.

(** Decimal text of an integer, [str(n)]. *)
Definition Z_to_string (z : Z) : string := NilZero.string_of_int (Z.to_int z).
Definition nat_to_string (n : nat) : string := Z_to_string (Z.of_nat n).

(** Truth value of an optional string: [None] and [""] are false. *)
Definition truthy_str (o : option string) : bool :=
  match o with
  | None => false
  | Some s => negb (String.eqb s "")
  end.

(** [o or default] for an optional string. *)
Definition str_or (o : option string) (default : string) : string :=
  match o with
  | Some s => if String.eqb s "" then default else s
  | None => default
  end.

(** [str(o)] of an optional string, as an f-string prints it. *)
Definition fmt_opt (o : option string) : string :=
  match o with Some s => s | None => "None" end.

Definition hex_digit (n : nat) : ascii :=
  match n with
  | 0 => "0" | 1 => "1" | 2 => "2" | 3 => "3" | 4 => "4" | 5 => "5"
  | 6 => "6" | 7 => "7" | 8 => "8" | 9 => "9" | 10 => "a" | 11 => "b"
  | 12 => "c" | 13 => "d" | 14 => "e" | _ => "f"
  end%char.

Definition hex2 (n : nat) : string :=
  String (hex_digit (n / 16)) (String (hex_digit (n mod 16)) EmptyString).

(** ** Values of type [Any] *)

(** A float carries its text ([repr], which [json.dumps] also prints for a
    finite float; the three floats that are not finite have the texts [inf],
    [-inf] and [nan]): float arithmetic is not modelled. *)
Inductive json : Type :=
| JNull
| JBool (b : bool)
| JInt (z : Z)
| JFloat (repr : string)
| JStr (s : string)
| JList (l : list json)
| JDict (d : list (string * json)).

(** [bool(v)] *)
Definition truthy (v : json) : bool :=
  match v with
  | JNull => false
  | JBool b => b
  | JInt z => negb (z =? 0)%Z
  | JFloat r => negb (String.eqb r "0.0" || String.eqb r "-0.0")
  | JStr s => negb (String.eqb s "")
  | JList l => match l with [] => false | _ => true end
  | JDict d => match d with [] => false | _ => true end
  end.

(** [repr(s)] of a string: single quotes unless the string has a single quote
    and no double quote. *)
Definition backslash : ascii := ascii_of_nat 92.
Definition double_quote : ascii := ascii_of_nat 34.

Definition repr_char (q : ascii) (c : ascii) : string :=
  let n := ascii_code c in
  if Ascii.eqb c backslash then String backslash (String backslash EmptyString)
  else if Ascii.eqb c q then String backslash (String q EmptyString)
  else if (n =? 10)%nat then "\n"
  else if (n =? 13)%nat then "\r"
  else if (n =? 9)%nat then "\t"
  else if ((n <? 32) || ((127 <=? n) && (n <=? 160)) || (n =? 173))%nat
       then "\x" ++ hex2 n
  else String c EmptyString.

Fixpoint repr_body (q : ascii) (s : string) : string :=
  match s with
  | EmptyString => EmptyString
  | String c s' => repr_char q c ++ repr_body q s'
  end.

Definition repr_str (s : string) : string :=
  let q := if contains "'" s && negb (contains (String double_quote EmptyString) s)
           then double_quote else "'"%char in
  String q (repr_body q s ++ String q EmptyString).

(** [repr(v)]; [py_str] below differs on a string only. *)
Fixpoint py_repr (v : json) : string :=
  match v with
  | JNull => "None"
  | JBool true => "True"
  | JBool false => "False"
  | JInt z => Z_to_string z
  | JFloat r => r
  | JStr s => repr_str s
  | JList l => "[" ++ join ", " (map py_repr l) ++ "]"
  | JDict d =>
      "{" ++ join ", " (map (fun kv => repr_str (fst kv) ++ ": " ++ py_repr (snd kv)) d)
          ++ "}"
  end.

(** [str(v)] *)
Definition py_str (v : json) : string :=
  match v with
  | JStr s => s
  | _ => py_repr v
  end.

(** *** [json.dumps(v, sort_keys=True)] *)

(** A string literal with [ensure_ascii]: everything outside [' '..'~'] is
    escaped. *)
Definition json_escape_char (c : ascii) : string :=
  let n := ascii_code c in
  if (n =? 34)%nat then String backslash (String double_quote EmptyString)
  else if (n =? 92)%nat then String backslash (String backslash EmptyString)
  else if (n =? 10)%nat then "\n"
  else if (n =? 13)%nat then "\r"
  else if (n =? 9)%nat then "\t"
  else if (n =? 8)%nat then "\b"
  else if (n =? 12)%nat then "\f"
  else if ((n <? 32) || (126 <? n))%nat then "\u00" ++ hex2 n
  else String c EmptyString.

Fixpoint json_escape (s : string) : string :=
  match s with
  | EmptyString => EmptyString
  | String c s' => json_escape_char c ++ json_escape s'
  end.

Definition json_string (s : string) : string :=
  String double_quote (json_escape s ++ String double_quote EmptyString).

(** [sorted(d.items())]: insertion sort on the keys, by code point. *)
Fixpoint insert_item {V : Type} (kv : string * V) (l : list (string * V)) : list (string * V) :=
  match l with
  | [] => [kv]
  | kv' :: l' =>
      if String.leb (fst kv) (fst kv') then kv :: l else kv' :: insert_item kv l'
  end.

Fixpoint sort_items {V : Type} (l : list (string * V)) : list (string * V) :=
  match l with
  | [] => []
  | kv :: l' => insert_item kv (sort_items l')
  end.

(** [json.dumps] of a float: [float.__repr__], and the JavaScript names for
    the floats that are not finite. *)
Definition float_json (repr : string) : string :=
  if String.eqb repr "inf" then "Infinity"
  else if String.eqb repr "-inf" then "-Infinity"
  else if String.eqb repr "nan" then "NaN"
  else repr.

Fixpoint dumps (v : json) : string :=
  match v with
  | JNull => "null"
  | JBool true => "true"
  | JBool false => "false"
  | JInt z => Z_to_string z
  | JFloat r => float_json r
  | JStr s => json_string s
  | JList l => "[" ++ join ", " (map dumps l) ++ "]"
  | JDict d =>
      "{" ++ join ", "
               (map (fun kv => json_string (fst kv) ++ ": " ++ snd kv)
                    (sort_items (map (fun kv => (fst kv, dumps (snd kv))) d)))
          ++ "}"
  end.

Definition opt_json (o : option string) : json :=
  match o with Some s => JStr s | None => JNull end.

Definition str_dict_json (d : dict string) : json :=
  JDict (map (fun kv => (fst kv, JStr (snd kv))) d).

(** ** Regular expressions ([re])

    The patterns of the source are written as terms of [regex]; a [pattern]
    keeps the source text next to the term, because the engine prints the
    text in some of its messages.  Matching is the backtracking search of
    [re]: alternatives in order, [*] greedy, the leftmost match first. *)

Module Regex.

Inductive regex : Type :=
| Eps
| Chr (p : ascii -> bool)
| Cat (r1 r2 : regex)
| Alt (r1 r2 : regex)
| Star (r : regex).

(** [rmatch r s k]: match [r] at the head of [s] and hand the rest to [k];
    an iteration of [*] has to consume a character. *)
Fixpoint rmatch (r : regex) (s : string) (k : string -> option string)
    {struct r} : option string :=
  match r with
  | Eps => k s
  | Chr p =>
      match s with
      | String c s' => if p c then k s' else None
      | EmptyString => None
      end
  | Cat r1 r2 => rmatch r1 s (fun s' => rmatch r2 s' k)
  | Alt r1 r2 =>
      match rmatch r1 s k with
      | Some x => Some x
      | None => rmatch r2 s k
      end
  | Star r1 =>
      (fix loop (n : nat) (s0 : string) {struct n} : option string :=
         match n with
         | O => k s0
         | S n' =>
             match rmatch r1 s0
                     (fun s' =>
                        if (String.length s' <? String.length s0)%nat
                        then loop n' s' else None) with
             | Some x => Some x
             | None => k s0
             end
         end) (String.length s) s
  end.

(** [re.match]: the text left after the match. *)
Definition match_at (r : regex) (s : string) : option string :=
  rmatch r s (fun rest => Some rest).

(** [re.search]: the text before the leftmost match, the match, the text
    after it. *)
Fixpoint search (r : regex) (s : string) : option (string * string * string) :=
  match match_at r s with
  | Some rest => Some ("", take (String.length s - String.length rest) s, rest)
  | None =>
      match s with
      | EmptyString => None
      | String c s' =>
          match search r s' with
          | Some (b, m, a) => Some (String c b, m, a)
          | None => None
          end
      end
  end.

Definition found (r : regex) (s : string) : bool :=
  match search r s with Some _ => true | None => false end.

(** [re.sub(r, repl, s)] where [repl] is a function of the matched text. *)
Fixpoint sub_loop (fuel : nat) (r : regex) (repl : string -> string) (s : string)
    : string :=
  match fuel with
  | O => s
  | S fuel' =>
      match s with
      | EmptyString =>
          match match_at r s with Some _ => repl "" | None => "" end
      | String c s' =>
          match match_at r s with
          | Some rest =>
              let m := take (String.length s - String.length rest) s in
              if (String.length rest <? String.length s)%nat
              then repl m ++ sub_loop fuel' r repl rest
              else repl m ++ String c (sub_loop fuel' r repl s')
          | None => String c (sub_loop fuel' r repl s')
          end
      end
  end.

Definition sub_with (r : regex) (repl : string -> string) (s : string) : string :=
  sub_loop (S (String.length s)) r repl s.

(** [re.sub(r, repl, s)] for a constant replacement. *)
Definition sub (r : regex) (repl s : string) : string :=
  sub_with r (fun _ => repl) s.

(** *** Building blocks *)

(** A literal character; with [re.IGNORECASE] either case matches. *)
Definition lit (ic : bool) (c : ascii) : regex :=
  Chr (fun x => if ic then Ascii.eqb (lower_char x) (lower_char c)
                else Ascii.eqb x c).

Fixpoint str (ic : bool) (s : string) : regex :=
  match s with
  | EmptyString => Eps
  | String c s' => Cat (lit ic c) (str ic s')
  end.

(** [.] matches everything but a newline. *)
Definition dot : regex := Chr (fun x => negb (ascii_code x =? 10)%nat).
Definition space : regex := Chr isspace.
Definition nonspace : regex := Chr (fun x => negb (isspace x)).
Definition none_of (c : ascii) : regex := Chr (fun x => negb (Ascii.eqb x c)).
Definition in_range (lo hi : nat) (x : ascii) : bool :=
  ((lo <=? ascii_code x) && (ascii_code x <=? hi))%nat.
Definition plus (r : regex) : regex := Cat r (Star r).

Fixpoint seq (l : list regex) : regex :=
  match l with
  | [] => Eps
  | [r] => r
  | r :: l' => Cat r (seq l')
  end.

(** ['|'.join(patterns)], never used on the empty list. *)
Fixpoint alts (l : list regex) : regex :=
  match l with
  | [] => Chr (fun _ => false)
  | [r] => r
  | r :: l' => Alt r (alts l')
  end.

Record pattern : Type := mkPattern { src : string; re : regex }.

End Regex.

(** ** SHA-256 ([hashlib.sha256(...).hexdigest()]) *)

Module Sha256.

Local Open Scope N_scope.

Definition w32 : N := 4294967296.

Definition add32 (a b : N) : N := (a + b) mod w32.
Definition rotr (n x : N) : N :=
  N.lor (N.shiftr x n) (N.shiftl x (32 - n) mod w32).
Definition not32 (x : N) : N := N.lxor x (w32 - 1).

Definition Ch (x y z : N) : N := N.lxor (N.land x y) (N.land (not32 x) z).
Definition Maj (x y z : N) : N :=
  N.lxor (N.lxor (N.land x y) (N.land x z)) (N.land y z).
Definition Sigma0 (x : N) : N := N.lxor (N.lxor (rotr 2 x) (rotr 13 x)) (rotr 22 x).
Definition Sigma1 (x : N) : N := N.lxor (N.lxor (rotr 6 x) (rotr 11 x)) (rotr 25 x).
Definition sigma0 (x : N) : N := N.lxor (N.lxor (rotr 7 x) (rotr 18 x)) (N.shiftr x 3).
Definition sigma1 (x : N) : N := N.lxor (N.lxor (rotr 17 x) (rotr 19 x)) (N.shiftr x 10).

(** The constants of the standard are the first 32 bits of the fractional
    parts of the cube roots (round constants) and of the square roots
    (initial hash value) of the first primes; they are computed here. *)
Definition is_prime (n : nat) : bool :=
  forallb (fun d => negb (n mod d =? 0)%nat) (List.seq 2 (n - 2)).

Definition primes : list N :=
  map N.of_nat (filter is_prime (List.seq 2 310)).

(** The largest [r] between [lo] and [hi] with [r * r * r <= x], by
    bisection. *)
Fixpoint cube_root_loop (fuel : nat) (x lo hi : N) : N :=
  match fuel with
  | O => lo
  | S fuel' =>
      if hi <=? lo + 1 then lo
      else
        let mid := (lo + hi) / 2 in
        if mid * mid * mid <=? x then cube_root_loop fuel' x mid hi
        else cube_root_loop fuel' x lo mid
  end.

Definition cube_root (x : N) : N := cube_root_loop 64 x 0 (N.shiftl 1 40).

Definition K : list N :=
  Eval vm_compute in
    map (fun p => cube_root (N.shiftl p 96) mod w32) primes.

Definition H0 : list N :=
  Eval vm_compute in
    map (fun p => N.sqrt (N.shiftl p 64) mod w32) (firstn 8 primes).

(** [str.encode()]: UTF-8 of code points below 256. *)
Fixpoint utf8 (s : string) : list N :=
  match s with
  | EmptyString => []
  | String c s' =>
      let n := N.of_nat (nat_of_ascii c) in
      if n <? 128 then n :: utf8 s'
      else N.lor 192 (N.shiftr n 6) :: N.lor 128 (N.land n 63) :: utf8 s'
  end.

(** The message, one byte [0x80], zeros up to 56 modulo 64, and the length in
    bits on eight bytes. *)
Definition be_bytes (count : nat) (x : N) : list N :=
  map (fun i => N.shiftr x (8 * N.of_nat i) mod 256) (rev (List.seq 0 count)).

Definition pad (msg : list N) : list N :=
  let len := length msg in
  let zeros := ((119 - len mod 64) mod 64)%nat in
  (msg ++ 128 :: repeat 0 zeros ++ be_bytes 8 (8 * N.of_nat len))%list.

Fixpoint words (bytes : list N) : list N :=
  match bytes with
  | a :: b :: c :: d :: rest =>
      (((a * 256 + b) * 256 + c) * 256 + d) :: words rest
  | _ => []
  end.

Fixpoint blocks (fuel : nat) (ws : list N) : list (list N) :=
  match fuel with
  | O => []
  | S fuel' =>
      match ws with
      | [] => []
      | _ => firstn 16 ws :: blocks fuel' (skipn 16 ws)
      end
  end.

(** The message schedule: [count] more words after the ones in [w]. *)
Fixpoint schedule (count : nat) (w : list N) : list N :=
  match count with
  | O => w
  | S count' =>
      let t := length w in
      let x := add32 (add32 (sigma1 (nth (t - 2) w 0)) (nth (t - 7) w 0))
                     (add32 (sigma0 (nth (t - 15) w 0)) (nth (t - 16) w 0)) in
      schedule count' (w ++ [x])%list
  end.

Definition round (st : list N) (kw : N * N) : list N :=
  match st with
  | [a; b; c; d; e; f; g; h] =>
      let t1 := add32 (add32 (add32 h (Sigma1 e)) (add32 (Ch e f g) (fst kw))) (snd kw) in
      let t2 := add32 (Sigma0 a) (Maj a b c) in
      [add32 t1 t2; a; b; c; add32 d t1; e; f; g]
  | _ => st
  end.

Definition compress (h : list N) (block : list N) : list N :=
  let w := schedule 48 block in
  let st := fold_left round (combine K w) h in
  map (fun p => add32 (fst p) (snd p)) (combine h st).

Definition digest (msg : list N) : list N :=
  let ws := words (pad msg) in
  fold_left compress (blocks (length ws) ws) H0.

Definition hex_byte (b : N) : string := hex2 (N.to_nat b).

Definition hexdigest (s : string) : string :=
  String.concat "" (map hex_byte (flat_map (be_bytes 4) (digest (utf8 s)))).

End Sha256.

(** * The parser ([workflow_parser.py]) *)

(** ** Data model *)

Record WorkflowInput : Type := mkWorkflowInput {
  input_name : string;
  input_type : option string;
  input_description : option string;
  input_required : bool;
  input_default : json;
  input_validation : option (dict json)
}.

Record WorkflowOutput : Type := mkWorkflowOutput {
  output_name : string;
  output_type : option string;
  output_description : option string;
  from_step : option string
}.

Record StepOutput : Type := mkStepOutput {
  so_name : string;
  so_type : option string;
  so_description : option string;
  from_source : option string
}.

Inductive WorkflowStep : Type := mkWorkflowStep {
  step_id : string;
  step_type : string;
  step_name : option string;
  step_description : option string;
  depends_on : list string;
  when : option string;
  timeout : Z;
  retry : dict json;
  cache : dict json;
  inputs : dict json;
  outputs : dict StepOutput;
  command : option string;
  working_directory : option string;
  environment : dict string;
  prompt : option string;
  model : string;
  security_profile : string;
  use_cache : bool;
  max_tokens : option Z;
  temperature : string;
  condition : option string;
  message : option string;
  on_failure : string;
  template : option string;
  output : option string;
  engine : string;
  url : option string;
  method : string;
  headers : dict string;
  body : option string;
  then_steps : list WorkflowStep;
  else_steps : list WorkflowStep
}.

Record WorkflowDefinition : Type := mkWorkflowDefinition {
  wf_name : string;
  wf_version : string;
  wf_description : option string;
  wf_author : option string;
  wf_tags : list string;
  wf_inputs : dict WorkflowInput;
  wf_outputs : dict WorkflowOutput;
  wf_environment : dict string;
  wf_timeout : Z;
  wf_retry : dict json;
  wf_cache : dict json;
  steps : list WorkflowStep;
  step_dependency_graph : dict (list string);
  execution_order : list string
}.

(** ** The workflow data handed to the parser

    [workflow_data] is the dictionary that [yaml.safe_load] returns.  The
    records below are that dictionary read at the types the parser expects:
    an absent key is [None], and the value under [depends_on] may be a
    string, a list or something else. *)

Inductive RawDepends : Type :=
| DependsStr (s : string)
| DependsList (l : list string)
| DependsOther (v : json).

Inductive RawStepOutput : Type :=
| RawOutputDict (type description from : option string)
| RawOutputSimple (v : json).

Inductive RawStep : Type := mkRawStep {
  raw_id : option string;
  raw_type : option string;
  raw_name : option string;
  raw_description : option string;
  raw_when : option string;
  raw_timeout : option Z;
  raw_retry : option (dict json);
  raw_cache : option (dict json);
  raw_inputs : option (dict json);
  raw_depends_on : option RawDepends;
  raw_outputs : option (list (string * RawStepOutput));
  raw_command : option string;
  raw_working_directory : option string;
  raw_environment : option (dict string);
  raw_prompt : option string;
  raw_model : option string;
  raw_security_profile : option string;
  raw_use_cache : option bool;
  raw_max_tokens : option Z;
  raw_temperature : option string;
  raw_condition : option string;
  raw_message : option string;
  raw_on_failure : option string;
  raw_template : option string;
  raw_output : option string;
  raw_engine : option string;
  raw_url : option string;
  raw_method : option string;
  raw_headers : option (dict string);
  raw_body : option string;
  raw_then_steps : option (list RawStep);
  raw_else_steps : option (list RawStep)
}.

Record RawInput : Type := mkRawInput {
  ri_type : option string;
  ri_description : option string;
  ri_required : option bool;
  ri_default : option json;
  ri_validation : option (dict json)
}.

Record RawOutput : Type := mkRawOutput {
  ro_type : option string;
  ro_description : option string;
  ro_from : option string
}.

Record WorkflowData : Type := mkWorkflowData {
  data_name : option string;
  data_version : option string;
  data_description : option string;
  data_author : option string;
  data_tags : option (list string);
  data_environment : option (dict string);
  data_timeout : option Z;
  data_retry : option (dict json);
  data_cache : option (dict json);
  data_inputs : option (list (string * RawInput));
  data_outputs : option (list (string * RawOutput));
  data_steps : option (list RawStep)
}.

(** [d.get(key, default)] on a field of the data. *)
Definition get_or {A : Type} (o : option A) (default : A) : A :=
  match o with Some a => a | None => default end.

(** ** [_parse_step] *)

Definition parse_step_outputs (outs : list (string * RawStepOutput)) : dict StepOutput :=
  fold_left
    (fun acc kv =>
       match snd kv with
       | RawOutputDict ty descr from =>
           dict_set acc (fst kv) (mkStepOutput (fst kv) ty descr from)
       | RawOutputSimple v =>
           dict_set acc (fst kv)
                    (mkStepOutput (fst kv) (Some "string") None (Some (py_str v)))
       end)
    outs [].

(** The step as the constructor call leaves it, before the type-specific
    fields are read: the dataclass defaults everywhere else. *)
Definition base_step (r : RawStep) (sid sty : string) : WorkflowStep :=
  {| step_id := sid;
     step_type := sty;
     step_name := raw_name r;
     step_description := raw_description r;
     depends_on :=
       match raw_depends_on r with
       | None => []
       | Some (DependsStr s) => [s]
       | Some (DependsList l) => l
       | Some (DependsOther _) => []
       end;
     when := raw_when r;
     timeout := get_or (raw_timeout r) 300%Z;
     retry := get_or (raw_retry r) [];
     cache := get_or (raw_cache r) [];
     inputs := get_or (raw_inputs r) [];
     outputs := parse_step_outputs (get_or (raw_outputs r) []);
     command := None;
     working_directory := None;
     environment := [];
     prompt := None;
     model := "claude-3-sonnet-20240229";
     security_profile := "restricted";
     use_cache := true;
     max_tokens := None;
     temperature := "0.0";
     condition := None;
     message := None;
     on_failure := "fail";
     template := None;
     output := None;
     engine := "jinja2";
     url := None;
     method := "POST";
     headers := [];
     body := None;
     then_steps := [];
     else_steps := [] |}.

Definition set_shell (s : WorkflowStep) (r : RawStep) : WorkflowStep :=
  mkWorkflowStep (step_id s) (step_type s) (step_name s) (step_description s)
    (depends_on s) (when s) (timeout s) (retry s) (cache s) (inputs s) (outputs s)
    (raw_command r) (raw_working_directory r) (get_or (raw_environment r) [])
    (prompt s) (model s) (security_profile s) (use_cache s) (max_tokens s)
    (temperature s) (condition s) (message s) (on_failure s) (template s)
    (output s) (engine s) (url s) (method s) (headers s) (body s)
    (then_steps s) (else_steps s).

Definition set_claude_code (s : WorkflowStep) (r : RawStep) : WorkflowStep :=
  mkWorkflowStep (step_id s) (step_type s) (step_name s) (step_description s)
    (depends_on s) (when s) (timeout s) (retry s) (cache s) (inputs s) (outputs s)
    (command s) (working_directory s) (environment s)
    (raw_prompt r) (get_or (raw_model r) "claude-3-sonnet-20240229")
    (get_or (raw_security_profile r) "restricted") (get_or (raw_use_cache r) true)
    (raw_max_tokens r) (get_or (raw_temperature r) "0.0")
    (condition s) (message s) (on_failure s) (template s)
    (output s) (engine s) (url s) (method s) (headers s) (body s)
    (then_steps s) (else_steps s).

Definition set_assert (s : WorkflowStep) (r : RawStep) : WorkflowStep :=
  mkWorkflowStep (step_id s) (step_type s) (step_name s) (step_description s)
    (depends_on s) (when s) (timeout s) (retry s) (cache s) (inputs s) (outputs s)
    (command s) (working_directory s) (environment s)
    (prompt s) (model s) (security_profile s) (use_cache s) (max_tokens s)
    (temperature s) (raw_condition r) (raw_message r)
    (get_or (raw_on_failure r) "fail") (template s)
    (output s) (engine s) (url s) (method s) (headers s) (body s)
    (then_steps s) (else_steps s).

Definition set_template (s : WorkflowStep) (r : RawStep) : WorkflowStep :=
  mkWorkflowStep (step_id s) (step_type s) (step_name s) (step_description s)
    (depends_on s) (when s) (timeout s) (retry s) (cache s) (inputs s) (outputs s)
    (command s) (working_directory s) (environment s)
    (prompt s) (model s) (security_profile s) (use_cache s) (max_tokens s)
    (temperature s) (condition s) (message s) (on_failure s)
    (raw_template r) (raw_output r) (get_or (raw_engine r) "jinja2")
    (url s) (method s) (headers s) (body s)
    (then_steps s) (else_steps s).

Definition set_webhook (s : WorkflowStep) (r : RawStep) : WorkflowStep :=
  mkWorkflowStep (step_id s) (step_type s) (step_name s) (step_description s)
    (depends_on s) (when s) (timeout s) (retry s) (cache s) (inputs s) (outputs s)
    (command s) (working_directory s) (environment s)
    (prompt s) (model s) (security_profile s) (use_cache s) (max_tokens s)
    (temperature s) (condition s) (message s) (on_failure s) (template s)
    (output s) (engine s)
    (raw_url r) (get_or (raw_method r) "POST") (get_or (raw_headers r) [])
    (raw_body r) (then_steps s) (else_steps s).

Definition set_conditional (s : WorkflowStep) (r : RawStep)
    (thens elses : list WorkflowStep) : WorkflowStep :=
  mkWorkflowStep (step_id s) (step_type s) (step_name s) (step_description s)
    (depends_on s) (when s) (timeout s) (retry s) (cache s) (inputs s) (outputs s)
    (command s) (working_directory s) (environment s)
    (prompt s) (model s) (security_profile s) (use_cache s) (max_tokens s)
    (temperature s) (raw_condition r) (message s) (on_failure s) (template s)
    (output s) (engine s) (url s) (method s) (headers s) (body s)
    thens elses.

Fixpoint _parse_step (r : RawStep) : outcome WorkflowStep :=
  if negb (truthy_str (raw_id r)) then
    Raise (WorkflowValidationError "Step id is required")
  else if negb (truthy_str (raw_type r)) then
    Raise (WorkflowValidationError
             ("Step type is required for step " ++ fmt_opt (raw_id r)))
  else
    let sid := get_or (raw_id r) "" in
    let sty := get_or (raw_type r) "" in
    let step := base_step r sid sty in
    if String.eqb sty "shell" then
      if negb (truthy_str (raw_command r)) then
        Raise (WorkflowValidationError ("Shell step " ++ sid ++ " requires command"))
      else Return (set_shell step r)
    else if String.eqb sty "claude_code" then
      if negb (truthy_str (raw_prompt r)) then
        Raise (WorkflowValidationError ("Claude code step " ++ sid ++ " requires prompt"))
      else Return (set_claude_code step r)
    else if String.eqb sty "assert" then
      if negb (truthy_str (raw_condition r)) then
        Raise (WorkflowValidationError ("Assert step " ++ sid ++ " requires condition"))
      else Return (set_assert step r)
    else if String.eqb sty "template" then
      if negb (truthy_str (raw_template r)) || negb (truthy_str (raw_output r)) then
        Raise (WorkflowValidationError
                 ("Template step " ++ sid ++ " requires template and output"))
      else Return (set_template step r)
    else if String.eqb sty "webhook" then
      if negb (truthy_str (raw_url r)) then
        Raise (WorkflowValidationError ("Webhook step " ++ sid ++ " requires url"))
      else Return (set_webhook step r)
    else if String.eqb sty "conditional" then
      if negb (truthy_str (raw_condition r)) then
        Raise (WorkflowValidationError
                 ("Conditional step " ++ sid ++ " requires condition"))
      else
        let parse_all :=
          fix parse_all (l : list RawStep) : outcome (list WorkflowStep) :=
            match l with
            | [] => Return []
            | x :: l' =>
                match _parse_step x with
                | Return y =>
                    match parse_all l' with
                    | Return ys => Return (y :: ys)
                    | Raise e => Raise e
                    | OutOfFuel => OutOfFuel
                    end
                | Raise e => Raise e
                | OutOfFuel => OutOfFuel
                end
            end in
        match match raw_then_steps r with
              | Some l => parse_all l
              | None => Return []
              end with
        | Return thens =>
            match match raw_else_steps r with
                  | Some l => parse_all l
                  | None => Return []
                  end with
            | Return elses => Return (set_conditional step r thens elses)
            | Raise e => Raise e
            | OutOfFuel => OutOfFuel
            end
        | Raise e => Raise e
        | OutOfFuel => OutOfFuel
        end
    else Return step.

(** ** [_build_dependency_graph] *)

(** The inner loop over [step.depends_on]: every dependency must be a step
    id, and is added to the set of the step. *)
Fixpoint add_dependencies (step_ids : list string) (sid : string)
    (deps : list string) (acc : list string) : outcome (list string) :=
  match deps with
  | [] => Return acc
  | dependency :: deps' =>
      if negb (mem dependency step_ids) then
        Raise (WorkflowValidationError
                 ("Step " ++ sid ++ " depends on unknown step: " ++ dependency))
      else add_dependencies step_ids sid deps' (set_add acc dependency)
  end.

Fixpoint build_graph_loop (step_ids : list string) (ss : list WorkflowStep)
    (graph : dict (list string)) : outcome (dict (list string)) :=
  match ss with
  | [] => Return graph
  | step :: ss' =>
      match add_dependencies step_ids (step_id step) (depends_on step) [] with
      | Return deps => build_graph_loop step_ids ss' (dict_set graph (step_id step) deps)
      | Raise e => Raise e
      | OutOfFuel => OutOfFuel
      end
  end.

Definition _build_dependency_graph (ss : list WorkflowStep) : outcome (dict (list string)) :=
  build_graph_loop (set_of_list (map step_id ss)) ss [].

(** ** [_compute_execution_order]: Kahn's algorithm *)

(** [{step_id: 0 for step_id in graph}] *)
Definition in_degree_init (graph : dict (list string)) : dict Z :=
  fold_left (fun d k => dict_set d k 0%Z) (dict_keys graph) [].

(** [in_degree[dependency] = in_degree.get(dependency, 0)] *)
Definition touch (d : dict Z) (dependency : string) : dict Z :=
  dict_set d dependency (dict_get_default d dependency 0%Z).

(** [in_degree[k] += delta]; a missing key is a [KeyError]. *)
Definition add_to (d : dict Z) (k : string) (delta : Z) : outcome (dict Z) :=
  match dict_get d k with
  | Some v => Return (dict_set d k (v + delta)%Z)
  | None => Raise (KeyError k)
  end.

(** [for dependency in dependencies: in_degree[step_id] += 1] *)
Fixpoint count_dependencies (sid : string) (deps : list string) (d : dict Z)
    : outcome (dict Z) :=
  match deps with
  | [] => Return d
  | _ :: deps' =>
      match add_to d sid 1 with
      | Return d' => count_dependencies sid deps' d'
      | Raise e => Raise e
      | OutOfFuel => OutOfFuel
      end
  end.

(** The loop over [graph.items()] that computes the in-degrees. *)
Fixpoint in_degrees (items : dict (list string)) (d : dict Z) : outcome (dict Z) :=
  match items with
  | [] => Return d
  | (sid, deps) :: items' =>
      match count_dependencies sid deps (fold_left touch deps d) with
      | Return d' => in_degrees items' d'
      | Raise e => Raise e
      | OutOfFuel => OutOfFuel
      end
  end.

(** [[step_id for step_id, degree in in_degree.items() if degree == 0]] *)
Definition zero_in_degree (d : dict Z) : list string :=
  map fst (filter (fun kv => (snd kv =? 0)%Z) d).

(** The [for step_id in graph] loop of one iteration: every step that depends
    on [current] loses one in-degree and joins the queue when it reaches 0. *)
Fixpoint remove_edges (current : string) (items : dict (list string))
    (d : dict Z) (queue : list string) : outcome (dict Z * list string) :=
  match items with
  | [] => Return (d, queue)
  | (sid, deps) :: items' =>
      if mem current deps then
        match add_to d sid (-1) with
        | Return d' =>
            if (dict_get_default d' sid 0 =? 0)%Z
            then remove_edges current items' d' (queue ++ [sid])%list
            else remove_edges current items' d' queue
        | Raise e => Raise e
        | OutOfFuel => OutOfFuel
        end
      else remove_edges current items' d queue
  end.

(** The [while queue] loop, run on fuel. *)
Fixpoint kahn_loop (fuel : nat) (graph : dict (list string)) (d : dict Z)
    (queue execution_order : list string) : outcome (list string) :=
  match queue with
  | [] => Return execution_order
  | current :: queue' =>
      match fuel with
      | O => OutOfFuel
      | S fuel' =>
          match remove_edges current graph d queue' with
          | Return (d', queue'') =>
              kahn_loop fuel' graph d' queue'' (execution_order ++ [current])%list
          | Raise e => Raise e
          | OutOfFuel => OutOfFuel
          end
      end
  end.

(** The order before the length check; the loop is given one unit of fuel
    more than there are steps in the graph. *)
Definition kahn (graph : dict (list string)) : outcome (list string) :=
  match in_degrees graph (in_degree_init graph) with
  | Return d => kahn_loop (S (length graph)) graph d (zero_in_degree d) []
  | Raise e => Raise e
  | OutOfFuel => OutOfFuel
  end.

Definition _compute_execution_order (ss : list WorkflowStep)
    (graph : dict (list string)) : outcome (list string) :=
  match kahn graph with
  | Return order =>
      if negb (length order =? length ss)%nat then
        Raise (WorkflowValidationError "Circular dependency detected in workflow steps")
      else Return order
  | Raise e => Raise e
  | OutOfFuel => OutOfFuel
  end.

(** ** [parse_workflow_data] *)

Definition parse_inputs (l : list (string * RawInput)) : dict WorkflowInput :=
  fold_left
    (fun acc kv =>
       dict_set acc (fst kv)
         (mkWorkflowInput (fst kv) (ri_type (snd kv)) (ri_description (snd kv))
            (get_or (ri_required (snd kv)) false)
            (get_or (ri_default (snd kv)) JNull)
            (ri_validation (snd kv))))
    l [].

Definition parse_outputs (l : list (string * RawOutput)) : dict WorkflowOutput :=
  fold_left
    (fun acc kv =>
       dict_set acc (fst kv)
         (mkWorkflowOutput (fst kv) (ro_type (snd kv)) (ro_description (snd kv))
            (ro_from (snd kv))))
    l [].

(** [schema] is [self.schema] together with [jsonschema.validate]: [None]
    when no schema file was loaded, otherwise a check that answers with the
    message of the [ValidationError], if any. *)
Definition parse_workflow_data (schema : option (WorkflowData -> option string))
    (workflow_data : WorkflowData) : outcome WorkflowDefinition :=
  match match schema with
        | Some validate => validate workflow_data
        | None => None
        end with
  | Some msg => Raise (WorkflowValidationError ("Workflow validation error: " ++ msg))
  | None =>
      if negb (truthy_str (data_name workflow_data)) then
        Raise (WorkflowValidationError "Workflow name is required")
      else if negb (truthy_str (data_version workflow_data)) then
        Raise (WorkflowValidationError "Workflow version is required")
      else
        let ins := parse_inputs (get_or (data_inputs workflow_data) []) in
        let outs := parse_outputs (get_or (data_outputs workflow_data) []) in
        match get_or (data_steps workflow_data) [] with
        | [] => Raise (WorkflowValidationError "Workflow must have at least one step")
        | steps_data =>
            (ss <- mapM _parse_step steps_data ;;
             graph <- _build_dependency_graph ss ;;
             order <- _compute_execution_order ss graph ;;
             Return
               {| wf_name := get_or (data_name workflow_data) "";
                  wf_version := get_or (data_version workflow_data) "";
                  wf_description := data_description workflow_data;
                  wf_author := data_author workflow_data;
                  wf_tags := get_or (data_tags workflow_data) [];
                  wf_inputs := ins;
                  wf_outputs := outs;
                  wf_environment := get_or (data_environment workflow_data) [];
                  wf_timeout := get_or (data_timeout workflow_data) 3600%Z;
                  wf_retry := get_or (data_retry workflow_data) [];
                  wf_cache := get_or (data_cache workflow_data) [];
                  steps := ss;
                  step_dependency_graph := graph;
                  execution_order := order |})%outcome
        end
  end.

(** ** [validate_workflow] *)

(** The pattern of [validate_workflow]: a group of one lowercase letter and
    any number of lowercase letters, digits and underscores, then any
    character, then [outputs]. *)
Definition step_reference_re : Regex.regex :=
  Regex.seq
    [ Regex.Chr (Regex.in_range 97 122);
      Regex.Star (Regex.Chr (fun x => Regex.in_range 97 122 x
                                      || Regex.in_range 48 57 x
                                      || Ascii.eqb x "_"%char));
      Regex.dot;
      Regex.str false "outputs" ].

(** [match.group(1)]: the match without its last eight characters. *)
Definition referenced_step (input_value : string) : option string :=
  match Regex.search step_reference_re input_value with
  | Some (_, m, _) => Some (take (String.length m - 8) m)
  | None => None
  end.

Definition output_issues (step_ids : list string) (outs : dict WorkflowOutput)
    : list string :=
  flat_map
    (fun kv =>
       if truthy_str (from_step (snd kv)) then
         match split_char "." (get_or (from_step (snd kv)) "") with
         | sid :: _ :: _ =>
             if negb (mem sid step_ids)
             then ["Output " ++ fst kv ++ " references unknown step: " ++ sid]
             else []
         | _ => []
         end
       else [])
    outs.

Definition input_issues (step_ids : list string) (step : WorkflowStep) : list string :=
  flat_map
    (fun kv =>
       match snd kv with
       | JStr input_value =>
           if contains "." input_value
              && startswith "{{" input_value
              && contains ".outputs." input_value
           then match referenced_step input_value with
                | Some ref =>
                    if negb (mem ref step_ids)
                    then ["Step " ++ step_id step ++ " references unknown step: " ++ ref]
                    else []
                | None => []
                end
           else []
       | _ => []
       end)
    (inputs step).

Definition validate_workflow (workflow : WorkflowDefinition) : list string :=
  let step_ids := map step_id (steps workflow) in
  ((if negb (length step_ids =? length (set_of_list step_ids))%nat
    then ["Duplicate step IDs found"] else [])
   ++ output_issues step_ids (wf_outputs workflow)
   ++ flat_map (input_issues step_ids) (steps workflow))%list.

(** ** [TemplateEngine] and [generate_cache_key] *)

(** [_get_nested_value]: walk the context along the dotted key; a missing
    key or a value that is not subscriptable gives [None]. *)
Fixpoint get_path (value : json) (keys : list string) : option json :=
  match keys with
  | [] => Some value
  | k :: keys' =>
      match value with
      | JDict d =>
          match dict_get d k with
          | Some v => get_path v keys'
          | None => None
          end
      | _ => None
      end
  end.

Definition _get_nested_value (context : json) (key : string) : json :=
  get_or (get_path context (split_char "." key)) JNull.

(** The pattern of a variable: two opening braces, spaces, a group of one
    letter or underscore and any number of letters, digits, dots and
    underscores, spaces, two closing braces. *)
Definition variable_re : Regex.regex :=
  Regex.seq
    [ Regex.str false "{{";
      Regex.Star Regex.space;
      Regex.Chr (fun x => Regex.in_range 97 122 x || Regex.in_range 65 90 x
                          || Ascii.eqb x "_"%char);
      Regex.Star (Regex.Chr (fun x => Regex.in_range 97 122 x
                                      || Regex.in_range 65 90 x
                                      || Regex.in_range 48 57 x
                                      || Ascii.eqb x "."%char
                                      || Ascii.eqb x "_"%char));
      Regex.Star Regex.space;
      Regex.str false "}}" ].

(** The name inside a match of [variable_re]: [match.group(1)]. *)
Definition variable_name (m : string) : string :=
  strip (take (String.length m - 4) (drop 2 m)).

(** [re.findall(pattern, s)]: the names of the successive matches. *)
Fixpoint findall_variables (fuel : nat) (s : string) : list string :=
  match fuel with
  | O => []
  | S fuel' =>
      match Regex.search variable_re s with
      | Some (_, m, rest) => variable_name m :: findall_variables fuel' rest
      | None => []
      end
  end.

(** [s.replace(old, new)] for a non-empty [old]. *)
Fixpoint replace_loop (fuel : nat) (old new s : string) : string :=
  match fuel with
  | O => s
  | S fuel' =>
      if startswith old s then new ++ replace_loop fuel' old new (drop (String.length old) s)
      else match s with
           | EmptyString => EmptyString
           | String c s' => String c (replace_loop fuel' old new s')
           end
  end.

Definition replace (old new s : string) : string :=
  replace_loop (S (String.length s)) old new s.

Definition _simple_render (template_str : string) (context : json) : string :=
  fold_left
    (fun result name =>
       match _get_nested_value context name with
       | JNull => result
       | value => replace ("{{ " ++ name ++ " }}") (py_str value) result
       end)
    (findall_variables (String.length template_str) template_str)
    template_str.

(** [jinja2] is the rendering of the Jinja2 library when it is installed
    ([JINJA2_AVAILABLE]); it answers with the text of its exception when it
    fails. *)
Definition render (jinja2 : option (string -> json -> string + string))
    (template_str : string) (context : json) : outcome string :=
  match jinja2 with
  | None => Return (_simple_render template_str context)
  | Some render_with_jinja2 =>
      match render_with_jinja2 template_str context with
      | inl text => Return text
      | inr e => Raise (WorkflowParseError ("Template rendering error: " ++ e))
      end
  end.

Definition step_output_json (o : StepOutput) : json :=
  JDict [ ("name", JStr (so_name o)); ("type", opt_json (so_type o));
          ("description", opt_json (so_description o));
          ("from_source", opt_json (from_source o)) ].

Definition opt_int_json (o : option Z) : json :=
  match o with Some z => JInt z | None => JNull end.

(** [asdict(step)] *)
Fixpoint asdict (step : WorkflowStep) : json :=
  match step with
  | mkWorkflowStep sid sty name descr deps wh tmo rtry cch ins outs cmd wd env
      prmpt mdl prof ucache mtok temp cond msg onf tmpl outp eng u meth hdrs bdy
      thens elses =>
      JDict
        [ ("id", JStr sid); ("type", JStr sty); ("name", opt_json name);
          ("description", opt_json descr);
          ("depends_on", JList (map JStr deps));
          ("when", opt_json wh); ("timeout", JInt tmo);
          ("retry", JDict rtry); ("cache", JDict cch); ("inputs", JDict ins);
          ("outputs", JDict (map (fun kv => (fst kv, step_output_json (snd kv))) outs));
          ("command", opt_json cmd); ("working_directory", opt_json wd);
          ("environment", str_dict_json env);
          ("prompt", opt_json prmpt); ("model", JStr mdl);
          ("security_profile", JStr prof); ("use_cache", JBool ucache);
          ("max_tokens", opt_int_json mtok); ("temperature", JFloat temp);
          ("condition", opt_json cond); ("message", opt_json msg);
          ("on_failure", JStr onf); ("template", opt_json tmpl);
          ("output", opt_json outp); ("engine", JStr eng);
          ("url", opt_json u); ("method", JStr meth);
          ("headers", str_dict_json hdrs); ("body", opt_json bdy);
          ("then_steps", JList (map asdict thens));
          ("else_steps", JList (map asdict elses)) ]
  end.

(** The string that [generate_cache_key] hashes when the step has no custom
    key: the four components joined by a bar. *)
Definition parser_key_string (step : WorkflowStep) : string :=
  join "|" [ step_id step; step_type step;
             dumps (JDict (inputs step));
             dumps (asdict step) ].

(** [WorkflowParser.generate_cache_key] *)
Definition generate_cache_key (jinja2 : option (string -> json -> string + string))
    (step : WorkflowStep) (context : json) : outcome string :=
  match dict_get (cache step) "key" with
  | Some cache_key_template =>
      render jinja2 (py_str cache_key_template) context
  | None => Return (Sha256.hexdigest (parser_key_string step))
  end.

(** * The secure engine ([secure_workflow_engine.py]) *)

(** ** What the engine takes from outside

    The fields of [SECURITY_CONFIG] that the module reads, the [simpleeval]
    library, the subprocess and the file system. *)

(** What [asyncio.wait_for(process.communicate(), timeout)] gives. *)
Inductive ProcessResult : Type :=
| Exited (returncode : Z) (stdout stderr : string)
| TimedOut.

Record Platform : Type := mkPlatform {
  ENABLE_DETAILED_LOGGING : bool;
  SIMPLEEVAL_AVAILABLE : bool;
  (** [simple_eval(expression, names=context, ...)]: the value, or the text
      of the exception it raises *)
  simple_eval : string -> dict json -> json + string;
  (** [datetime.isoformat()] of a time *)
  isoformat : Z -> string;
  (** [asyncio.create_subprocess_shell] with a command, an environment and
      a working directory: the text of the exception when the process
      cannot be started *)
  create_subprocess_shell : string -> dict string -> option string -> option string;
  (** the process that was started, waited for with a timeout *)
  communicate : string -> dict string -> option string -> Z -> ProcessResult;
  normpath : string -> string;
  path_parts : string -> list string;
  path_exists : string -> bool;
  path_join : string -> string -> string;
  path_dirname : string -> string;
  commonpath : string -> string -> string;
  gettempdir : string;
  (** writing a file: the text of the [OSError], if any *)
  write_file : string -> string -> option string
}.

(** ** Data *)

Inductive ExecutionStatus : Type :=
| PENDING | RUNNING | COMPLETED | FAILED | SKIPPED | CACHED | TIMEOUT | TERMINATED.

Record SecurityContext : Type := mkSecurityContext {
  user_id : string;
  permissions : list string;
  sc_security_profile : string;
  audit_trail : list string;
  resource_limits : dict json
}.

Record SecureStepResult : Type := mkSecureStepResult {
  result_step_id : string;
  status : ExecutionStatus;
  started_at : Z;
  completed_at : option Z;
  duration_seconds : Z;
  result_outputs : dict json;
  error : option string;
  cached : bool;
  cache_key : option string;
  sanitized_stdout : option string;
  exit_code : option Z
}.

Record CacheEntry : Type := mkCacheEntry {
  entry_outputs : dict json;
  cached_at : Z;
  ttl : Z
}.

Inductive LogLevel : Type := INFO | WARNING | ERROR.

(** What a step executor does to the world: a call of
    [create_subprocess_shell] with a command, a call of [evaluate_condition],
    and the calls of [os.makedirs], [f.write] and [os.chmod]. *)
Inductive Effect : Type :=
| Subprocess (command : string)
| ConditionEvaluated (expression : string)
| MakeDirs (path : string)
| FileWritten (path content : string)
| Chmod (path : string).

(** The state that the engine's methods read and change: the clock, the
    security context of the execution, the step cache, the logger, the
    effects so far, and the [SecureStepResult] that the running step fills. *)
Record EngineState : Type := mkEngineState {
  clock : Z;
  security_context : SecurityContext;
  step_cache : dict CacheEntry;
  log : list (LogLevel * string);
  effects : list Effect;
  result : SecureStepResult
}.

(** ** A state and exception monad *)

Definition M (A : Type) : Type := EngineState -> outcome A * EngineState.

Definition ret {A : Type} (a : A) : M A := fun st => (Return a, st).
Definition raise {A : Type} (e : exn) : M A := fun st => (Raise e, st).

Definition mbind {A B : Type} (m : M A) (f : A -> M B) : M B :=
  fun st =>
    match m st with
    | (Return a, st') => f a st'
    | (Raise e, st') => (Raise e, st')
    | (OutOfFuel, st') => (OutOfFuel, st')
    end.

(** [try: m except Exception as e: handler e] *)
Definition try_except {A : Type} (m : M A) (handler : exn -> M A) : M A :=
  fun st =>
    match m st with
    | (Raise e, st') => handler e st'
    | other => other
    end.

Definition get_state : M EngineState := fun st => (Return st, st).
Definition put_state (st : EngineState) : M unit := fun _ => (Return tt, st).

Declare Scope engine_scope.
Delimit Scope engine_scope with engine.
Notation "x <- m ;; k" := (mbind m (fun x => k))
  (at level 61, m at next level, right associativity) : engine_scope.
Notation "m ;;; k" := (mbind m (fun _ => k))
  (at level 61, right associativity) : engine_scope.

Local Open Scope engine_scope.

Definition set_log (st : EngineState) (l : list (LogLevel * string)) : EngineState :=
  mkEngineState (clock st) (security_context st) (step_cache st) l (effects st) (result st).
Definition set_security_context (st : EngineState) (sc : SecurityContext) : EngineState :=
  mkEngineState (clock st) sc (step_cache st) (log st) (effects st) (result st).
Definition set_step_cache (st : EngineState) (c : dict CacheEntry) : EngineState :=
  mkEngineState (clock st) (security_context st) c (log st) (effects st) (result st).
Definition set_effects (st : EngineState) (e : list Effect) : EngineState :=
  mkEngineState (clock st) (security_context st) (step_cache st) (log st) e (result st).
Definition set_result (st : EngineState) (r : SecureStepResult) : EngineState :=
  mkEngineState (clock st) (security_context st) (step_cache st) (log st) (effects st) r.

(** [logger.info], [logger.warning], [logger.error] *)
Definition logger (level : LogLevel) (msg : string) : M unit :=
  fun st => (Return tt, set_log st (log st ++ [(level, msg)])%list).

Definition perform (e : Effect) : M unit :=
  fun st => (Return tt, set_effects st (effects st ++ [e])%list).

(** ** Names that the module does not bind

    The methods below read [MAX_LOG_LENGTH], [MAX_STEP_DURATION],
    [MAX_FILE_SIZE_MB] and [MAX_CACHE_ENTRIES] as global names.  The module
    assigns attributes of these names to the object [SECURITY_CONFIG] and
    never binds the names themselves, and nothing that it imports does:
    reading one of them raises [NameError]. *)
Definition unbound_global (name : string) : M Z := raise (NameError name).

Definition MAX_LOG_LENGTH : M Z := unbound_global "MAX_LOG_LENGTH".
Definition MAX_STEP_DURATION : M Z := unbound_global "MAX_STEP_DURATION".
Definition MAX_FILE_SIZE_MB : M Z := unbound_global "MAX_FILE_SIZE_MB".
Definition MAX_CACHE_ENTRIES : M Z := unbound_global "MAX_CACHE_ENTRIES".

(** [s[:n]] *)
Definition slice_to (n : Z) (s : string) : string :=
  if (n <? 0)%Z then take (Z.to_nat (Z.of_nat (String.length s) + n)) s
  else take (Z.to_nat n) s.

(** ** [SecurityContext] *)

Definition has_permission (sc : SecurityContext) (permission : string) : bool :=
  mem permission (permissions sc) || mem "admin" (permissions sc).

(** The characters that [_sanitize_log_entry] removes: 0 to 31 and 127 to
    159. *)
Definition control_char_re : Regex.regex :=
  Regex.Chr (fun x => Regex.in_range 0 31 x || Regex.in_range 127 159 x).

Definition _sanitize_log_entry (entry : string) : M string :=
  let sanitized := Regex.sub control_char_re "" entry in
  limit <- MAX_LOG_LENGTH ;;
  ret (slice_to limit sanitized).

Definition log_security_event (P : Platform) (event : string) : M unit :=
  st <- get_state ;;
  let timestamp := isoformat P (clock st) in
  sanitized_event <- _sanitize_log_entry event ;;
  st <- get_state ;;
  let sc := security_context st in
  put_state
    (set_security_context st
       (mkSecurityContext (user_id sc) (permissions sc) (sc_security_profile sc)
          (audit_trail sc ++ [(timestamp ++ ": " ++ sanitized_event)%string])%list
          (resource_limits sc))) ;;;
  logger INFO ("Security event for " ++ user_id sc ++ ": " ++ sanitized_event).

(** ** [SecureInputValidator] *)

Import Regex.

(** A name, spaces, an opening parenthesis. *)
Definition call_re (name : string) : regex :=
  seq [str true name; Star space; str true "("].

Definition base_patterns : list pattern :=
  [ mkPattern "__import__" (str true "__import__");
    mkPattern "exec\s*\(" (call_re "exec");
    mkPattern "eval\s*\(" (call_re "eval");
    mkPattern "getattr\s*\(.*__builtins__"
      (seq [call_re "getattr"; Star dot; str true "__builtins__"]);
    mkPattern "globals\s*\(\)" (seq [str true "globals"; Star space; str true "()"]);
    mkPattern "__builtins__" (str true "__builtins__");
    mkPattern "__globals__" (str true "__globals__");
    mkPattern "\.mro\(\)" (str true ".mro()");
    mkPattern "\.subclasses\(\)" (str true ".subclasses()") ].

Definition standard_patterns : list pattern :=
  [ mkPattern "compile\s*\(" (call_re "compile");
    mkPattern "getattr\s*\(" (call_re "getattr");
    mkPattern "setattr\s*\(" (call_re "setattr");
    mkPattern "delattr\s*\(" (call_re "delattr");
    mkPattern "locals\s*\(" (call_re "locals");
    mkPattern "vars\s*\(" (call_re "vars");
    mkPattern "dir\s*\(" (call_re "dir");
    mkPattern "subprocess" (str true "subprocess");
    mkPattern "os\.system" (str true "os.system");
    mkPattern "os\.popen" (str true "os.popen");
    mkPattern "os\.spawn" (str true "os.spawn");
    mkPattern "os\.exec" (str true "os.exec");
    mkPattern "commands\." (str true "commands.");
    mkPattern "importlib" (str true "importlib") ].

Definition strict_patterns : list pattern :=
  [ mkPattern "open\s*\(" (call_re "open");
    mkPattern "file\s*\(" (call_re "file");
    mkPattern "input\s*\(" (call_re "input");
    mkPattern "raw_input\s*\(" (call_re "raw_input") ].

(** [_configure_patterns] *)
Definition DANGEROUS_PATTERNS (strictness_level : string) : list pattern :=
  (base_patterns
   ++ (if mem strictness_level ["standard"; "strict"; "paranoid"]
       then standard_patterns else [])
   ++ (if mem strictness_level ["strict"; "paranoid"]
       then strict_patterns else []))%list.

(** [re.compile('|'.join(self.DANGEROUS_PATTERNS), re.IGNORECASE)] *)
Definition pattern_regex (strictness_level : string) : regex :=
  alts (map re (DANGEROUS_PATTERNS strictness_level)).

Definition SAFE_COMMANDS : list string :=
  [ "pytest"; "npm"; "git"; "python"; "python3"; "pip"; "pip3"; "node"; "yarn";
    "docker"; "kubectl"; "terraform"; "ansible"; "mvn"; "gradle"; "make";
    "cargo"; "go"; "rustc"; "javac" ].

(** [create_for_profile]: the strictness level of a security profile. *)
Definition create_for_profile (profile : string) : string :=
  dict_get_default
    [ ("plan_only", "paranoid"); ("restricted", "strict");
      ("standard", "standard"); ("elevated", "permissive") ]
    profile "standard".

Definition _get_max_length (strictness_level : string) : Z :=
  dict_get_default
    [ ("permissive", 50000); ("standard", 10000); ("strict", 5000);
      ("paranoid", 2000) ]%Z
    strictness_level 10000%Z.

Definition validate_string_input (P : Platform) (strictness_level : string)
    (value context : string) : M string :=
  match search (pattern_regex strictness_level) value with
  | Some (_, matched, _) =>
      (if ENABLE_DETAILED_LOGGING P
       then logger WARNING
              ("Blocked dangerous pattern '" ++ matched ++ "' in " ++ context)
       else ret tt) ;;;
      raise (SecurityError
               ("Security violation in " ++ context
                ++ ": Potentially dangerous content detected. "
                ++ "Pattern blocked for security. Check security profile settings."))
  | None =>
      let max_length := _get_max_length strictness_level in
      if (max_length <? Z.of_nat (String.length value))%Z then
        raise (SecurityError
                 ("Input too long in " ++ context ++ " (max "
                  ++ Z_to_string max_length ++ " characters for "
                  ++ strictness_level ++ " profile)"))
      else ret value
  end.

Definition validate_file_path (P : Platform) (path : string) : M string :=
  let normalized := normpath P path in
  if contains ".." normalized || startswith "/" normalized then
    raise (SecurityError ("Invalid file path: " ++ path))
  else
    let sensitive_dirs := ["etc"; "proc"; "sys"; "dev"; "root"; "home"] in
    if existsb (fun part => mem part sensitive_dirs) (path_parts P normalized) then
      raise (SecurityError ("Access to sensitive directory denied: " ++ path))
    else ret normalized.

Definition dangerous_shell_patterns : list pattern :=
  [ mkPattern ";\s*rm\s+-rf"
      (seq [str true ";"; Star space; str true "rm"; plus space; str true "-rf"]);
    mkPattern "&&\s*rm\s+-rf"
      (seq [str true "&&"; Star space; str true "rm"; plus space; str true "-rf"]);
    mkPattern "\|\s*sh" (seq [str true "|"; Star space; str true "sh"]);
    mkPattern "\|\s*bash" (seq [str true "|"; Star space; str true "bash"]);
    mkPattern ">\s*/dev/" (seq [str true ">"; Star space; str true "/dev/"]);
    mkPattern "curl.*\|\s*sh"
      (seq [str true "curl"; Star dot; str true "|"; Star space; str true "sh"]);
    mkPattern "wget.*\|\s*sh"
      (seq [str true "wget"; Star dot; str true "|"; Star space; str true "sh"]);
    mkPattern "\$\([^)]*\)" (seq [str true "$("; Star (none_of ")"); str true ")"]);
    mkPattern "`[^`]*`" (seq [str true "`"; Star (none_of "`"); str true "`"]) ].

(** The [for pattern in ...: if re.search(...): raise] loop of the two
    validators below. *)
Fixpoint first_match (patterns : list pattern) (text : string) : option pattern :=
  match patterns with
  | [] => None
  | p :: rest => if found (re p) text then Some p else first_match rest text
  end.

Definition validate_shell_command (P : Platform) (strictness_level : string)
    (command : string) : M string :=
  command <- validate_string_input P strictness_level command "shell command" ;;
  let first_command :=
    match split_ws (strip command) with
    | c :: _ => c
    | [] => ""
    end in
  (if negb (String.eqb first_command "") && negb (mem first_command SAFE_COMMANDS)
   then logger WARNING ("Potentially unsafe command: " ++ first_command)
   else ret tt) ;;;
  match first_match dangerous_shell_patterns command with
  | Some pattern =>
      raise (SecurityError ("Dangerous shell pattern detected: " ++ src pattern))
  | None => ret command
  end.

(** Two opening braces, anything, the word, anything, two closing braces. *)
Definition injection_re (word : string) : regex :=
  seq [str true "{{"; Star dot; str true word; Star dot; str true "}}"].

Definition injection_patterns : list pattern :=
  [ mkPattern "\{\{.*__.*\}\}" (injection_re "__");
    mkPattern "\{\{.*class.*\}\}" (injection_re "class");
    mkPattern "\{\{.*mro.*\}\}" (injection_re "mro");
    mkPattern "\{\{.*subclasses.*\}\}" (injection_re "subclasses");
    mkPattern "\{\{.*globals.*\}\}" (injection_re "globals");
    mkPattern "\{\{.*builtins.*\}\}" (injection_re "builtins");
    mkPattern "\{\{.*import.*\}\}" (injection_re "import") ].

Definition validate_template_content (P : Platform) (strictness_level : string)
    (template : string) : M string :=
  template <- validate_string_input P strictness_level template "template" ;;
  match first_match injection_patterns template with
  | Some pattern =>
      raise (SecurityError ("Template injection pattern detected: " ++ src pattern))
  | None => ret template
  end.

(** ** [SecureExpressionEvaluator] *)

(** The loop over the comparison operators of [_basic_boolean_eval]: only
    [==] and [!=] return, the other operators fall through. *)
Fixpoint compare_with (ops : list string) (expression : string)
    (context : dict json) : option bool :=
  match ops with
  | [] => None
  | op :: ops' =>
      if contains op expression then
        match split_once op expression with
        | [l; r] =>
            let left := strip l in
            let right := strip r in
            let left_val := dict_get_default context left (JStr left) in
            let right_val := dict_get_default context right (JStr right) in
            if String.eqb op "==" then
              Some (String.eqb (py_str left_val) (py_str right_val))
            else if String.eqb op "!=" then
              Some (negb (String.eqb (py_str left_val) (py_str right_val)))
            else compare_with ops' expression context
        | _ => compare_with ops' expression context
        end
      else compare_with ops' expression context
  end.

Definition comparison_ops : list string := ["=="; "!="; ">"; "<"; ">="; "<="].

Definition _basic_boolean_eval (expression : string) (context : dict json) : M bool :=
  let expression := lower (strip expression) in
  if mem expression ["true"; "1"; "yes"] then ret true
  else if mem expression ["false"; "0"; "no"; ""] then ret false
  else
    match dict_get context expression with
    | Some v => ret (truthy v)
    | None =>
        match compare_with comparison_ops expression context with
        | Some b => ret b
        | None =>
            logger WARNING ("Could not evaluate expression safely: " ++ expression) ;;;
            ret false
        end
    end.

(** The first line records the call among the effects; it stands for
    nothing in the source. *)
Definition evaluate_condition (P : Platform) (expression : string)
    (context : dict json) : M bool :=
  perform (ConditionEvaluated expression) ;;;
  if negb (SIMPLEEVAL_AVAILABLE P) then _basic_boolean_eval expression context
  else
    let expression := strip expression in
    if String.eqb expression "" then ret false
    else if mem (lower expression) ["true"; "1"; "yes"] then ret true
    else if mem (lower expression) ["false"; "0"; "no"; ""] then ret false
    else
      match simple_eval P expression context with
      | inl value => ret (truthy value)
      | inr e =>
          logger ERROR ("Expression evaluation failed: " ++ e) ;;;
          raise (SecurityError ("Invalid expression: " ++ expression))
      end.

(** ** [SecureStepResult] *)

(** [SecureStepResult(step_id, status)] *)
Definition new_result (sid : string) (st : ExecutionStatus) (now : Z) : SecureStepResult :=
  {| result_step_id := sid; status := st; started_at := now;
     completed_at := None; duration_seconds := 0; result_outputs := [];
     error := None; cached := false; cache_key := None;
     sanitized_stdout := None; exit_code := None |}.

Definition secret_words : regex :=
  alts [str true "password"; str true "token"; str true "key"; str true "secret"].

(** The pattern of [_sanitize_outputs]: a secret word, [=], non-spaces. *)
Definition output_secret_re : regex :=
  seq [secret_words; str true "="; plus nonspace].

(** The pattern of [_sanitize_error]: a secret word, [=] or [:], spaces,
    non-spaces. *)
Definition error_secret_re : regex :=
  seq [secret_words; Chr (fun x => Ascii.eqb x "="%char || Ascii.eqb x ":"%char);
       Star space; plus nonspace].

Definition _sanitize_outputs (outs : dict json) : dict json :=
  fold_left
    (fun sanitized kv =>
       match snd kv with
       | JStr value =>
           dict_set sanitized (fst kv)
             (JStr (take 1000 (sub output_secret_re "[REDACTED]" value)))
       | JInt _ | JFloat _ | JBool _ => dict_set sanitized (fst kv) (snd kv)
       | other => dict_set sanitized (fst kv) (JStr (take 1000 (py_str other)))
       end)
    outs [].

Definition _sanitize_error (e : string) : string :=
  take 500 (sub error_secret_re "[REDACTED]" e).

(** [result.set_completed(outputs)]; [None] stands for a call without
    argument. *)
Definition set_completed (outs : option (dict json)) : M unit :=
  fun st =>
    let r := result st in
    (Return tt,
     set_result st
       {| result_step_id := result_step_id r;
          status := COMPLETED;
          started_at := started_at r;
          completed_at := Some (clock st);
          duration_seconds := clock st - started_at r;
          result_outputs :=
            match outs with
            | Some (kv :: l) => _sanitize_outputs (kv :: l)
            | _ => result_outputs r
            end;
          error := error r; cached := cached r; cache_key := cache_key r;
          sanitized_stdout := sanitized_stdout r; exit_code := exit_code r |}).

Definition set_failed (e : string) : M unit :=
  fun st =>
    let r := result st in
    (Return tt,
     set_result st
       {| result_step_id := result_step_id r;
          status := FAILED;
          started_at := started_at r;
          completed_at := Some (clock st);
          duration_seconds := clock st - started_at r;
          result_outputs := result_outputs r;
          error := Some (_sanitize_error e);
          cached := cached r; cache_key := cache_key r;
          sanitized_stdout := sanitized_stdout r; exit_code := exit_code r |}).

(** Assignments to single attributes of the result. *)
Definition update_result (f : SecureStepResult -> SecureStepResult) : M unit :=
  fun st => (Return tt, set_result st (f (result st))).

Definition with_status (s : ExecutionStatus) (r : SecureStepResult) : SecureStepResult :=
  mkSecureStepResult (result_step_id r) s (started_at r) (completed_at r)
    (duration_seconds r) (result_outputs r) (error r) (cached r) (cache_key r)
    (sanitized_stdout r) (exit_code r).

Definition with_cache_hit (key : string) (outs : dict json) (r : SecureStepResult)
    : SecureStepResult :=
  mkSecureStepResult (result_step_id r) (status r) (started_at r) (completed_at r)
    (duration_seconds r) outs (error r) true (Some key)
    (sanitized_stdout r) (exit_code r).

Definition with_process (out : string) (code : Z) (r : SecureStepResult)
    : SecureStepResult :=
  mkSecureStepResult (result_step_id r) (status r) (started_at r) (completed_at r)
    (duration_seconds r) (result_outputs r) (error r) (cached r) (cache_key r)
    (Some out) (Some code).

(** ** The engine's helpers *)

Local Open Scope engine_scope.

(** [replace_var] of [_render_template_securely]: the value under the dotted
    name, the empty string for [None], the match itself when the name does
    not resolve. *)
Definition replace_var (context : dict json) (m : string) : string :=
  match get_path (JDict context) (split_char "." (variable_name m)) with
  | Some JNull => ""
  | Some value => py_str value
  | None => m
  end.

Definition _render_template_securely (template : string) (context : dict json)
    : string :=
  Regex.sub_with variable_re (replace_var context) template.

(** [re.match] of the pattern for the name of an environment variable: an
    uppercase letter or underscore, then uppercase letters, digits and
    underscores up to the end of the string or a final newline. *)
Definition env_name_ok (key : string) : bool :=
  match Regex.rmatch
          (Regex.seq
             [ Regex.Chr (fun x => Regex.in_range 65 90 x || Ascii.eqb x "_"%char);
               Regex.Star (Regex.Chr (fun x => Regex.in_range 65 90 x
                                               || Regex.in_range 48 57 x
                                               || Ascii.eqb x "_"%char)) ])
          key
          (fun rest =>
             if String.eqb rest "" || String.eqb rest (String (ascii_of_nat 10) "")
             then Some rest else None) with
  | Some _ => true
  | None => false
  end.

Fixpoint add_environment (P : Platform) (strictness_level : string)
    (extra_env : dict string) (safe_env : dict string) : M (dict string) :=
  match extra_env with
  | [] => ret safe_env
  | (key, value) :: rest =>
      if env_name_ok key then
        v <- validate_string_input P strictness_level value ("env var " ++ key) ;;
        add_environment P strictness_level rest (dict_set safe_env key v)
      else add_environment P strictness_level rest safe_env
  end.

Definition _create_secure_environment (P : Platform) (strictness_level : string)
    (extra_env : dict string) : M (dict string) :=
  add_environment P strictness_level extra_env
    [ ("PATH", "/usr/local/bin:/usr/bin:/bin"); ("HOME", "/tmp");
      ("USER", "workflow-runner"); ("SHELL", "/bin/sh"); ("LANG", "en_US.UTF-8") ].

Definition _validate_working_directory (P : Platform) (working_dir : option string)
    : M (option string) :=
  if negb (truthy_str working_dir) then ret None
  else
    validated_dir <- validate_file_path P (get_or working_dir "") ;;
    (if negb (path_exists P validated_dir) then perform (MakeDirs validated_dir)
     else ret tt) ;;;
    ret (Some validated_dir).

Definition _create_secure_file_path (P : Platform) (file_path : string) : M string :=
  validated_path <- validate_file_path P file_path ;;
  let workspace := path_join P (gettempdir P) "workflow-workspace" in
  perform (MakeDirs workspace) ;;;
  let secure_path := path_join P workspace validated_path in
  if negb (startswith workspace (commonpath P workspace secure_path)) then
    raise (SecurityError ("File path escapes secure workspace: " ++ file_path))
  else ret secure_path.

(** The pattern of [_sanitize_output]: a secret word or [credential], one or
    more of [=], [:] and spaces, non-spaces. *)
Definition command_secret_re : Regex.regex :=
  Regex.seq
    [ Regex.alts [Regex.str true "password"; Regex.str true "token";
                  Regex.str true "key"; Regex.str true "secret";
                  Regex.str true "credential"];
      Regex.plus (Regex.Chr (fun x => Ascii.eqb x "="%char || Ascii.eqb x ":"%char
                                      || isspace x));
      Regex.plus Regex.nonspace ].

Definition _sanitize_output (out : string) : string :=
  if String.eqb out "" then ""
  else take 5000 (Regex.sub command_secret_re "[REDACTED]" out).

(** ** The step cache *)

Definition _generate_cache_key (step : WorkflowStep) (context : dict json) : string :=
  Sha256.hexdigest
    (join "|" [ step_id step; step_type step;
                dumps (JDict (inputs step));
                dumps (dict_get_default context "inputs" (JDict [])) ]).

Definition _get_cached_result (cache_key : string) : M (option CacheEntry) :=
  st <- get_state ;;
  match dict_get (step_cache st) cache_key with
  | None => ret None
  | Some cached_data =>
      if (ttl cached_data <? clock st - cached_at cached_data)%Z then
        put_state (set_step_cache st (dict_del (step_cache st) cache_key)) ;;;
        ret None
      else ret (Some cached_data)
  end.

(** [sorted(keys, key=cached_at)]: a stable insertion sort. *)
Fixpoint insert_by_age (kv : string * CacheEntry) (l : list (string * CacheEntry))
    : list (string * CacheEntry) :=
  match l with
  | [] => [kv]
  | kv' :: l' =>
      if (cached_at (snd kv) <? cached_at (snd kv'))%Z then kv :: l
      else kv' :: insert_by_age kv l'
  end.

Definition sorted_by_age (c : dict CacheEntry) : list string :=
  map fst (fold_left (fun acc kv => insert_by_age kv acc) c []).

Definition _cache_result (cache_key : string) : M unit :=
  st <- get_state ;;
  let c := step_cache st in
  limit <- MAX_CACHE_ENTRIES ;;
  let c' :=
    if (limit <=? Z.of_nat (length c))%Z
    then fold_left (@dict_del CacheEntry) (firstn 10 (sorted_by_age c)) c
    else c in
  put_state
    (set_step_cache st
       (dict_set c' cache_key
          {| entry_outputs := result_outputs (result st);
             cached_at := clock st; ttl := 3600 |})).

(** ** The step executors *)

Definition _execute_shell_step (P : Platform) (strictness_level : string)
    (step : WorkflowStep) (context : dict json) : M unit :=
  st <- get_state ;;
  if negb (has_permission (security_context st) "shell.execute") then
    raise (SecurityError "User lacks permission to execute shell commands")
  else
    let raw_command := str_or (command step) "" in
    sanitized_command <- validate_shell_command P strictness_level raw_command ;;
    let rendered_command := _render_template_securely sanitized_command context in
    try_except
      (env <- _create_secure_environment P strictness_level (environment step) ;;
       cwd <- _validate_working_directory P (working_directory step) ;;
       perform (Subprocess rendered_command) ;;;
       match create_subprocess_shell P rendered_command env cwd with
       | Some msg => raise (OtherError msg)
       | None =>
           limit <- MAX_STEP_DURATION ;;
           match communicate P rendered_command env cwd
                   (Z.min (timeout step) limit) with
           | TimedOut => raise TimeoutError
           | Exited returncode stdout stderr =>
               let out := _sanitize_output stdout in
               let stderr_content := _sanitize_output stderr in
               update_result (with_process out returncode) ;;;
               if (returncode =? 0)%Z then
                 set_completed
                   (Some (fold_left
                            (fun acc kv => dict_set acc (fst kv) (JStr (strip out)))
                            (outputs step) []))
               else
                 set_failed ("Command failed with exit code "
                             ++ Z_to_string returncode ++ ": " ++ stderr_content)
           end
       end)
      (fun e =>
         match e with
         | TimeoutError =>
             set_failed ("Command timed out after " ++ Z_to_string (timeout step)
                         ++ " seconds")
         | _ => raise e
         end) ;;;
    log_security_event P ("Shell command executed: " ++ step_id step).

Definition _execute_assert_step (P : Platform) (strictness_level : string)
    (step : WorkflowStep) (context : dict json) : M unit :=
  let condition := str_or (condition step) "" in
  try_except
    (validate_string_input P strictness_level condition "assertion condition" ;;;
     assertion_passed <- evaluate_condition P condition context ;;
     if assertion_passed then
       set_completed (Some [("assertion_result", JBool true)])
     else if String.eqb (on_failure step) "fail" then
       set_failed (str_or (message step) ("Assertion failed: " ++ condition))
     else if String.eqb (on_failure step) "warn" then
       set_completed
         (Some [ ("assertion_result", JBool false);
                 ("warning",
                  JStr (str_or (message step) ("Assertion failed: " ++ condition))) ])
     else
       update_result (with_status SKIPPED) ;;;
       set_completed (Some [("assertion_result", JBool false)]))
    (fun e => set_failed ("Assertion evaluation error: " ++ exn_str e)) ;;;
  log_security_event P ("Assertion executed: " ++ step_id step).

Definition _execute_template_step (P : Platform) (strictness_level : string)
    (step : WorkflowStep) (context : dict json) : M unit :=
  st <- get_state ;;
  if negb (has_permission (security_context st) "file.write") then
    raise (SecurityError "User lacks permission to write files")
  else
    try_except
      (template_content <-
         validate_template_content P strictness_level (str_or (template step) "") ;;
       output_path <- validate_file_path P (str_or (output step) "") ;;
       let rendered_content := _render_template_securely template_content context in
       secure_output_path <- _create_secure_file_path P output_path ;;
       limit <- MAX_FILE_SIZE_MB ;;
       if (limit * 1024 * 1024
           <? Z.of_nat (length (Sha256.utf8 rendered_content)))%Z then
         limit <- MAX_FILE_SIZE_MB ;;
         raise (SecurityError ("Generated file too large (max "
                               ++ Z_to_string limit ++ "MB)"))
       else
         perform (MakeDirs (path_dirname P secure_output_path)) ;;;
         match write_file P secure_output_path rendered_content with
         | Some e => raise (OtherError e)
         | None =>
             perform (FileWritten secure_output_path rendered_content) ;;;
             perform (Chmod secure_output_path) ;;;
             set_completed
               (Some [ ("output_file", JStr secure_output_path);
                       ("template_size",
                        JInt (Z.of_nat (String.length rendered_content))) ])
         end)
      (fun e => set_failed ("Template execution error: " ++ exn_str e)) ;;;
    log_security_event P ("Template generated: " ++ step_id step).

(** ** [_execute_step_securely] and [_should_execute_step] *)

(** [step.cache.get('enabled', True)], as a condition. *)
Definition cache_enabled (step : WorkflowStep) : bool :=
  truthy (dict_get_default (cache step) "enabled" (JBool true)).

Definition status_eqb (a b : ExecutionStatus) : bool :=
  match a, b with
  | PENDING, PENDING | RUNNING, RUNNING | COMPLETED, COMPLETED
  | FAILED, FAILED | SKIPPED, SKIPPED | CACHED, CACHED
  | TIMEOUT, TIMEOUT | TERMINATED, TERMINATED => true
  | _, _ => false
  end.

(** [profile] is [self.security_profile]; the validator of the engine has the
    strictness of that profile.  The first component of the body tells
    whether the method has returned from the cache. *)
Definition _execute_step_securely (P : Platform) (profile : string)
    (step : WorkflowStep) (context : dict json) : M SecureStepResult :=
  let strictness_level := create_for_profile profile in
  st0 <- get_state ;;
  put_state (set_result st0 (new_result (step_id step) RUNNING (clock st0))) ;;;
  try_except
    (from_cache <-
       (if cache_enabled step then
          let key := _generate_cache_key step context in
          cached_result <- _get_cached_result key ;;
          match cached_result with
          | Some entry =>
              update_result (with_cache_hit key (entry_outputs entry)) ;;;
              set_completed None ;;;
              ret true
          | None => ret false
          end
        else ret false) ;;
     if from_cache then ret tt
     else
       (if String.eqb (step_type step) "shell" then
          _execute_shell_step P strictness_level step context
        else if String.eqb (step_type step) "assert" then
          _execute_assert_step P strictness_level step context
        else if String.eqb (step_type step) "template" then
          _execute_template_step P strictness_level step context
        else raise (SecurityError ("Unsupported step type: " ++ step_type step))) ;;;
       st <- get_state ;;
       if status_eqb (status (result st)) COMPLETED && cache_enabled step then
         _cache_result
           (str_or (cache_key (result st)) (_generate_cache_key step context))
       else ret tt)
    (fun e =>
       set_failed (exn_str e) ;;;
       log_security_event P ("Step " ++ step_id step ++ " failed: " ++ exn_str e)) ;;;
  st <- get_state ;;
  ret (result st).


(** The three permission gates of the engine: in
    [execute_workflow_securely], [_execute_shell_step] and
    [_execute_template_step]. *)
Definition permission_gates : list (string * string) :=
  [ ("workflow.execute", "User lacks permission to execute workflows");
    ("shell.execute", "User lacks permission to execute shell commands");
    ("file.write", "User lacks permission to write files") ].

(** [if not security_context.has_permission(p): raise SecurityError(msg)] *)
Definition check_permission (gate : string * string) : M unit :=
  st <- get_state ;;
  if negb (has_permission (security_context st) (fst gate)) then
    raise (SecurityError (snd gate))
  else ret tt.

Close Scope engine_scope.

(** * More of the parser and of the engine *)

(** ** [_clean_dict] and [_render_dict_templates] *)

Definition is_None (v : json) : bool :=
  match v with JNull => true | _ => false end.

(** [v == 0]: the integer and the float zero, and [False]. *)
Definition equals_zero (v : json) : bool :=
  match v with
  | JInt z => (z =? 0)%Z
  | JFloat r => String.eqb r "0.0" || String.eqb r "-0.0"
  | JBool b => negb b
  | _ => false
  end.

(** [v is False] *)
Definition is_False (v : json) : bool :=
  match v with JBool false => true | _ => false end.

(** [cleaned_v or cleaned_v == 0 or cleaned_v is False] *)
Definition kept (cleaned_v : json) : bool :=
  truthy cleaned_v || equals_zero cleaned_v || is_False cleaned_v.

Fixpoint _clean_dict (obj : json) : json :=
  match obj with
  | JDict d =>
      JDict
        (fold_left
           (fun cleaned kv =>
              if is_None (snd kv) then cleaned
              else
                let cleaned_v := _clean_dict (snd kv) in
                if kept cleaned_v then dict_set cleaned (fst kv) cleaned_v
                else cleaned)
           d [])
  | JList l =>
      JList (flat_map (fun item => if is_None item then [] else [_clean_dict item]) l)
  | _ => obj
  end.

(** The [try] around [render] swallows every exception: the string is then
    left as it is. *)
Fixpoint _render_dict_templates (jinja2 : option (string -> json -> string + string))
    (obj : json) (context : json) : json :=
  match obj with
  | JDict d =>
      JDict (map (fun kv => (fst kv, _render_dict_templates jinja2 (snd kv) context)) d)
  | JList l => JList (map (fun item => _render_dict_templates jinja2 item context) l)
  | JStr s =>
      if contains "{{" s && contains "}}" s then
        match render jinja2 s context with
        | Return rendered => JStr rendered
        | _ => obj
        end
      else obj
  | _ => obj
  end.

(** ** [_extract_output_value], [_validate_workflow_inputs] and
    [_sanitize_inputs] *)

Local Open Scope engine_scope.

(** The loop of [_extract_output_value]: [value.get(part)] on a dictionary,
    [None] for everything else. *)
Fixpoint extract_loop (parts : list string) (value : json) : json :=
  match parts with
  | [] => value
  | part :: parts' =>
      match value with
      | JDict d => extract_loop parts' (dict_get_default d part JNull)
      | _ => JNull
      end
  end.

Definition _extract_output_value (reference : string) (context : dict json) : json :=
  extract_loop (split_char "." reference) (JDict context).

(** The loop of [_validate_workflow_inputs] over the declared inputs. *)
Fixpoint validate_inputs_loop (P : Platform) (strictness_level : string)
    (declared : dict WorkflowInput) (inputs : dict json) : M unit :=
  match declared with
  | [] => ret tt
  | (input_name, input_config) :: rest =>
      if input_required input_config && negb (dict_mem inputs input_name) then
        raise (SecurityError ("Required input missing: " ++ input_name))
      else
        match dict_get inputs input_name with
        | Some (JStr input_value) =>
            validate_string_input P strictness_level input_value
              ("input " ++ input_name) ;;;
            validate_inputs_loop P strictness_level rest inputs
        | _ => validate_inputs_loop P strictness_level rest inputs
        end
  end.

Definition _validate_workflow_inputs (P : Platform) (strictness_level : string)
    (workflow : WorkflowDefinition) (inputs : dict json) : M unit :=
  validate_inputs_loop P strictness_level (wf_inputs workflow) inputs ;;;
  log_security_event P
    ("Workflow inputs validated: " ++ nat_to_string (length inputs) ++ " inputs").

Definition sensitive_keys : list string :=
  ["password"; "token"; "key"; "secret"; "credential"].

Definition _sanitize_inputs (inputs : dict json) : dict json :=
  fold_left
    (fun sanitized kv =>
       if existsb (fun sensitive => contains sensitive (lower (fst kv))) sensitive_keys
       then dict_set sanitized (fst kv) (JStr "[REDACTED]")
       else dict_set sanitized (fst kv) (JStr (take 100 (py_str (snd kv)))))
    inputs [].

Close Scope engine_scope.

(** * Notions used in the statements *)

(** Position of the first occurrence of [x] in [l], [length l] if there is
    none. *)
Fixpoint index_of (x : string) (l : list string) : nat :=
  match l with
  | [] => 0
  | y :: l' => if String.eqb x y then 0 else S (index_of x l')
  end.

(** [a] appears after [b] in [l]. *)
Definition appears_after (l : list string) (a b : string) : Prop :=
  In a l /\ In b l /\ index_of b l < index_of a l.

(** An edge of the dependency graph: [a] depends on [b]. *)
Definition edge (graph : dict (list string)) (a b : string) : Prop :=
  exists deps, dict_get graph a = Some deps /\ In b deps.

Definition cyclic (graph : dict (list string)) : Prop :=
  exists x, clos_trans string (edge graph) x x.

Definition acyclic (graph : dict (list string)) : Prop :=
  forall x, ~ clos_trans string (edge graph) x x.

(** What [_build_dependency_graph] guarantees: distinct keys, sets without
    repetition, and every dependency a key. *)
Definition wf_graph (graph : dict (list string)) : Prop :=
  NoDup (dict_keys graph)
  /\ forall k deps, dict_get graph k = Some deps ->
       NoDup deps /\ forall x, In x deps -> In x (dict_keys graph).

(** The same while the graph is being built: keys and dependencies are among
    [step_ids]. *)
Definition wf_graph_on (step_ids : list string) (graph : dict (list string)) : Prop :=
  NoDup (dict_keys graph)
  /\ (forall k, In k (dict_keys graph) -> In k step_ids)
  /\ forall k deps, dict_get graph k = Some deps ->
       NoDup deps /\ forall x, In x deps -> In x step_ids.

(** The dependencies in [deps] that are not yet in [order]. *)
Definition pending (order deps : list string) : list string :=
  filter (fun x => negb (mem x order)) deps.

(** The steps that one iteration of the [while] loop appends to the queue:
    they depend on [current] and have one dependency left. *)
Definition newly (current : string) (d : dict Z) (kv : string * list string) : bool :=
  mem current (snd kv) && (dict_get_default d (fst kv) 0 - 1 =? 0)%Z.

(** The invariant of the [while] loop of Kahn's algorithm. *)
Record kahn_inv (graph : dict (list string)) (d : dict Z)
    (queue order : list string) : Prop := mkKahnInv {
  inv_degree : forall k deps, dict_get graph k = Some deps ->
      dict_get d k = Some (Z.of_nat (length (pending order deps)));
  inv_nodup : NoDup (order ++ queue)%list;
  inv_ready : forall k, In k (order ++ queue)%list <->
      exists deps, dict_get graph k = Some deps /\ pending order deps = [];
  inv_sorted : forall k deps x, In k order -> dict_get graph k = Some deps ->
      In x deps -> In x order /\ index_of x order < index_of k order
}.

Arguments inv_degree {graph d queue order} _ k deps _.
Arguments inv_nodup {graph d queue order} _.
Arguments inv_ready {graph d queue order} _ k.
Arguments inv_sorted {graph d queue order} _ k deps x _ _ _.

(** The checks of [parse_workflow_data] that come before the dependency
    graph is ordered: schema, name, version, a non-empty list of steps, every
    step parsed, every dependency known. *)
Definition reaches_ordering (schema : option (WorkflowData -> option string))
    (data : WorkflowData) (ss : list WorkflowStep) (graph : dict (list string))
    : Prop :=
  match schema with Some validate => validate data | None => None end = None
  /\ truthy_str (data_name data) = true
  /\ truthy_str (data_version data) = true
  /\ get_or (data_steps data) [] <> []
  /\ mapM _parse_step (get_or (data_steps data) []) = Return ss
  /\ _build_dependency_graph ss = Return graph.

(** The outcome of parsing: a value, or a [WorkflowValidationError]. *)
Definition validated {A : Type} (m : outcome A) : Prop :=
  (exists a, m = Return a) \/ (exists msg, m = Raise (WorkflowValidationError msg)).

(** A ranking of the steps in which every dependency comes first: a check
    that can be run, and that excludes a cycle. *)
Definition ranked (graph : dict (list string)) (l : list string) : bool :=
  forallb
    (fun kv =>
       forallb (fun x => (index_of x l <? index_of (fst kv) l)%nat) (snd kv))
    graph.

(** The workflow data with other outputs, and a definition with other
    outputs. *)
Definition with_outputs (data : WorkflowData) (outs : list (string * RawOutput))
    : WorkflowData :=
  {| data_name := data_name data; data_version := data_version data;
     data_description := data_description data; data_author := data_author data;
     data_tags := data_tags data; data_environment := data_environment data;
     data_timeout := data_timeout data; data_retry := data_retry data;
     data_cache := data_cache data; data_inputs := data_inputs data;
     data_outputs := Some outs; data_steps := data_steps data |}.

Definition with_wf_outputs (wf : WorkflowDefinition) (outs : dict WorkflowOutput)
    : WorkflowDefinition :=
  {| wf_name := wf_name wf; wf_version := wf_version wf;
     wf_description := wf_description wf; wf_author := wf_author wf;
     wf_tags := wf_tags wf; wf_inputs := wf_inputs wf; wf_outputs := outs;
     wf_environment := wf_environment wf; wf_timeout := wf_timeout wf;
     wf_retry := wf_retry wf; wf_cache := wf_cache wf; steps := steps wf;
     step_dependency_graph := step_dependency_graph wf;
     execution_order := execution_order wf |}.


(** Two values are structurally identical when they differ at most in the
    order of the entries of their dictionaries. *)
Inductive json_equiv : json -> json -> Prop :=
| je_null : json_equiv JNull JNull
| je_bool b : json_equiv (JBool b) (JBool b)
| je_int z : json_equiv (JInt z) (JInt z)
| je_float r : json_equiv (JFloat r) (JFloat r)
| je_str s : json_equiv (JStr s) (JStr s)
| je_list l1 l2 :
    Forall2 json_equiv l1 l2 -> json_equiv (JList l1) (JList l2)
| je_dict d1 d1' d2 :
    NoDup (map fst d1) ->
    Permutation d1 d1' ->
    Forall2 (fun kv kv' => fst kv = fst kv' /\ json_equiv (snd kv) (snd kv')) d1' d2 ->
    json_equiv (JDict d1) (JDict d2).

Fixpoint distinct (l : list string) : bool :=
  match l with
  | [] => true
  | x :: l' => negb (mem x l') && distinct l'
  end.

(** No dictionary inside the value has a key twice. *)
Fixpoint distinct_keys (v : json) : bool :=
  match v with
  | JList l => forallb distinct_keys l
  | JDict d =>
      distinct (map fst d) && forallb (fun kv => distinct_keys (snd kv)) d
  | _ => true
  end.

(** "Serialized with sorted keys", in two steps: the entries of every
    dictionary of a value are put in the order of their keys, and the value
    is written as JSON text with its entries in the order they have. *)
Fixpoint sort_keys (v : json) : json :=
  match v with
  | JList l => JList (map sort_keys l)
  | JDict d => JDict (sort_items (map (fun kv => (fst kv, sort_keys (snd kv))) d))
  | _ => v
  end.

Fixpoint json_text (v : json) : string :=
  match v with
  | JNull => "null"
  | JBool true => "true"
  | JBool false => "false"
  | JInt z => Z_to_string z
  | JFloat r => float_json r
  | JStr s => json_string s
  | JList l => "[" ++ join ", " (map json_text l) ++ "]"
  | JDict d =>
      "{" ++ join ", "
               (map (fun kv => json_string (fst kv) ++ ": " ++ json_text (snd kv)) d)
          ++ "}"
  end.

(** Keys in ascending order, in one list and in every dictionary of a
    value. *)
Fixpoint ascending (keys : list string) : bool :=
  match keys with
  | [] => true
  | a :: rest =>
      match rest with
      | [] => true
      | b :: _ => String.leb a b && ascending rest
      end
  end.

Fixpoint keys_ascending (v : json) : bool :=
  match v with
  | JList l => forallb keys_ascending l
  | JDict d =>
      ascending (map fst d) && forallb (fun kv => keys_ascending (snd kv)) d
  | _ => true
  end.

(** The four components that the claim names: step id, step type, the
    declared inputs of the step and the inputs of the execution, both
    serialized with sorted keys, joined by a bar. *)
Definition claimed_key_string (step : WorkflowStep) (context : dict json) : string :=
  join "|" [ step_id step; step_type step;
             json_text (sort_keys (JDict (inputs step)));
             json_text (sort_keys (dict_get_default context "inputs" (JDict []))) ].

(** ** Notions for strings and patterns *)

(** Whether all characters of [s] satisfy [p]. *)
Fixpoint all_chars (p : ascii -> bool) (s : string) : bool :=
  match s with
  | EmptyString => true
  | String c s' => p c && all_chars p s'
  end.

(** The first character of a variable name, and the characters after it, as
    the pattern of a template variable reads them. *)
Definition name_start (c : ascii) : bool :=
  Regex.in_range 97 122 c || Regex.in_range 65 90 c || Ascii.eqb c "_"%char.

Definition name_char (c : ascii) : bool :=
  Regex.in_range 97 122 c || Regex.in_range 65 90 c || Regex.in_range 48 57 c
  || Ascii.eqb c "."%char || Ascii.eqb c "_"%char.

(** A variable name: a letter or underscore, then letters, digits, dots and
    underscores. *)
Definition variable (name : string) : bool :=
  match name with
  | EmptyString => false
  | String c rest => name_start c && all_chars name_char rest
  end.

(** A text without an opening brace. *)
Definition no_brace (s : string) : bool :=
  all_chars (fun c => negb (Ascii.eqb c "{"%char)) s.

(** The loop that [Regex.rmatch] runs for a starred expression [r1] with the
    continuation [k]. *)
Section StarLoop.

Variable r1 : Regex.regex.
Variable k : string -> option string.

Fixpoint star_loop (n : nat) (s0 : string) {struct n} : option string :=
  match n with
  | O => k s0
  | S n' =>
      match Regex.rmatch r1 s0
              (fun s' =>
                 if (String.length s' <? String.length s0)%nat
                 then star_loop n' s' else None) with
      | Some x => Some x
      | None => k s0
      end
  end.

End StarLoop.

(** A text that is empty or starts with a character outside [p]. *)
Definition stops (p : ascii -> bool) (s : string) : bool :=
  match s with
  | EmptyString => true
  | String c _ => negb (p c)
  end.

(** ** Notions for workflows *)

(** A step that has an id, a type and the field that its type requires, and
    so have the steps nested in it. *)
Fixpoint well_formed_step (step : WorkflowStep) : bool :=
  match step with
  | mkWorkflowStep sid sty _ _ _ _ _ _ _ _ _ cmd _ _ prmpt _ _ _ _ _ cond _ _
      tmpl outp _ u _ _ _ thens elses =>
      negb (String.eqb sid "") && negb (String.eqb sty "")
      && (if String.eqb sty "shell" then truthy_str cmd
          else if String.eqb sty "claude_code" then truthy_str prmpt
          else if String.eqb sty "assert" then truthy_str cond
          else if String.eqb sty "template" then truthy_str tmpl && truthy_str outp
          else if String.eqb sty "webhook" then truthy_str u
          else if String.eqb sty "conditional" then truthy_str cond
          else true)
      && forallb well_formed_step thens
      && forallb well_formed_step elses
  end.

(** A value as [_clean_dict] leaves it: no entry of a dictionary is [None],
    an empty text or an empty collection, and no item of a list is [None]. *)
Fixpoint cleaned (v : json) : bool :=
  match v with
  | JDict d =>
      forallb (fun kv => negb (is_None (snd kv)) && kept (snd kv) && cleaned (snd kv)) d
  | JList l => forallb (fun item => negb (is_None item) && cleaned item) l
  | _ => true
  end.

(** A value in which no text has both an opening and a closing pair of
    braces. *)
Fixpoint no_template (v : json) : bool :=
  match v with
  | JDict d => forallb (fun kv => no_template (snd kv)) d
  | JList l => forallb no_template l
  | JStr s => negb (contains "{{" s && contains "}}" s)
  | _ => true
  end.

(** ** Notions for the engine *)

(** What [validate_string_input] asks of a text at a strictness level: none
    of the dangerous patterns of the level is found in it, and it is no
    longer than the level allows. *)
Definition acceptable (strictness_level value : string) : bool :=
  negb (Regex.found (pattern_regex strictness_level) value)
  && (Z.of_nat (String.length value) <=? _get_max_length strictness_level)%Z.

(** The checks of [_validate_workflow_inputs] on one declared input and on
    all of them: an input that is required is given, and an input that is
    given as a text is acceptable. *)
Definition input_acceptable (strictness_level : string) (inputs : dict json)
    (declared : string * WorkflowInput) : bool :=
  (negb (input_required (snd declared)) || dict_mem inputs (fst declared))
  && match dict_get inputs (fst declared) with
     | Some (JStr value) => acceptable strictness_level value
     | _ => true
     end.

Definition inputs_acceptable (strictness_level : string)
    (workflow : WorkflowDefinition) (inputs : dict json) : bool :=
  forallb (input_acceptable strictness_level inputs) (wf_inputs workflow).

(** A key that [_sanitize_inputs] takes for the name of a secret. *)
Definition sensitive_name (key : string) : bool :=
  existsb (fun sensitive => contains sensitive (lower key)) sensitive_keys.

(** The environment that a command starts from. *)
Definition minimal_environment : dict string :=
  [ ("PATH", "/usr/local/bin:/usr/bin:/bin"); ("HOME", "/tmp");
    ("USER", "workflow-runner"); ("SHELL", "/bin/sh"); ("LANG", "en_US.UTF-8") ].

(** A value that [_sanitize_outputs] can leave: a number, a truth value, or
    a text of at most 1000 characters. *)
Definition bounded_output (v : json) : bool :=
  match v with
  | JInt _ | JFloat _ | JBool _ => true
  | JStr s => (String.length s <=? 1000)%nat
  | _ => false
  end.

(** ** Notions for the execution of a step *)

(** What an executor leaves of the result it fills: the step, the start and
    the marks of the cache. *)
Definition keeps (r r' : SecureStepResult) : Prop :=
  result_step_id r' = result_step_id r
  /\ started_at r' = started_at r
  /\ cached r' = cached r
  /\ cache_key r' = cache_key r.

(** The second state continues the first: the clock and the security
    context, with its audit trail, are the same, the log and the effects
    have only grown, and every new effect is one that [allowed] admits. *)
Record continues_with (allowed : Effect -> bool) (st st' : EngineState) : Prop :=
  mkContinues {
    same_clock : clock st' = clock st;
    same_context : security_context st' = security_context st;
    log_grows : exists t, log st' = (log st ++ t)%list;
    effects_grow :
      exists t, effects st' = (effects st ++ t)%list /\ forallb allowed t = true
  }.

(** An operation that continues the state, leaves the cache alone and keeps
    the marks of the result, and that does not run out of fuel. *)
Definition tracks {A : Type} (allowed : Effect -> bool) (m : M A) : Prop :=
  forall st o st', m st = (o, st') ->
    o <> OutOfFuel
    /\ continues_with allowed st st'
    /\ step_cache st' = step_cache st
    /\ keeps (result st) (result st').

(** An operation that never returns: it raises, whatever the state. *)
Definition never_returns {A : Type} (m : M A) : Prop :=
  forall st a st', m st <> (Return a, st').

Definition no_effect (e : Effect) : bool := false.

(** The effects that the execution of a step of a given type can have: the
    start of a subprocess for a shell step, the evaluation of a condition for
    an assert step, a new directory for a shell or a template step. *)
Definition effect_of_type (step_type : string) (e : Effect) : bool :=
  match e with
  | Subprocess _ => String.eqb step_type "shell"
  | ConditionEvaluated _ => String.eqb step_type "assert"
  | MakeDirs _ => String.eqb step_type "shell" || String.eqb step_type "template"
  | FileWritten _ _ | Chmod _ => false
  end.

Definition shell_effect (e : Effect) : bool :=
  match e with Subprocess _ | MakeDirs _ => true | _ => false end.

Definition assert_effect (e : Effect) : bool :=
  match e with ConditionEvaluated _ => true | _ => false end.

Definition template_effect (e : Effect) : bool :=
  match e with MakeDirs _ => true | _ => false end.

(** The three phases of [_execute_step_securely] inside its [try]: the
    lookup in the cache, the executor of the step type, and the storing of a
    completed result. *)
Definition cache_phase (step : WorkflowStep) (context : dict json) : M bool :=
  if cache_enabled step then
    mbind (_get_cached_result (_generate_cache_key step context))
      (fun cached_result =>
         match cached_result with
         | Some entry =>
             mbind (update_result
                      (with_cache_hit (_generate_cache_key step context)
                         (entry_outputs entry)))
               (fun _ => mbind (set_completed None) (fun _ => ret true))
         | None => ret false
         end)
  else ret false.

Definition executor_phase (P : Platform) (strictness_level : string)
    (step : WorkflowStep) (context : dict json) : M unit :=
  if String.eqb (step_type step) "shell" then
    _execute_shell_step P strictness_level step context
  else if String.eqb (step_type step) "assert" then
    _execute_assert_step P strictness_level step context
  else if String.eqb (step_type step) "template" then
    _execute_template_step P strictness_level step context
  else raise (SecurityError ("Unsupported step type: " ++ step_type step)).

Definition store_phase (step : WorkflowStep) (context : dict json) : M unit :=
  mbind get_state
    (fun st =>
       if status_eqb (status (result st)) COMPLETED && cache_enabled step then
         _cache_result
           (str_or (cache_key (result st)) (_generate_cache_key step context))
       else ret tt).

(** The handler of the [try]. *)
Definition failure_phase (P : Platform) (step : WorkflowStep) (e : exn) : M unit :=
  mbind (set_failed (exn_str e))
    (fun _ =>
       log_security_event P ("Step " ++ step_id step ++ " failed: " ++ exn_str e)).

(** The part of [_execute_step_securely] that runs inside the [try], with
    its handler. *)
Definition guarded_phases (P : Platform) (profile : string) (step : WorkflowStep)
    (context : dict json) : M unit :=
  try_except
    (mbind (cache_phase step context)
       (fun from_cache =>
          if from_cache then ret tt
          else mbind (executor_phase P (create_for_profile profile) step context)
                 (fun _ => store_phase step context)))
    (failure_phase P step).

(** The cache cannot serve the step: caching is off for the step, or the
    cache has no entry under the key of the step, or the entry has expired. *)
Definition cache_miss (step : WorkflowStep) (context : dict json) (st : EngineState)
    : Prop :=
  cache_enabled step = false
  \/ match dict_get (step_cache st) (_generate_cache_key step context) with
     | Some entry => (ttl entry < clock st - cached_at entry)%Z
     | None => True
     end.

(** The message for a step that the user has no permission to run. *)
Definition denied (step : WorkflowStep) (sc : SecurityContext) : option string :=
  if String.eqb (step_type step) "shell" then
    if has_permission sc "shell.execute" then None
    else Some "User lacks permission to execute shell commands"
  else if String.eqb (step_type step) "template" then
    if has_permission sc "file.write" then None
    else Some "User lacks permission to write files"
  else None.

(** A command that [validate_shell_command] rejects. *)
Definition rejected_command (strictness_level command : string) : bool :=
  negb (acceptable strictness_level command)
  || match first_match dangerous_shell_patterns command with
     | Some _ => true
     | None => false
     end.

(** The exception that ends a shell step whose command was passed to
    [create_subprocess_shell]: the one of the call, or the [NameError] of
    the timeout that is computed next. *)
Definition after_spawn (spawn_error : option string) : exn :=
  match spawn_error with
  | Some msg => OtherError msg
  | None => NameError "MAX_STEP_DURATION"
  end.

(** * Sample workflows *)

(** A shell step with the given id, dependencies and command; every other
    key is absent. *)
Definition raw_shell (sid : string) (deps : list string) (cmd : string) : RawStep :=
  {| raw_id := Some sid; raw_type := Some "shell"; raw_name := None;
     raw_description := None; raw_when := None; raw_timeout := None;
     raw_retry := None; raw_cache := None; raw_inputs := None;
     raw_depends_on := Some (DependsList deps); raw_outputs := None;
     raw_command := Some cmd; raw_working_directory := None;
     raw_environment := None; raw_prompt := None; raw_model := None;
     raw_security_profile := None; raw_use_cache := None;
     raw_max_tokens := None; raw_temperature := None; raw_condition := None;
     raw_message := None; raw_on_failure := None; raw_template := None;
     raw_output := None; raw_engine := None; raw_url := None;
     raw_method := None; raw_headers := None; raw_body := None;
     raw_then_steps := None; raw_else_steps := None |}.

Definition sample_workflow (raws : list RawStep)
    (outs : list (string * RawOutput)) : WorkflowData :=
  {| data_name := Some "sample"; data_version := Some "1.0";
     data_description := None; data_author := None; data_tags := None;
     data_environment := None; data_timeout := None; data_retry := None;
     data_cache := None; data_inputs := None; data_outputs := Some outs;
     data_steps := Some raws |}.

Definition parsed_steps (data : WorkflowData) : list WorkflowStep :=
  match mapM _parse_step (get_or (data_steps data) []) with
  | Return ss => ss
  | _ => []
  end.

Definition built_graph (data : WorkflowData) : dict (list string) :=
  match _build_dependency_graph (parsed_steps data) with
  | Return g => g
  | _ => []
  end.

(** Step B depends on step A. *)
Definition scenario_B : WorkflowData :=
  sample_workflow [raw_shell "B" ["A"] "echo b"; raw_shell "A" [] "echo a"] [].

(** Steps A and B depend on each other. *)
Definition scenario_C : WorkflowData :=
  sample_workflow [raw_shell "A" ["B"] "echo a"; raw_shell "B" ["A"] "echo b"] [].

(** Two steps with the id A. *)
Definition scenario_duplicate : WorkflowData :=
  sample_workflow [raw_shell "A" [] "echo 1"; raw_shell "A" [] "echo 2"] [].

(** One step, and an output that refers to a step that does not exist. *)
Definition scenario_unknown_output : WorkflowData :=
  sample_workflow [raw_shell "A" [] "echo a"]
    [("result", {| ro_type := Some "string"; ro_description := None;
                   ro_from := Some "ghost.outputs.value" |})].

(** * A sample platform and sample steps *)

(** No [simpleeval]-free evaluation here: [simple_eval] rejects every
    expression it is given, as the library does for text that is not an
    expression. *)
Definition sample_platform (simpleeval_available : bool) : Platform :=
  {| ENABLE_DETAILED_LOGGING := false;
     SIMPLEEVAL_AVAILABLE := simpleeval_available;
     simple_eval := fun _ _ => inr "invalid syntax";
     isoformat := fun _ => "2024-01-01T00:00:00+00:00";
     create_subprocess_shell := fun _ _ _ => None;
     communicate := fun _ _ _ _ => Exited 0 "" "";
     normpath := fun p => p;
     path_parts := split_char "/";
     path_exists := fun _ => true;
     path_join := fun a b => a ++ "/" ++ b;
     path_dirname := fun p => p;
     commonpath := fun a _ => a;
     gettempdir := "/tmp";
     write_file := fun _ _ => None |}.

Definition sample_security_context (perms : list string) : SecurityContext :=
  {| user_id := "test-user"; permissions := perms;
     sc_security_profile := "restricted"; audit_trail := [];
     resource_limits := [] |}.

Definition sample_state (perms : list string) (c : dict CacheEntry) : EngineState :=
  {| clock := 100;
     security_context := sample_security_context perms;
     step_cache := c; log := []; effects := [];
     result := new_result "" PENDING 0 |}.

Definition sample_context : dict json :=
  [ ("inputs", JDict [("name", JStr "World")]);
    ("workflow", JDict [("name", JStr "sample"); ("version", JStr "1.0")]);
    ("execution_id", JStr "e1");
    ("steps", JDict []) ].

(** An assert step with the given condition and failure policy. *)
Definition sample_assert (cond policy : string) : WorkflowStep :=
  {| step_id := "check"; step_type := "assert"; step_name := None;
     step_description := None; depends_on := []; when := None; timeout := 300;
     retry := []; cache := []; inputs := []; outputs := [];
     command := None; working_directory := None; environment := [];
     prompt := None; model := "claude-3-sonnet-20240229";
     security_profile := "restricted"; use_cache := true; max_tokens := None;
     temperature := "0.0"; condition := Some cond; message := None;
     on_failure := policy; template := None; output := None;
     engine := "jinja2"; url := None; method := "POST"; headers := [];
     body := None; then_steps := []; else_steps := [] |}.

(** A shell step with the given command and inputs. *)
Definition sample_shell (cmd : string) (ins : dict json) : WorkflowStep :=
  {| step_id := "build"; step_type := "shell"; step_name := None;
     step_description := None; depends_on := []; when := None; timeout := 300;
     retry := []; cache := []; inputs := ins; outputs := [];
     command := Some cmd; working_directory := None; environment := [];
     prompt := None; model := "claude-3-sonnet-20240229";
     security_profile := "restricted"; use_cache := true; max_tokens := None;
     temperature := "0.0"; condition := None; message := None;
     on_failure := "fail"; template := None; output := None;
     engine := "jinja2"; url := None; method := "POST"; headers := [];
     body := None; then_steps := []; else_steps := [] |}.

(** A cache that holds outputs for [sample_shell "make" []] in
    [sample_context], stored at time 50 for 3600 seconds. *)
Definition sample_cache : dict CacheEntry :=
  [ (_generate_cache_key (sample_shell "make" []) sample_context,
     {| entry_outputs := [("stdout", JStr "done")]; cached_at := 50; ttl := 3600 |}) ].

(** * More samples *)

(** Step B depends on a step that does not exist. *)
Definition scenario_unknown_dependency : WorkflowData :=
  sample_workflow [raw_shell "A" [] "echo a"; raw_shell "B" ["ghost"] "echo b"] [].

(** A conditional step with the given nested steps. *)
Definition raw_conditional (sid cond : string) (thens elses : list RawStep) : RawStep :=
  {| raw_id := Some sid; raw_type := Some "conditional"; raw_name := None;
     raw_description := None; raw_when := None; raw_timeout := None;
     raw_retry := None; raw_cache := None; raw_inputs := None;
     raw_depends_on := None; raw_outputs := None;
     raw_command := None; raw_working_directory := None;
     raw_environment := None; raw_prompt := None; raw_model := None;
     raw_security_profile := None; raw_use_cache := None;
     raw_max_tokens := None; raw_temperature := None; raw_condition := Some cond;
     raw_message := None; raw_on_failure := None; raw_template := None;
     raw_output := None; raw_engine := None; raw_url := None;
     raw_method := None; raw_headers := None; raw_body := None;
     raw_then_steps := Some thens; raw_else_steps := Some elses |}.

(** A shell step and a conditional step with one nested step. *)
Definition scenario_conditional : WorkflowData :=
  sample_workflow
    [ raw_shell "A" [] "echo a";
      raw_conditional "C" "true" [raw_shell "T" [] "echo t"] [] ] [].

(** A definition that declares one required input. *)
Definition sample_definition : WorkflowDefinition :=
  {| wf_name := "sample"; wf_version := "1.0"; wf_description := None;
     wf_author := None; wf_tags := [];
     wf_inputs :=
       [("target",
         {| input_name := "target"; input_type := Some "string";
            input_description := None; input_required := true;
            input_default := JNull; input_validation := None |})];
     wf_outputs := []; wf_environment := []; wf_timeout := 3600;
     wf_retry := []; wf_cache := []; steps := [];
     step_dependency_graph := []; execution_order := [] |}.

(** A step of a type that the parser accepts and the secure engine does not
    run. *)
Definition sample_webhook : WorkflowStep :=
  {| step_id := "notify"; step_type := "webhook"; step_name := None;
     step_description := None; depends_on := []; when := None; timeout := 300;
     retry := []; cache := []; inputs := []; outputs := [];
     command := None; working_directory := None; environment := [];
     prompt := None; model := "claude-3-sonnet-20240229";
     security_profile := "restricted"; use_cache := true; max_tokens := None;
     temperature := "0.0"; condition := None; message := None;
     on_failure := "fail"; template := None; output := None;
     engine := "jinja2"; url := Some "https://example.org/hook"; method := "POST";
     headers := []; body := None; then_steps := []; else_steps := [] |}.

(** A context in which the input [name] carries a second command. *)
Definition injected_context : dict json :=
  [ ("inputs", JDict [("name", JStr "x; rm -rf /")]);
    ("steps", JDict []) ].

(** A shell step, and a conditional step whose nested step has the id of
    the shell step. *)
Definition scenario_nested_duplicate : WorkflowData :=
  sample_workflow
    [ raw_shell "A" [] "echo a";
      raw_conditional "C" "true" [raw_shell "A" [] "echo again"] [] ] [].

(** * Properties *)

Unset Implicit Arguments.

(** ** Lists, sets and dictionaries *)

Section ListFacts.

Local Open Scope list_scope.

Lemma mem_In (x : string) (l : list string) : mem x l = true <-> In x l.
Proof.
  induction l as [|y l IH]; simpl.
  - split; [discriminate | tauto].
  - rewrite orb_true_iff, IH, String.eqb_eq. split; intros [H|H]; auto.
Qed.

Lemma mem_false_iff (x : string) (l : list string) : mem x l = false <-> ~ In x l.
Proof.
  rewrite <- mem_In. destruct (mem x l); split; intros; congruence.
Qed.

Lemma set_add_In (s : list string) (x y : string) :
  In y (set_add s x) <-> In y s \/ y = x.
Proof.
  unfold set_add. destruct (mem x s) eqn:E.
  - apply mem_In in E. split; [tauto|]. intros [H|H]; subst; auto.
  - rewrite in_app_iff; simpl. intuition.
Qed.

Lemma set_add_NoDup (s : list string) (x : string) :
  NoDup s -> NoDup (set_add s x).
Proof.
  intros H. unfold set_add. destruct (mem x s) eqn:E; auto.
  apply mem_false_iff in E.
  apply NoDup_app; auto.
  - constructor; [simpl; tauto | constructor].
  - intros y Hy [Hx|[]]; subst; auto.
Qed.

Lemma fold_set_add_In (l acc : list string) (y : string) :
  In y (fold_left set_add l acc) <-> In y acc \/ In y l.
Proof.
  revert acc. induction l as [|x l IH]; intros acc; simpl.
  - tauto.
  - rewrite IH, set_add_In. intuition.
Qed.

Lemma fold_set_add_NoDup (l acc : list string) :
  NoDup acc -> NoDup (fold_left set_add l acc).
Proof.
  revert acc. induction l as [|x l IH]; intros acc H; simpl; auto.
  apply IH, set_add_NoDup, H.
Qed.

Lemma set_of_list_In (l : list string) (y : string) :
  In y (set_of_list l) <-> In y l.
Proof. unfold set_of_list. rewrite fold_set_add_In. simpl. tauto. Qed.

Context {V : Type}.
Implicit Types (d : dict V) (k : string) (v : V).

Lemma dict_get_set_same d k v : dict_get (dict_set d k v) k = Some v.
Proof.
  induction d as [|[k' v'] d IH]; simpl.
  - now rewrite String.eqb_refl.
  - destruct (String.eqb k k') eqn:E; simpl; rewrite E; auto.
Qed.

Lemma dict_get_set_other d k k' v :
  k <> k' -> dict_get (dict_set d k v) k' = dict_get d k'.
Proof.
  intros Hne. induction d as [|[k0 v0] d IH]; simpl.
  - destruct (String.eqb k' k) eqn:E; auto.
    apply String.eqb_eq in E. congruence.
  - destruct (String.eqb k k0) eqn:E; simpl.
    + apply String.eqb_eq in E. subst k0.
      destruct (String.eqb k' k) eqn:E'; auto.
      apply String.eqb_eq in E'. congruence.
    + now rewrite IH.
Qed.

Lemma dict_get_Some_In d k v : dict_get d k = Some v -> In (k, v) d.
Proof.
  induction d as [|[k' v'] d IH]; simpl; [discriminate|].
  destruct (String.eqb k k') eqn:E.
  - apply String.eqb_eq in E. intros [= ->]. subst. auto.
  - auto.
Qed.

Lemma dict_get_None_iff d k : dict_get d k = None <-> ~ In k (dict_keys d).
Proof.
  induction d as [|[k' v'] d IH]; simpl.
  - tauto.
  - destruct (String.eqb k k') eqn:E.
    + apply String.eqb_eq in E. subst. split; [discriminate | tauto].
    + apply String.eqb_neq in E. rewrite IH. split.
      * intros H [H'|H']; [congruence | auto].
      * tauto.
Qed.

Lemma dict_get_In_keys d k : In k (dict_keys d) -> exists v, dict_get d k = Some v.
Proof.
  intros H. destruct (dict_get d k) eqn:E; eauto.
  apply dict_get_None_iff in E. contradiction.
Qed.

Lemma dict_get_Some_keys d k v : dict_get d k = Some v -> In k (dict_keys d).
Proof.
  intros H. apply dict_get_Some_In in H.
  apply (in_map fst) in H. exact H.
Qed.

Lemma In_dict_get d k v :
  NoDup (dict_keys d) -> In (k, v) d -> dict_get d k = Some v.
Proof.
  induction d as [|[k' v'] d IH]; simpl; [tauto|].
  intros Hnd [H|H].
  - injection H as -> ->. now rewrite String.eqb_refl.
  - inversion Hnd as [|? ? Hni Hnd']; subst.
    destruct (String.eqb k k') eqn:E.
    + apply String.eqb_eq in E. subst.
      exfalso. apply Hni. apply (in_map fst) in H. exact H.
    + auto.
Qed.

Lemma dict_keys_set_present d k v :
  In k (dict_keys d) -> dict_keys (dict_set d k v) = dict_keys d.
Proof.
  induction d as [|[k' v'] d IH]; simpl; [tauto|].
  intros H. destruct (String.eqb k k') eqn:E; simpl; auto.
  apply String.eqb_neq in E. f_equal. apply IH.
  destruct H; [congruence | auto].
Qed.

Lemma dict_keys_set_absent d k v :
  ~ In k (dict_keys d) -> dict_keys (dict_set d k v) = dict_keys d ++ [k].
Proof.
  induction d as [|[k' v'] d IH]; simpl; auto.
  intros H. destruct (String.eqb k k') eqn:E; simpl.
  - apply String.eqb_eq in E. subst. tauto.
  - f_equal. apply IH. tauto.
Qed.

Lemma dict_keys_set_In d k v x :
  In x (dict_keys (dict_set d k v)) <-> In x (dict_keys d) \/ x = k.
Proof.
  destruct (in_dec string_dec k (dict_keys d)) as [H|H].
  - rewrite dict_keys_set_present by auto. intuition; subst; auto.
  - rewrite dict_keys_set_absent by auto. rewrite in_app_iff. simpl. intuition.
Qed.

Lemma dict_keys_set_NoDup d k v :
  NoDup (dict_keys d) -> NoDup (dict_keys (dict_set d k v)).
Proof.
  intros Hnd. destruct (in_dec string_dec k (dict_keys d)) as [H|H].
  - now rewrite dict_keys_set_present.
  - rewrite dict_keys_set_absent by auto.
    apply NoDup_app; auto.
    + constructor; [simpl; tauto | constructor].
    + intros y Hy [Hx|[]]; subst; auto.
Qed.

Lemma dict_keys_set_length d k v :
  length (dict_set d k v) <= S (length d).
Proof.
  induction d as [|[k' v'] d IH]; simpl; auto.
  destruct (String.eqb k k'); simpl; lia.
Qed.

Lemma dict_set_get_id d k v : dict_get d k = Some v -> dict_set d k v = d.
Proof.
  induction d as [|[k' v'] d IH]; simpl; [discriminate|].
  destruct (String.eqb k k') eqn:E.
  - intros [= ->]. reflexivity.
  - intros H. now rewrite IH.
Qed.

Lemma dict_set_set d k v v' : dict_set (dict_set d k v) k v' = dict_set d k v'.
Proof.
  induction d as [|[k0 v0] d IH]; simpl.
  - now rewrite String.eqb_refl.
  - destruct (String.eqb k k0) eqn:E; simpl; rewrite E; auto.
    now rewrite IH.
Qed.

Lemma filter_keys_NoDup d (f : string * V -> bool) :
  NoDup (dict_keys d) -> NoDup (map fst (filter f d)).
Proof.
  induction d as [|kv d IH]; simpl; intros H; [constructor|].
  inversion H as [|? ? Hni Hnd]; subst.
  destruct (f kv); simpl; auto.
  constructor; auto.
  intros Hin. apply Hni. apply in_map_iff in Hin.
  destruct Hin as (kv' & He & Hf). apply filter_In in Hf.
  apply in_map_iff. exists kv'. tauto.
Qed.

Lemma filter_keys_In d (f : string * V -> bool) k :
  NoDup (dict_keys d) ->
  (In k (map fst (filter f d)) <-> exists v, dict_get d k = Some v /\ f (k, v) = true).
Proof.
  intros Hnd. rewrite in_map_iff. split.
  - intros ([k' v] & He & Hf). simpl in He. subst k'.
    apply filter_In in Hf. destruct Hf as [Hin Hf].
    exists v. split; auto. now apply In_dict_get.
  - intros (v & Hget & Hf). exists (k, v). split; auto.
    apply filter_In. split; auto. now apply dict_get_Some_In.
Qed.

End ListFacts.

(** ** The dependency graph *)

Section GraphFacts.

Local Open Scope list_scope.

Lemma add_dependencies_spec step_ids sid deps acc :
  NoDup acc ->
  (forall x, In x acc -> In x step_ids) ->
  (exists msg, add_dependencies step_ids sid deps acc
               = Raise (WorkflowValidationError msg))
  \/ (exists r, add_dependencies step_ids sid deps acc = Return r
                /\ NoDup r
                /\ (forall x, In x r <-> In x acc \/ In x deps)
                /\ (forall x, In x r -> In x step_ids)).
Proof.
  revert acc. induction deps as [|x deps IH]; intros acc Hnd Hsub; simpl.
  - right. exists acc. intuition.
  - destruct (mem x step_ids) eqn:E; simpl.
    + apply mem_In in E.
      destruct (IH (set_add acc x)) as [Hl|(r & Hr & Hnr & Hin & Hs)].
      * now apply set_add_NoDup.
      * intros y Hy. apply set_add_In in Hy. destruct Hy; subst; auto.
      * now left.
      * right. exists r. repeat split; auto.
        -- intros Hy. apply Hin in Hy. rewrite set_add_In in Hy.
           simpl. intuition (subst; auto).
        -- intros Hy. apply Hin. rewrite set_add_In.
           simpl in Hy. intuition (subst; auto).
    + left. eauto.
Qed.

Lemma build_graph_loop_spec step_ids ss graph :
  wf_graph_on step_ids graph ->
  (forall s, In s ss -> In (step_id s) step_ids) ->
  (exists msg, build_graph_loop step_ids ss graph
               = Raise (WorkflowValidationError msg))
  \/ (exists g, build_graph_loop step_ids ss graph = Return g
                /\ wf_graph_on step_ids g
                /\ (forall k, In k (dict_keys g) <->
                              In k (dict_keys graph) \/ In k (map step_id ss))).
Proof.
  revert graph. induction ss as [|s ss IH]; intros graph Hwf Hids; simpl.
  - right. exists graph. intuition.
  - destruct (add_dependencies_spec step_ids (step_id s) (depends_on s) [])
      as [(msg & ->)|(r & -> & Hnr & Hin & Hs)].
    + constructor.
    + simpl; tauto.
    + left; eauto.
    + destruct (IH (dict_set graph (step_id s) r)) as [Hl|(g & Hg & Hwg & Hk)].
      * destruct Hwf as (Hnd & Hk & Hd). split; [|split].
        -- now apply dict_keys_set_NoDup.
        -- intros k Hkin. apply dict_keys_set_In in Hkin.
           destruct Hkin as [Hkin| ->]; auto. apply Hids; simpl; auto.
        -- intros k deps Hget.
           destruct (string_dec (step_id s) k) as [<-|Hne].
           ++ rewrite dict_get_set_same in Hget. injection Hget as <-. auto.
           ++ rewrite dict_get_set_other in Hget by auto. eauto.
      * intros s' Hs'. apply Hids; simpl; auto.
      * now left.
      * right. exists g. split; [exact Hg | split; [exact Hwg|]].
        intros k. rewrite Hk, dict_keys_set_In. simpl.
        intuition (subst; auto).
Qed.

End GraphFacts.

(** ** Kahn's algorithm *)

Section KahnFacts.

Local Open Scope list_scope.

Lemma mem_app_last x l c : mem x (l ++ [c]) = mem x l || String.eqb x c.
Proof.
  induction l as [|y l IH]; simpl.
  - now rewrite orb_false_r.
  - now rewrite IH, orb_assoc.
Qed.

Lemma pending_nil_iff order deps :
  pending order deps = [] <-> forall x, In x deps -> In x order.
Proof.
  unfold pending. induction deps as [|y deps IH]; simpl.
  - split; [intros _ x [] | reflexivity].
  - destruct (mem y order) eqn:E; simpl.
    + apply mem_In in E. rewrite IH. split.
      * intros H x [<-|Hx]; auto.
      * intros H x Hx. auto.
    + apply mem_false_iff in E. split; [discriminate|].
      intros H. exfalso. apply E, H. auto.
Qed.

Lemma pending_skip order deps c :
  ~ In c deps -> pending (order ++ [c]) deps = pending order deps.
Proof.
  intros Hni. unfold pending. apply filter_ext_in. intros x Hx.
  rewrite mem_app_last.
  destruct (String.eqb x c) eqn:E.
  - apply String.eqb_eq in E. subst. contradiction.
  - now rewrite orb_false_r.
Qed.

Lemma pending_take order deps c :
  NoDup deps -> In c deps -> ~ In c order ->
  length (pending order deps) = S (length (pending (order ++ [c]) deps)).
Proof.
  intros Hnd Hin Hno. induction deps as [|y deps IH]; [destruct Hin|].
  inversion Hnd as [|? ? Hny Hnd']; subst.
  destruct (string_dec y c) as [->|Hne].
  - change (pending ?o (c :: deps)) with
      (filter (fun x => negb (mem x o)) (c :: deps)).
    simpl. rewrite mem_app_last, String.eqb_refl, orb_true_r. simpl.
    apply mem_false_iff in Hno. rewrite Hno. simpl.
    f_equal. f_equal. symmetry. now apply pending_skip.
  - destruct Hin as [Hin|Hin]; [contradiction|].
    specialize (IH Hnd' Hin).
    unfold pending in *. simpl. rewrite mem_app_last.
    assert (E : String.eqb y c = false) by now apply String.eqb_neq.
    rewrite E, orb_false_r.
    destruct (mem y order); simpl; auto.
Qed.

Lemma pending_mono order deps c :
  pending order deps = [] -> pending (order ++ [c]) deps = [].
Proof.
  rewrite !pending_nil_iff. intros H x Hx. apply in_or_app. auto.
Qed.

Lemma index_of_app_in x l c : In x l -> index_of x (l ++ [c]) = index_of x l.
Proof.
  induction l as [|y l IH]; simpl; [tauto|].
  intros H. destruct (String.eqb x y) eqn:E; auto.
  apply String.eqb_neq in E. f_equal. apply IH.
  destruct H; [congruence | auto].
Qed.

Lemma index_of_lt x l : In x l -> index_of x l < length l.
Proof.
  induction l as [|y l IH]; simpl; [tauto|].
  intros H. destruct (String.eqb x y) eqn:E; [lia|].
  apply String.eqb_neq in E. destruct H; [congruence|].
  apply IH in H. lia.
Qed.

Lemma index_of_last l c : ~ In c l -> index_of c (l ++ [c]) = length l.
Proof.
  induction l as [|y l IH]; simpl; intros H.
  - now rewrite String.eqb_refl.
  - destruct (String.eqb c y) eqn:E.
    + apply String.eqb_eq in E. subst. tauto.
    + f_equal. apply IH. tauto.
Qed.

Lemma in_degree_init_get ks acc k :
  dict_get (fold_left (fun d k => dict_set d k 0%Z) ks acc) k
  = if mem k ks then Some 0%Z else dict_get acc k.
Proof.
  revert acc. induction ks as [|x ks IH]; intros acc; simpl; auto.
  rewrite IH. destruct (mem k ks); [now rewrite orb_true_r|].
  rewrite orb_false_r. destruct (String.eqb k x) eqn:E.
  - apply String.eqb_eq in E. subst. apply dict_get_set_same.
  - apply String.eqb_neq in E. apply dict_get_set_other. congruence.
Qed.

Lemma in_degree_init_keys ks acc :
  NoDup (dict_keys acc ++ ks) ->
  dict_keys (fold_left (fun d k => dict_set d k 0%Z) ks acc) = dict_keys acc ++ ks.
Proof.
  revert acc. induction ks as [|x ks IH]; intros acc H; simpl.
  - now rewrite app_nil_r.
  - assert (Hx : ~ In x (dict_keys acc)).
    { apply NoDup_remove_2 in H. intros Hin. apply H. apply in_or_app. auto. }
    rewrite IH; rewrite dict_keys_set_absent by auto.
    + now rewrite <- app_assoc.
    + now rewrite <- app_assoc.
Qed.

Lemma touch_id d x : In x (dict_keys d) -> touch d x = d.
Proof.
  intros H. destruct (dict_get_In_keys d x H) as [v Hv].
  unfold touch, dict_get_default. rewrite Hv. now apply dict_set_get_id.
Qed.

Lemma fold_touch_id deps d :
  (forall x, In x deps -> In x (dict_keys d)) -> fold_left touch deps d = d.
Proof.
  induction deps as [|x deps IH]; simpl; intros H; auto.
  rewrite touch_id by auto. auto.
Qed.

Lemma count_dependencies_spec sid deps d v :
  dict_get d sid = Some v ->
  count_dependencies sid deps d
  = Return (dict_set d sid (v + Z.of_nat (length deps))%Z).
Proof.
  revert d v. induction deps as [|x deps IH]; intros d v Hv.
  - simpl. rewrite Z.add_0_r. now rewrite dict_set_get_id.
  - cbn [count_dependencies]. unfold add_to. rewrite Hv.
    rewrite (IH _ (v + 1)%Z) by apply dict_get_set_same.
    rewrite dict_set_set. do 2 f_equal.
    cbn [length]. lia.
Qed.

Lemma in_degrees_spec items d :
  NoDup (dict_keys items) ->
  (forall k deps, In (k, deps) items ->
     In k (dict_keys d) /\ forall x, In x deps -> In x (dict_keys d)) ->
  exists d', in_degrees items d = Return d'
    /\ dict_keys d' = dict_keys d
    /\ forall k, dict_get d' k =
         match dict_get items k with
         | Some deps =>
             option_map (fun v => (v + Z.of_nat (length deps))%Z) (dict_get d k)
         | None => dict_get d k
         end.
Proof.
  revert d. induction items as [|[sid deps] items IH]; intros d Hnd Hc.
  - exists d. simpl. auto.
  - cbn [in_degrees]. inversion Hnd as [|? ? Hni Hnd']; subst.
    destruct (Hc sid deps (or_introl eq_refl)) as [Hsid Hdeps].
    rewrite fold_touch_id by auto.
    destruct (dict_get_In_keys d sid Hsid) as [v Hv].
    rewrite (count_dependencies_spec sid deps d v Hv).
    set (d1 := dict_set d sid (v + Z.of_nat (length deps))%Z).
    assert (Hk1 : dict_keys d1 = dict_keys d)
      by (apply dict_keys_set_present; auto).
    destruct (IH d1 Hnd') as (d' & Hd' & Hk' & Hg').
    { intros k deps' Hin. rewrite Hk1. apply Hc. now right. }
    exists d'. split; [exact Hd' | split; [congruence|]].
    intros k. rewrite Hg'. cbn [dict_get].
    destruct (String.eqb k sid) eqn:E.
    + apply String.eqb_eq in E. subst k.
      assert (Hn : dict_get items sid = None) by now apply dict_get_None_iff.
      rewrite Hn. unfold d1. rewrite dict_get_set_same, Hv. reflexivity.
    + apply String.eqb_neq in E. unfold d1.
      rewrite dict_get_set_other by congruence. reflexivity.
Qed.

End KahnFacts.

Section KahnLoop.

Local Open Scope list_scope.

Lemma remove_edges_spec current items d q :
  NoDup (dict_keys items) ->
  (forall k, In k (dict_keys items) -> In k (dict_keys d)) ->
  exists d',
    remove_edges current items d q
    = Return (d', q ++ map fst (filter (newly current d) items))
    /\ dict_keys d' = dict_keys d
    /\ forall k, dict_get d' k =
         match dict_get items k with
         | Some deps =>
             if mem current deps
             then option_map (fun v => (v - 1)%Z) (dict_get d k)
             else dict_get d k
         | None => dict_get d k
         end.
Proof.
  revert d q. induction items as [|[sid deps] items IH]; intros d q Hnd Hk.
  - exists d. simpl. rewrite app_nil_r. auto.
  - inversion Hnd as [|? ? Hni Hnd']; subst.
    cbn [remove_edges filter].
    assert (Hother : forall d1,
               (forall k, k <> sid -> dict_get d1 k = dict_get d k) ->
               filter (newly current d1) items = filter (newly current d) items).
    { intros d1 H1. apply filter_ext_in. intros [k deps'] Hin.
      unfold newly, dict_get_default. simpl. rewrite H1; auto.
      intros ->. apply Hni. apply (in_map fst) in Hin. exact Hin. }
    unfold newly at 1. cbn [fst snd].
    destruct (mem current deps) eqn:Em; cbn [andb].
    + destruct (dict_get_In_keys d sid) as [v Hv]; [apply Hk; simpl; auto|].
      unfold add_to. rewrite Hv.
      set (d1 := dict_set d sid (v + -1)%Z).
      assert (Hk1 : dict_keys d1 = dict_keys d).
      { apply dict_keys_set_present. apply Hk. simpl; auto. }
      assert (H1 : forall k, k <> sid -> dict_get d1 k = dict_get d k).
      { intros k Hne. apply dict_get_set_other. congruence. }
      unfold dict_get_default at 1 2. unfold d1 at 1.
      rewrite dict_get_set_same, Hv.
      change (v + -1)%Z with (v - 1)%Z.
      assert (Hlook : forall d', (forall k, dict_get d' k =
                   match dict_get items k with
                   | Some deps0 =>
                       if mem current deps0
                       then option_map (fun v0 => (v0 - 1)%Z) (dict_get d1 k)
                       else dict_get d1 k
                   | None => dict_get d1 k
                   end) ->
                 forall k, dict_get d' k =
                   match dict_get ((sid, deps) :: items) k with
                   | Some deps0 =>
                       if mem current deps0
                       then option_map (fun v0 => (v0 - 1)%Z) (dict_get d k)
                       else dict_get d k
                   | None => dict_get d k
                   end).
      { intros d' Hg k. rewrite Hg. cbn [dict_get].
        destruct (String.eqb k sid) eqn:E.
        - apply String.eqb_eq in E. subst k.
          assert (Hn : dict_get items sid = None) by now apply dict_get_None_iff.
          rewrite Hn, Em, Hv. unfold d1. now rewrite dict_get_set_same.
        - apply String.eqb_neq in E. now rewrite H1. }
      destruct (v - 1 =? 0)%Z.
      * destruct (IH d1 (q ++ [sid]) Hnd') as (d' & Hd' & Hk' & Hg').
        { intros k Hin. rewrite Hk1. apply Hk. simpl; auto. }
        exists d'. rewrite Hd', (Hother d1 H1), <- app_assoc. simpl.
        split; [reflexivity | split; [congruence | auto]].
      * destruct (IH d1 q Hnd') as (d' & Hd' & Hk' & Hg').
        { intros k Hin. rewrite Hk1. apply Hk. simpl; auto. }
        exists d'. rewrite Hd', (Hother d1 H1).
        split; [reflexivity | split; [congruence | auto]].
    + destruct (IH d q Hnd') as (d' & Hd' & Hk' & Hg').
      { intros k Hin. apply Hk. simpl; auto. }
      exists d'. split; [exact Hd' | split; [exact Hk'|]].
      intros k. rewrite Hg'. cbn [dict_get].
      destruct (String.eqb k sid) eqn:E; auto.
      apply String.eqb_eq in E. subst k.
      assert (Hn : dict_get items sid = None) by now apply dict_get_None_iff.
      now rewrite Hn, Em.
Qed.

Variable graph : dict (list string).
Hypothesis Hwf : wf_graph graph.

Lemma graph_key_of_get k deps :
  dict_get graph k = Some deps -> In k (dict_keys graph).
Proof. apply dict_get_Some_keys. Qed.

Lemma kahn_inv_keys d queue order k :
  kahn_inv graph d queue order -> In k (order ++ queue) -> In k (dict_keys graph).
Proof.
  intros Hinv Hin. apply (inv_ready Hinv) in Hin.
  destruct Hin as (deps & Hg & _). eapply graph_key_of_get; eauto.
Qed.

Lemma kahn_inv_step d current queue order :
  kahn_inv graph d (current :: queue) order ->
  exists d' queue',
    remove_edges current graph d queue = Return (d', queue')
    /\ kahn_inv graph d' queue' (order ++ [current]).
Proof.
  intros Hinv. destruct Hwf as [Hnd Hdeps].
  destruct (remove_edges_spec current graph d queue Hnd) as (d' & Hrun & Hk' & Hg').
  { intros k Hin. destruct (dict_get_In_keys graph k Hin) as [deps Hg].
    eapply dict_get_Some_keys. apply (inv_degree Hinv _ _ Hg). }
  exists d', (queue ++ map fst (filter (newly current d) graph)).
  split; [exact Hrun|].
  assert (Hcur : ~ In current order).
  { pose proof (inv_nodup Hinv) as H. apply NoDup_remove_2 in H.
    intros Hin. apply H. apply in_or_app. auto. }
  assert (Hnew : forall k, In k (map fst (filter (newly current d) graph)) <->
            exists deps, dict_get graph k = Some deps /\ In current deps
                         /\ length (pending order deps) = 1).
  { intros k. rewrite (filter_keys_In graph (newly current d) k Hnd).
    split.
    - intros (deps & Hg & Hf). exists deps. split; auto.
      unfold newly in Hf. cbn [fst snd] in Hf.
      apply andb_true_iff in Hf. destruct Hf as [Hm Hz].
      apply mem_In in Hm. split; auto.
      unfold dict_get_default in Hz. rewrite (inv_degree Hinv _ _ Hg) in Hz.
      apply Z.eqb_eq in Hz. lia.
    - intros (deps & Hg & Hc & Hl). exists deps. split; auto.
      unfold newly. cbn [fst snd]. apply andb_true_iff. split.
      + now apply mem_In.
      + unfold dict_get_default. rewrite (inv_degree Hinv _ _ Hg), Hl.
        reflexivity. }
  assert (Hshape : (order ++ [current])
                     ++ queue ++ map fst (filter (newly current d) graph)
                   = (order ++ current :: queue)
                     ++ map fst (filter (newly current d) graph)).
  { rewrite <- !app_assoc. reflexivity. }
  constructor.
  - (* in-degrees *)
    intros k deps Hg. rewrite Hg', Hg, (inv_degree Hinv _ _ Hg).
    destruct (Hdeps k deps Hg) as [Hndd _].
    destruct (mem current deps) eqn:Em.
    + apply mem_In in Em.
      rewrite (pending_take order deps current Hndd Em Hcur).
      cbn [option_map]. f_equal. lia.
    + apply mem_false_iff in Em. now rewrite pending_skip.
  - (* no repetition *)
    rewrite Hshape. apply NoDup_app.
    + exact (inv_nodup Hinv).
    + now apply filter_keys_NoDup.
    + intros k Hold Hn. apply Hnew in Hn. destruct Hn as (deps & Hg & _ & Hl).
      apply (inv_ready Hinv) in Hold. destruct Hold as (deps' & Hg2 & Hp).
      rewrite Hg in Hg2. injection Hg2 as <-. rewrite Hp in Hl. discriminate.
  - (* the queue holds the steps whose dependencies are all done *)
    intros k. rewrite Hshape, in_app_iff, Hnew, (inv_ready Hinv). split.
    + intros [(deps & Hg & Hp)|(deps & Hg & Hc & Hl)]; exists deps; split; auto.
      * now apply pending_mono.
      * destruct (Hdeps k deps Hg) as [Hndd _].
        rewrite (pending_take order deps current Hndd Hc Hcur) in Hl.
        apply length_zero_iff_nil. lia.
    + intros (deps & Hg & Hp).
      destruct (pending order deps) as [|y rest] eqn:Ep.
      * left. exists deps. auto.
      * right. exists deps. split; auto.
        destruct (Hdeps k deps Hg) as [Hndd _].
        destruct (mem current deps) eqn:Em.
        -- apply mem_In in Em. split; auto.
           rewrite (pending_take order deps current Hndd Em Hcur), Hp.
           reflexivity.
        -- apply mem_false_iff in Em.
           rewrite pending_skip in Hp by auto. congruence.
  - (* the order is sorted *)
    intros k deps x Hk Hg Hx. apply in_app_or in Hk.
    destruct Hk as [Hk|[<-|[]]].
    + destruct (inv_sorted Hinv k deps x Hk Hg Hx) as [Hxo Hlt].
      split; [apply in_or_app; auto|].
      now rewrite !index_of_app_in.
    + assert (Hin : In current (order ++ current :: queue))
        by (apply in_or_app; simpl; auto).
      apply (inv_ready Hinv) in Hin. destruct Hin as (deps' & Hg2 & Hp).
      rewrite Hg in Hg2. injection Hg2 as <-.
      assert (Hxo : In x order) by (eapply pending_nil_iff; eauto).
      split; [apply in_or_app; auto|].
      rewrite index_of_app_in, index_of_last by auto.
      now apply index_of_lt.
Qed.

Lemma kahn_loop_spec fuel : forall d queue order,
  kahn_inv graph d queue order ->
  length graph < fuel + length order ->
  exists final d',
    kahn_loop fuel graph d queue order = Return final
    /\ kahn_inv graph d' [] final.
Proof.
  induction fuel as [|fuel IH]; intros d queue order Hinv Hfuel.
  - destruct queue as [|current queue].
    + exists order, d. auto.
    + exfalso.
      assert (Hle : length (order ++ current :: queue) <= length (dict_keys graph)).
      { apply NoDup_incl_length; [exact (inv_nodup Hinv)|].
        intros k Hk. eapply kahn_inv_keys; eauto. }
      unfold dict_keys in Hle. rewrite length_app, length_map in Hle.
      simpl in *. lia.
  - destruct queue as [|current queue].
    + exists order, d. auto.
    + destruct (kahn_inv_step d current queue order Hinv)
        as (d' & queue' & Hrun & Hinv').
      cbn [kahn_loop]. rewrite Hrun. apply (IH d' queue' _ Hinv').
      rewrite length_app. simpl. lia.
Qed.

Lemma kahn_init :
  exists d, in_degrees graph (in_degree_init graph) = Return d
            /\ kahn_inv graph d (zero_in_degree d) [].
Proof.
  destruct Hwf as [Hnd Hdeps].
  assert (Hik : dict_keys (in_degree_init graph) = dict_keys graph).
  { unfold in_degree_init. rewrite in_degree_init_keys; auto. }
  destruct (in_degrees_spec graph (in_degree_init graph) Hnd) as (d & Hrun & Hk & Hg).
  { intros k deps Hin. rewrite Hik.
    pose proof (In_dict_get graph k deps Hnd Hin) as Hget.
    split; [eapply dict_get_Some_keys; eauto | apply (Hdeps k deps Hget)]. }
  assert (Hdeg : forall k deps, dict_get graph k = Some deps ->
            dict_get d k = Some (Z.of_nat (length deps))).
  { intros k deps Hget. rewrite Hg, Hget.
    unfold in_degree_init. rewrite in_degree_init_get.
    apply dict_get_Some_keys in Hget. apply mem_In in Hget. rewrite Hget.
    reflexivity. }
  assert (Hp : forall deps, pending [] deps = deps).
  { intros deps. unfold pending.
    induction deps as [|a deps IHd]; cbn [filter mem negb];
      [reflexivity | f_equal; exact IHd]. }
  assert (Hndk : NoDup (dict_keys d)) by now rewrite Hk, Hik.
  exists d. split; [exact Hrun|]. constructor.
  - intros k deps Hget. rewrite Hp. auto.
  - simpl. unfold zero_in_degree. now apply filter_keys_NoDup.
  - intros k. simpl. unfold zero_in_degree.
    rewrite (filter_keys_In d _ k Hndk). cbn [snd]. split.
    + intros (v & Hv & Hz). apply Z.eqb_eq in Hz. subst v.
      destruct (dict_get_In_keys graph k) as [deps Hget].
      { rewrite <- Hik, <- Hk. eapply dict_get_Some_keys; eauto. }
      exists deps. split; auto. rewrite Hp.
      rewrite (Hdeg _ _ Hget) in Hv. injection Hv as Hv.
      apply length_zero_iff_nil. lia.
    + intros (deps & Hget & Hnil). rewrite Hp in Hnil. subst deps.
      exists 0%Z. split; auto. apply (Hdeg _ _ Hget).
  - intros k deps x [].
Qed.

(** Kahn's loop ends within its fuel, and what it returns satisfies the
    invariant with an empty queue. *)
Lemma kahn_spec :
  exists order d, kahn graph = Return order /\ kahn_inv graph d [] order.
Proof.
  destruct kahn_init as (d & Hrun & Hinv).
  destruct (kahn_loop_spec (S (length graph)) d (zero_in_degree d) [] Hinv)
    as (final & d' & Hloop & Hfinal); [simpl; lia|].
  exists final, d'. unfold kahn. rewrite Hrun. auto.
Qed.

End KahnLoop.

(** ** The graph that [_build_dependency_graph] returns *)

Section BuildFacts.

Local Open Scope list_scope.

Lemma build_dependency_graph_spec ss :
  (exists msg, _build_dependency_graph ss = Raise (WorkflowValidationError msg))
  \/ (exists g, _build_dependency_graph ss = Return g
                /\ wf_graph g
                /\ forall k, In k (dict_keys g) <-> In k (map step_id ss)).
Proof.
  unfold _build_dependency_graph.
  destruct (build_graph_loop_spec (set_of_list (map step_id ss)) ss [])
    as [Hl|(g & Hg & (Hnd & Hks & Hds) & Hk)].
  - split; [constructor | split; [intros k [] | intros k deps; discriminate]].
  - intros s Hs. apply set_of_list_In. now apply in_map.
  - now left.
  - right. exists g. split; [exact Hg|].
    assert (Hkeys : forall k, In k (dict_keys g) <-> In k (map step_id ss)).
    { intros k. rewrite Hk. simpl. tauto. }
    split; [|exact Hkeys]. split; [exact Hnd|].
    intros k deps Hget. destruct (Hds k deps Hget) as [Hn Hin].
    split; [exact Hn|]. intros x Hx. apply Hkeys.
    apply set_of_list_In. auto.
Qed.

Lemma build_graph_loop_lookup step_ids : forall ss graph g,
  build_graph_loop step_ids ss graph = Return g ->
  NoDup (map step_id ss) ->
  (forall s, In s ss ->
     exists deps, dict_get g (step_id s) = Some deps
                  /\ forall x, In x deps <-> In x (depends_on s))
  /\ (forall k, ~ In k (map step_id ss) -> dict_get g k = dict_get graph k).
Proof.
  induction ss as [|s ss IH]; intros graph g Hrun Hnd.
  - simpl in Hrun. injection Hrun as <-. split; [intros s []| auto].
  - cbn [build_graph_loop] in Hrun.
    inversion Hnd as [|? ? Hni Hnd']; subst.
    destruct (add_dependencies_spec step_ids (step_id s) (depends_on s) [])
      as [(msg & Hr)|(r & Hr & _ & Hin & _)].
    + constructor.
    + intros x [].
    + rewrite Hr in Hrun. discriminate.
    + rewrite Hr in Hrun.
      destruct (IH _ _ Hrun Hnd') as [Hin' Hout].
      split.
      * intros s' [<-|Hs']; auto.
        exists r. rewrite (Hout _ Hni), dict_get_set_same.
        split; auto. intros x. rewrite Hin. simpl. tauto.
      * intros k Hk. simpl in Hk. rewrite Hout by tauto.
        apply dict_get_set_other. tauto.
Qed.

Lemma build_dependency_graph_lookup ss g :
  _build_dependency_graph ss = Return g ->
  NoDup (map step_id ss) ->
  forall s, In s ss ->
    exists deps, dict_get g (step_id s) = Some deps
                 /\ forall x, In x deps <-> In x (depends_on s).
Proof.
  intros Hrun Hnd.
  apply (build_graph_loop_lookup _ _ _ _ Hrun Hnd).
Qed.

End BuildFacts.

(** ** Cycles *)

Section Cycles.

Local Open Scope list_scope.

Lemma clos_trans_sub (R R' : string -> string -> Prop) :
  (forall a b, R' a b -> clos_trans string R a b) ->
  forall a b, clos_trans string R' a b -> clos_trans string R a b.
Proof.
  intros Hsub a b H. induction H as [a b H|a b c _ IH1 _ IH2].
  - auto.
  - eapply t_trans; eauto.
Qed.

(** In a non-empty finite set in which every element has a successor, some
    element reaches itself. *)
Lemma closed_set_cycle : forall (n : nat) (l : list string)
    (R : string -> string -> Prop),
  length l <= n ->
  l <> [] ->
  (forall x, In x l -> exists y, In y l /\ R x y) ->
  exists x, clos_trans string R x x.
Proof.
  induction n as [|n IH]; intros l R Hlen Hne Hsucc.
  - destruct l; [congruence | simpl in Hlen; lia].
  - destruct l as [|x l0]; [congruence|].
    destruct (Hsucc x (or_introl eq_refl)) as (y & Hy & Hxy).
    destruct (string_dec y x) as [->|Hyx].
    { exists x. now apply t_step. }
    set (l' := filter (fun z => negb (String.eqb z x)) l0).
    assert (Hl' : forall z, In z l' <-> In z (x :: l0) /\ z <> x).
    { intros z. unfold l'. rewrite filter_In, negb_true_iff, String.eqb_neq.
      simpl. intuition congruence. }
    set (R' := fun a b => R a b \/ (R a x /\ R x b)).
    destruct (IH l' R') as (z & Hz).
    + unfold l'. pose proof (filter_length_le (fun z => negb (String.eqb z x)) l0).
      simpl in Hlen. lia.
    + intros E. assert (Hin : In y l') by (apply Hl'; auto).
      rewrite E in Hin. destruct Hin.
    + intros a Ha. apply Hl' in Ha. destruct Ha as [Ha Hax].
      destruct (Hsucc a Ha) as (b & Hb & Hab).
      destruct (string_dec b x) as [->|Hbx].
      * exists y. split; [apply Hl'; auto | right; auto].
      * exists b. split; [apply Hl'; auto | left; auto].
    + exists z. revert Hz. apply clos_trans_sub.
      intros a b [H|[H1 H2]].
      * now apply t_step.
      * eapply t_trans; apply t_step; eauto.
Qed.

Variable graph : dict (list string).
Hypothesis Hwf : wf_graph graph.
Variable d : dict Z.
Variable order : list string.
Hypothesis Hinv : kahn_inv graph d [] order.

Lemma kahn_order_NoDup : NoDup order.
Proof. pose proof (inv_nodup Hinv) as H. now rewrite app_nil_r in H. Qed.

Lemma kahn_order_ready k :
  In k order <->
  exists deps, dict_get graph k = Some deps /\ forall x, In x deps -> In x order.
Proof.
  pose proof (inv_ready Hinv k) as H. rewrite app_nil_r in H.
  rewrite H. split; intros (deps & Hg & Hp); exists deps; split; auto;
    now apply pending_nil_iff.
Qed.

Lemma kahn_order_keys : incl order (dict_keys graph).
Proof.
  intros k Hk. apply kahn_order_ready in Hk. destruct Hk as (deps & Hg & _).
  eapply dict_get_Some_keys; eauto.
Qed.

Lemma kahn_order_edge a b :
  In a order -> edge graph a b -> In b order /\ index_of b order < index_of a order.
Proof.
  intros Ha (deps & Hg & Hb). exact (inv_sorted Hinv a deps b Ha Hg Hb).
Qed.

Lemma kahn_order_path a b :
  clos_trans string (edge graph) a b ->
  In a order -> In b order /\ index_of b order < index_of a order.
Proof.
  intros H. induction H as [a b H|a b c _ IH1 _ IH2]; intros Ha.
  - now apply kahn_order_edge.
  - destruct (IH1 Ha) as [Hb Hlt1]. destruct (IH2 Hb) as [Hc Hlt2].
    split; [exact Hc | lia].
Qed.

(** Without a cycle every step is ordered. *)
Lemma kahn_order_complete :
  acyclic graph -> incl (dict_keys graph) order.
Proof.
  intros Hac.
  set (rest := filter (fun k => negb (mem k order)) (dict_keys graph)).
  assert (Hrest : forall k, In k rest <-> In k (dict_keys graph) /\ ~ In k order).
  { intros k. unfold rest. rewrite filter_In, negb_true_iff, mem_false_iff. tauto. }
  destruct rest as [|k0 rest0] eqn:E.
  - intros k Hk. destruct (in_dec string_dec k order) as [H|H]; auto.
    exfalso. apply (proj2 (Hrest k)). auto.
  - exfalso.
    destruct (closed_set_cycle (length rest) rest (edge graph)) as (x & Hx).
    + lia.
    + rewrite E. discriminate.
    + intros k Hk. rewrite E in Hk. apply Hrest in Hk. destruct Hk as [Hk Hno].
      destruct (dict_get_In_keys graph k Hk) as [deps Hg].
      destruct (pending order deps) as [|y p] eqn:Ep.
      * exfalso. apply Hno. apply kahn_order_ready. exists deps.
        split; auto. now apply pending_nil_iff.
      * assert (Hy : In y (pending order deps)) by (rewrite Ep; simpl; auto).
        unfold pending in Hy. apply filter_In in Hy. destruct Hy as [Hyd Hyo].
        apply negb_true_iff, mem_false_iff in Hyo.
        exists y. split; [|exists deps; auto].
        rewrite E. apply Hrest. split; auto.
        destruct Hwf as [_ Hdeps]. apply (Hdeps k deps Hg). exact Hyd.
    + exact (Hac x Hx).
Qed.

(** With a cycle some step is left out. *)
Lemma kahn_order_cyclic :
  cyclic graph -> ~ incl (dict_keys graph) order.
Proof.
  intros (x & Hx) Hall.
  assert (Hkey : In x (dict_keys graph)).
  { clear Hall. remember x as y eqn:Ey in Hx at 2. clear Ey.
    induction Hx as [a b (deps & Hg & _)|a b c _ IH1 _ _]; auto.
    eapply dict_get_Some_keys; eauto. }
  destruct (kahn_order_path x x Hx (Hall x Hkey)) as [_ Hlt]. lia.
Qed.

End Cycles.

(** ** [_parse_step] and [parse_workflow_data] *)

Section ParseFacts.

Local Open Scope list_scope.

(** Induction on a step and the steps nested in it. *)
Lemma RawStep_nested_ind (P : RawStep -> Prop)
    (H : forall r,
        (forall l, raw_then_steps r = Some l -> Forall P l) ->
        (forall l, raw_else_steps r = Some l -> Forall P l) -> P r) :
  forall r, P r.
Proof.
  fix rec 1. intros r.
  apply H; destruct r as [? ? ? ? ? ? ? ? ? ? ? ? ? ? ? ? ? ? ? ? ? ? ? ? ? ? ? ? ? ? thens elses];
    cbn [raw_then_steps raw_else_steps]; intros l E.
  - destruct thens as [thens|]; [|discriminate].
    replace l with thens by congruence. clear E l.
    induction thens as [|x thens IH]; constructor; [apply rec | exact IH].
  - destruct elses as [elses|]; [|discriminate].
    replace l with elses by congruence. clear E l.
    induction elses as [|x elses IH]; constructor; [apply rec | exact IH].
Qed.

Lemma mapM_validated {A B : Type} (f : A -> outcome B) (l : list A) :
  Forall (fun x => validated (f x)) l -> validated (mapM f l).
Proof.
  induction 1 as [|x l Hx _ IH]; simpl.
  - left; eauto.
  - destruct Hx as [(y & ->)|(msg & ->)]; [|right; eauto].
    destruct IH as [(ys & ->)|(msg & ->)]; [left | right]; eauto.
Qed.

Lemma parse_step_validated r : validated (_parse_step r).
Proof.
  induction r as [r Hthen Helse] using RawStep_nested_ind.
  destruct r as [rid rty ? ? ? ? ? ? ? ? ? ? ? ? ? ? ? ? ? ? ? ? ? ? ? ? ? ? ? ? thens elses].
  cbn [raw_then_steps raw_else_steps] in Hthen, Helse.
  cbn -[String.eqb base_step set_shell set_claude_code set_assert set_template
        set_webhook set_conditional].
  repeat match goal with
         | |- validated (if ?c then _ else _) => destruct c
         | |- validated (Return _) => left; eauto
         | |- validated (Raise (WorkflowValidationError _)) => right; eauto
         end.
  match goal with
  | |- context [match thens with Some l => ?f l | None => _ end] =>
      assert (Hall : forall l, Forall (fun x => validated (_parse_step x)) l ->
                               validated (f l))
  end.
  { induction 1 as [|x l Hx _ IH].
    - left; eauto.
    - destruct Hx as [(y & ->)|(msg & ->)]; [|right; eauto].
      destruct IH as [(ys & ->)|(msg & ->)]; [left | right]; eauto. }
  assert (Hnil : validated (Return (@nil WorkflowStep))) by (left; eauto).
  destruct thens as [thens|];
    [destruct (Hall thens (Hthen _ eq_refl)) as [(ts & ->)|(msg & ->)]
    | ]; try (right; eauto; fail);
  (destruct elses as [elses|];
    [destruct (Hall elses (Helse _ eq_refl)) as [(es & ->)|(msg & ->)]
    | ]; try (right; eauto; fail); left; eauto).
Qed.

Lemma parse_step_id r s :
  _parse_step r = Return s -> step_id s = get_or (raw_id r) "".
Proof.
  destruct r as [rid rty ? ? ? ? ? ? ? ? ? ? ? ? ? ? ? ? ? ? ? ? ? ? ? ? ? ? ? ? thens elses].
  cbn -[String.eqb base_step set_shell set_claude_code set_assert set_template
        set_webhook set_conditional].
  repeat match goal with
         | |- (if ?c then _ else _) = _ -> _ => destruct c
         | |- Raise _ = Return _ -> _ => discriminate
         | |- Return _ = Return _ -> _ => intros [= <-]; reflexivity
         end.
  repeat match goal with
         | |- match ?m with _ => _ end = _ -> _ => destruct m
         end;
    try discriminate; intros [= <-]; reflexivity.
Qed.

Lemma mapM_parse_step_ids raws ss :
  mapM _parse_step raws = Return ss ->
  map step_id ss = map (fun r => get_or (raw_id r) "") raws.
Proof.
  revert ss. induction raws as [|r raws IH]; intros ss; simpl.
  - intros [= <-]. reflexivity.
  - destruct (_parse_step r) as [s| |] eqn:Er; try discriminate.
    destruct (mapM _parse_step raws) as [ss'| |]; try discriminate.
    intros [= <-]. simpl. f_equal; auto. now apply parse_step_id.
Qed.

(** [_compute_execution_order] on a graph that was built: the order of Kahn's
    algorithm, accepted exactly when it has one entry for each step. *)
Lemma compute_execution_order_spec ss graph :
  wf_graph graph ->
  exists order d,
    kahn_inv graph d [] order
    /\ _compute_execution_order ss graph
       = if (length order =? length ss)%nat then Return order
         else Raise (WorkflowValidationError
                       "Circular dependency detected in workflow steps").
Proof.
  intros Hwf. destruct (kahn_spec graph Hwf) as (order & d & Hk & Hinv).
  exists order, d. split; auto.
  unfold _compute_execution_order. rewrite Hk.
  now destruct (length order =? length ss)%nat.
Qed.

Lemma parse_workflow_data_reaches schema data ss graph :
  reaches_ordering schema data ss graph ->
  parse_workflow_data schema data
  = match _compute_execution_order ss graph with
    | Return order =>
        Return
          {| wf_name := get_or (data_name data) "";
             wf_version := get_or (data_version data) "";
             wf_description := data_description data;
             wf_author := data_author data;
             wf_tags := get_or (data_tags data) [];
             wf_inputs := parse_inputs (get_or (data_inputs data) []);
             wf_outputs := parse_outputs (get_or (data_outputs data) []);
             wf_environment := get_or (data_environment data) [];
             wf_timeout := get_or (data_timeout data) 3600%Z;
             wf_retry := get_or (data_retry data) [];
             wf_cache := get_or (data_cache data) [];
             steps := ss;
             step_dependency_graph := graph;
             execution_order := order |}
    | Raise e => Raise e
    | OutOfFuel => OutOfFuel
    end.
Proof.
  intros (Hs & Hn & Hv & Hne & Hp & Hb).
  unfold parse_workflow_data. rewrite Hs, Hn, Hv. cbn [negb].
  destruct (get_or (data_steps data) []) as [|r raws] eqn:E; [congruence|].
  rewrite Hp. cbn [bind]. rewrite Hb. cbn [bind].
  destruct (_compute_execution_order ss graph); reflexivity.
Qed.

(** Parsing returns a definition or raises [WorkflowValidationError]: no
    other exception, and the loop never runs out of fuel. *)
Lemma parse_workflow_data_validated schema data :
  validated (parse_workflow_data schema data).
Proof.
  unfold parse_workflow_data.
  destruct (match schema with Some v => v data | None => None end);
    [right; eexists; reflexivity|].
  destruct (negb (truthy_str (data_name data))); [right; eexists; reflexivity|].
  destruct (negb (truthy_str (data_version data))); [right; eexists; reflexivity|].
  destruct (get_or (data_steps data) []) as [|r raws]; [right; eexists; reflexivity|].
  assert (Hall : Forall (fun x => validated (_parse_step x)) (r :: raws))
    by (apply Forall_forall; intros; apply parse_step_validated).
  destruct (mapM_validated _parse_step (r :: raws) Hall) as [(ss & ->)|(msg & ->)];
    [|right; eexists; reflexivity].
  cbn [bind].
  destruct (build_dependency_graph_spec ss) as [(msg & ->)|(g & -> & Hwf & _)];
    [right; eexists; reflexivity|].
  cbn [bind].
  destruct (compute_execution_order_spec ss g Hwf) as (order & d & _ & ->).
  destruct (length order =? length ss)%nat; [left | right]; eexists; reflexivity.
Qed.

End ParseFacts.

(** ** The execution order *)

Section ExecutionOrder.

Local Open Scope list_scope.

Lemma ranked_acyclic graph l : ranked graph l = true -> acyclic graph.
Proof.
  intros Hr.
  assert (Hedge : forall a b, edge graph a b -> index_of b l < index_of a l).
  { intros a b (deps & Hg & Hb). unfold ranked in Hr.
    rewrite forallb_forall in Hr.
    specialize (Hr (a, deps) (dict_get_Some_In graph a deps Hg)).
    cbn [fst snd] in Hr. rewrite forallb_forall in Hr.
    apply Nat.ltb_lt. auto. }
  assert (Hpath : forall a b, clos_trans string (edge graph) a b ->
                              index_of b l < index_of a l).
  { intros a b H. induction H as [a b H|a b c _ IH1 _ IH2]; [auto | lia]. }
  intros x Hx. apply Hpath in Hx. lia.
Qed.

Lemma parse_workflow_data_inv schema data wf :
  parse_workflow_data schema data = Return wf ->
  reaches_ordering schema data (steps wf) (step_dependency_graph wf)
  /\ _compute_execution_order (steps wf) (step_dependency_graph wf)
     = Return (execution_order wf).
Proof.
  unfold parse_workflow_data, reaches_ordering.
  destruct (match schema with Some v => v data | None => None end);
    [discriminate|].
  destruct (truthy_str (data_name data)); [|discriminate].
  destruct (truthy_str (data_version data)); [|discriminate].
  cbn [negb].
  destruct (get_or (data_steps data) []) as [|r raws] eqn:E; [discriminate|].
  destruct (mapM _parse_step (r :: raws)) as [ss| |] eqn:Ep; try discriminate.
  cbn [bind].
  destruct (_build_dependency_graph ss) as [g| |] eqn:Eb; try discriminate.
  cbn [bind].
  destruct (_compute_execution_order ss g) as [order| |] eqn:Eo; try discriminate.
  cbn [bind]. intros [= <-]. cbn.
  repeat split; auto. discriminate.
Qed.

(** C1, amended.  When the checks before the ordering pass, the step ids
    are distinct and the dependency graph has no cycle, [parse_workflow_data]
    returns a definition whose [execution_order] holds every step id exactly
    once, and every step appears in it after each id of its [depends_on]. *)
Theorem execution_order_topological schema data ss graph :
  reaches_ordering schema data ss graph ->
  NoDup (map step_id ss) ->
  acyclic graph ->
  exists wf,
    parse_workflow_data schema data = Return wf
    /\ steps wf = ss
    /\ NoDup (execution_order wf)
    /\ Permutation (execution_order wf) (map step_id ss)
    /\ forall s x, In s ss -> In x (depends_on s) ->
         appears_after (execution_order wf) (step_id s) x.
Proof.
  intros Hreach Hnd Hac.
  rewrite (parse_workflow_data_reaches schema data ss graph Hreach).
  destruct Hreach as (_ & _ & _ & _ & _ & Hb).
  destruct (build_dependency_graph_spec ss) as [(msg & Hr)|(g & Hg & Hwf & Hk)];
    [congruence|].
  assert (g = graph) by congruence. subst g.
  destruct (compute_execution_order_spec ss graph Hwf) as (order & d & Hinv & ->).
  pose proof (kahn_order_NoDup graph d order Hinv) as Hndo.
  pose proof (kahn_order_keys graph d order Hinv) as Hsub.
  pose proof (kahn_order_complete graph Hwf d order Hinv Hac) as Hall.
  assert (Hperm : Permutation order (map step_id ss)).
  { apply NoDup_Permutation; auto. intros k. rewrite <- Hk. split; auto. }
  assert (Hlen : length order = length ss).
  { rewrite (Permutation_length Hperm). apply length_map. }
  rewrite (proj2 (Nat.eqb_eq _ _) Hlen).
  eexists. split; [reflexivity|]. cbn.
  repeat split; auto.
  - apply Hall, Hk. now apply in_map.
  - destruct (build_dependency_graph_lookup ss graph Hg Hnd s H)
      as (deps & Hget & Hin).
    apply (kahn_order_edge graph d order Hinv (step_id s) x).
    + apply Hall, Hk. now apply in_map.
    + exists deps. split; auto. now apply Hin.
  - destruct (build_dependency_graph_lookup ss graph Hg Hnd s H)
      as (deps & Hget & Hin).
    apply (kahn_order_edge graph d order Hinv (step_id s) x).
    + apply Hall, Hk. now apply in_map.
    + exists deps. split; auto. now apply Hin.
Qed.

Lemma cyclic_graph_raises schema data ss graph :
  reaches_ordering schema data ss graph ->
  cyclic graph ->
  parse_workflow_data schema data
  = Raise (WorkflowValidationError "Circular dependency detected in workflow steps").
Proof.
  intros Hreach Hcyc.
  { rewrite (parse_workflow_data_reaches schema data ss graph Hreach).
    destruct Hreach as (_ & _ & _ & _ & _ & Hb).
    destruct (build_dependency_graph_spec ss) as [(msg & Hr)|(g & Hg & Hwf & Hk)];
      [congruence|].
    assert (g = graph) by congruence. subst g.
    destruct (compute_execution_order_spec ss graph Hwf) as (order & d & Hinv & ->).
    destruct (length order =? length ss)%nat eqn:E; [|reflexivity].
    exfalso. apply Nat.eqb_eq in E.
    apply (kahn_order_cyclic graph d order Hinv Hcyc).
    apply NoDup_length_incl.
    - exact (kahn_order_NoDup graph d order Hinv).
    - rewrite E, <- (length_map step_id ss).
      apply NoDup_incl_length; [apply Hwf|].
      intros k. apply Hk.
    - exact (kahn_order_keys graph d order Hinv). }
Qed.

(** C2.  When the checks before the ordering pass and the dependency graph
    has a cycle, [parse_workflow_data] raises [WorkflowValidationError] with
    the message about a circular dependency, and returns no definition. *)
Theorem circular_dependency_rejected schema data ss graph :
  reaches_ordering schema data ss graph ->
  cyclic graph ->
  parse_workflow_data schema data
  = Raise (WorkflowValidationError "Circular dependency detected in workflow steps")
  /\ forall wf, parse_workflow_data schema data <> Return wf.
Proof.
  intros Hreach Hcyc.
  pose proof (cyclic_graph_raises schema data ss graph Hreach Hcyc) as Hraise.
  split; [exact Hraise|]. intros wf. rewrite Hraise. discriminate.
Qed.

(** A definition that was parsed has no cycle in its dependency graph. *)
Lemma parsed_workflow_acyclic schema data wf :
  parse_workflow_data schema data = Return wf ->
  acyclic (step_dependency_graph wf).
Proof.
  intros Hp x Hx. destruct (parse_workflow_data_inv schema data wf Hp) as [Hreach _].
  assert (Hc : cyclic (step_dependency_graph wf)) by (exists x; exact Hx).
  rewrite (cyclic_graph_raises schema data _ _ Hreach Hc) in Hp. discriminate.
Qed.

End ExecutionOrder.

Section ParserClaims.

Local Open Scope list_scope.

Lemma execution_order_topological_witness :
  exists wf,
    parse_workflow_data None scenario_B = Return wf
    /\ steps wf = parsed_steps scenario_B
    /\ NoDup (execution_order wf)
    /\ Permutation (execution_order wf) (map step_id (parsed_steps scenario_B))
    /\ forall s x, In s (parsed_steps scenario_B) -> In x (depends_on s) ->
         appears_after (execution_order wf) (step_id s) x.
Proof.
  apply (execution_order_topological None scenario_B
           (parsed_steps scenario_B) (built_graph scenario_B)).
  - repeat split; try reflexivity. discriminate.
  - vm_compute. repeat constructor; simpl; intuition discriminate.
  - apply (ranked_acyclic _ ["A"; "B"]). vm_compute. reflexivity.
Defined.

(** C1, as the claim states it, fails: two steps with one id give a
    dependency graph that has no cycle, and [parse_workflow_data] raises the
    error of a circular dependency instead of returning an order. *)
Lemma acyclic_graph_rejected :
  reaches_ordering None scenario_duplicate
    (parsed_steps scenario_duplicate) (built_graph scenario_duplicate)
  /\ acyclic (built_graph scenario_duplicate)
  /\ parse_workflow_data None scenario_duplicate
     = Raise (WorkflowValidationError
                "Circular dependency detected in workflow steps").
Proof.
  split; [|split].
  - repeat split; try reflexivity. discriminate.
  - apply (ranked_acyclic _ ["A"%string]). vm_compute. reflexivity.
  - vm_compute. reflexivity.
Qed.

Lemma circular_dependency_rejected_witness :
  parse_workflow_data None scenario_C
  = Raise (WorkflowValidationError "Circular dependency detected in workflow steps")
  /\ forall wf, parse_workflow_data None scenario_C <> Return wf.
Proof.
  apply (circular_dependency_rejected None scenario_C
           (parsed_steps scenario_C) (built_graph scenario_C)).
  - repeat split; try reflexivity. discriminate.
  - exists "A"%string. apply t_trans with (y := "B"%string); apply t_step.
    + exists ["B"%string]. split; [reflexivity | simpl; auto].
    + exists ["A"%string]. split; [reflexivity | simpl; auto].
Defined.

(** C8, as the claim states it, fails: a step nested in a conditional step
    can have the id of another step, and the workflow is parsed without an
    error. *)
Lemma nested_duplicate_id_parsed :
  exists wf c,
    parse_workflow_data None scenario_nested_duplicate = Return wf
    /\ map step_id (steps wf) = ["A"; "C"]%string
    /\ In c (steps wf)
    /\ map step_id (then_steps c) = ["A"%string].
Proof.
  eexists. eexists. split; [vm_compute; reflexivity|].
  split; [reflexivity|]. split; [right; left; reflexivity | reflexivity].
Qed.

(** C8, amended.  When two entries of the top-level step list have the same
    id, parsing raises [WorkflowValidationError] and returns no definition. *)
Theorem duplicate_step_ids_rejected schema data l1 r1 l2 r2 l3 :
  data_steps data = Some (l1 ++ r1 :: l2 ++ r2 :: l3) ->
  raw_id r1 = raw_id r2 ->
  exists msg, parse_workflow_data schema data = Raise (WorkflowValidationError msg).
Proof.
  intros Hsteps Hid.
  destruct (parse_workflow_data_validated schema data) as [(wf & Hp)|H]; [|exact H].
  exfalso.
  destruct (parse_workflow_data_inv schema data wf Hp) as [Hreach Hord].
  destruct Hreach as (_ & _ & _ & _ & Hparse & Hb).
  rewrite Hsteps in Hparse. cbn [get_or] in Hparse.
  pose proof (mapM_parse_step_ids _ _ Hparse) as Hids.
  destruct (build_dependency_graph_spec (steps wf))
    as [(msg & Hr)|(g & Hg & Hwf & Hk)]; [congruence|].
  assert (g = step_dependency_graph wf) by congruence. subst g.
  destruct (compute_execution_order_spec (steps wf) _ Hwf)
    as (order & d & Hinv & Heq).
  rewrite Heq in Hord.
  destruct (length order =? length (steps wf))%nat eqn:E; [|discriminate].
  apply Nat.eqb_eq in E.
  assert (Hnd : NoDup (map step_id (steps wf))).
  { apply NoDup_incl_NoDup with (l := order).
    - exact (kahn_order_NoDup _ d order Hinv).
    - rewrite length_map. lia.
    - intros k Hin. apply Hk. exact (kahn_order_keys _ d order Hinv k Hin). }
  rewrite Hids, map_app in Hnd. cbn [map] in Hnd.
  apply NoDup_remove_2 in Hnd. apply Hnd.
  apply in_or_app. right. rewrite map_app. apply in_or_app. right.
  cbn [map]. left. now rewrite Hid.
Qed.

Lemma duplicate_step_ids_rejected_witness :
  exists msg,
    parse_workflow_data None scenario_duplicate = Raise (WorkflowValidationError msg).
Proof.
  apply (duplicate_step_ids_rejected None scenario_duplicate
           [] (raw_shell "A" [] "echo 1") [] (raw_shell "A" [] "echo 2") []);
    reflexivity.
Defined.

(** C9, as the claim states it, fails: a workflow whose output refers to a
    step that does not exist is parsed without an error. *)
Lemma unknown_output_reference_parsed :
  exists wf,
    parse_workflow_data None scenario_unknown_output = Return wf
    /\ option_map from_step (dict_get (wf_outputs wf) "result")
       = Some (Some "ghost.outputs.value"%string)
    /\ ~ In "ghost"%string (map step_id (steps wf)).
Proof.
  eexists. split; [vm_compute; reflexivity|].
  split; [reflexivity|]. simpl. intuition discriminate.
Qed.

Lemma output_issues_In step_ids outs name out sid rest :
  In (name, out) outs ->
  truthy_str (from_step out) = true ->
  split_char "." (get_or (from_step out) "") = sid :: rest ->
  rest <> [] ->
  ~ In sid step_ids ->
  In ("Output " ++ name ++ " references unknown step: " ++ sid)%string
     (output_issues step_ids outs).
Proof.
  intros Hin Ht Hs Hr Hno. unfold output_issues.
  apply in_flat_map. exists (name, out). split; auto.
  cbn [fst snd]. rewrite Ht, Hs.
  destruct rest as [|p rest]; [congruence|].
  apply mem_false_iff in Hno. rewrite Hno. simpl. auto.
Qed.

Lemma parse_ignores_outputs data outs wf :
  parse_workflow_data None data = Return wf ->
  parse_workflow_data None (with_outputs data outs)
  = Return (with_wf_outputs wf (parse_outputs outs)).
Proof.
  unfold parse_workflow_data.
  cbn [with_outputs data_name data_version data_description data_author
       data_tags data_environment data_timeout data_retry data_cache
       data_inputs data_outputs data_steps].
  destruct (truthy_str (data_name data)); [|discriminate].
  destruct (truthy_str (data_version data)); [|discriminate].
  cbn [negb].
  destruct (get_or (data_steps data) []) as [|r raws]; [discriminate|].
  destruct (mapM _parse_step (r :: raws)) as [ss| |]; try discriminate.
  cbn [bind].
  destruct (_build_dependency_graph ss) as [g| |]; try discriminate.
  cbn [bind].
  destruct (_compute_execution_order ss g) as [order| |]; try discriminate.
  cbn [bind]. intros [= <-]. reflexivity.
Qed.

(** C9, amended.  [parse_workflow_data] does not look at what the outputs
    refer to: with no schema, replacing the outputs of a workflow that parses
    gives a workflow that parses.  [validate_workflow], which returns a list
    of issues and raises nothing, reports every output whose [from] reference
    has at least two parts between dots and whose first part is not a step
    id. *)
Theorem unknown_output_reference_reported data outs wf name out sid rest :
  parse_workflow_data None data = Return wf ->
  In (name, out) (parse_outputs outs) ->
  truthy_str (from_step out) = true ->
  split_char "." (get_or (from_step out) "") = sid :: rest ->
  rest <> [] ->
  ~ In sid (map step_id (steps wf)) ->
  exists wf',
    parse_workflow_data None (with_outputs data outs) = Return wf'
    /\ steps wf' = steps wf
    /\ In ("Output " ++ name ++ " references unknown step: " ++ sid)%string
          (validate_workflow wf').
Proof.
  intros Hp Hin Ht Hs Hr Hno.
  exists (with_wf_outputs wf (parse_outputs outs)).
  split; [now apply parse_ignores_outputs | split; [reflexivity|]].
  unfold validate_workflow. apply in_or_app. right. apply in_or_app. left.
  cbn [with_wf_outputs wf_outputs steps].
  now apply (output_issues_In _ _ name out sid rest).
Qed.

Lemma unknown_output_reference_reported_witness :
  exists wf',
    parse_workflow_data None
      (with_outputs scenario_B
         [("result", {| ro_type := None; ro_description := None;
                        ro_from := Some "ghost.outputs.value" |})])
    = Return wf'
    /\ steps wf' = parsed_steps scenario_B
    /\ In "Output result references unknown step: ghost"%string
          (validate_workflow wf').
Proof.
  destruct (parse_workflow_data None scenario_B) as [wf| |] eqn:E;
    try (vm_compute in E; discriminate).
  assert (Hs : steps wf = parsed_steps scenario_B).
  { vm_compute in E. injection E as <-. reflexivity. }
  rewrite <- Hs.
  apply (unknown_output_reference_reported scenario_B _ wf "result"
           {| output_name := "result"; output_type := None;
              output_description := None;
              from_step := Some "ghost.outputs.value" |}
           "ghost" ["outputs"; "value"]%string).
  - exact E.
  - simpl. auto.
  - reflexivity.
  - reflexivity.
  - discriminate.
  - rewrite Hs. vm_compute. intuition discriminate.
Defined.

End ParserClaims.

(** ** The secure engine *)

(** Running the monad on a state whose fields are known. *)
Ltac run_engine :=
  cbv beta iota zeta
      delta [mbind try_except get_state put_state ret raise update_result
             set_completed set_failed _get_cached_result logger perform
             log_security_event _sanitize_log_entry MAX_LOG_LENGTH unbound_global
             set_result set_log set_effects set_step_cache set_security_context
             clock security_context step_cache log effects result
             with_cache_hit with_status new_result status].

Section EngineFacts.

Local Open Scope list_scope.

(** C10.  When the permission set holds [admin], [has_permission] answers
    true for every permission, and each of the three permission gates of the
    engine lets the call through. *)
Theorem admin_has_every_permission sc :
  In "admin"%string (permissions sc) ->
  (forall permission, has_permission sc permission = true)
  /\ forall gate st, security_context st = sc -> In gate permission_gates ->
       check_permission gate st = (Return tt, st).
Proof.
  intros Hadmin.
  assert (H : forall permission, has_permission sc permission = true).
  { intros p. unfold has_permission. apply orb_true_iff. right.
    now apply mem_In. }
  split; [exact H|].
  intros gate st <- _. unfold check_permission, mbind, get_state.
  now rewrite H.
Qed.

Lemma admin_has_every_permission_witness :
  (forall permission,
     has_permission (sample_security_context ["admin"%string]) permission = true)
  /\ forall gate st,
       security_context st = sample_security_context ["admin"%string] ->
       In gate permission_gates ->
       check_permission gate st = (Return tt, st).
Proof.
  apply (admin_has_every_permission (sample_security_context ["admin"%string])).
  simpl. auto.
Defined.

Lemma cache_hit_run P profile step context st entry :
  cache_enabled step = true ->
  dict_get (step_cache st) (_generate_cache_key step context) = Some entry ->
  (clock st - cached_at entry <= ttl entry)%Z ->
  _execute_step_securely P profile step context st
  = (let r :=
       {| result_step_id := step_id step;
          status := COMPLETED;
          started_at := clock st;
          completed_at := Some (clock st);
          duration_seconds := clock st - clock st;
          result_outputs := entry_outputs entry;
          error := None;
          cached := true;
          cache_key := Some (_generate_cache_key step context);
          sanitized_stdout := None;
          exit_code := None |} in
     (Return r, set_result st r)).
Proof.
  intros Hen Hget Httl.
  assert (E : (ttl entry <? clock st - cached_at entry)%Z = false)
    by (apply Z.ltb_ge; lia).
  destruct st as [clk sc c lg eff res].
  cbn [clock step_cache] in Hget, E |- *.
  unfold _execute_step_securely. rewrite Hen.
  run_engine. rewrite Hget.
  run_engine. rewrite E.
  reflexivity.
Qed.

(** C3, as the claim states it, fails: on a cache hit the status of the
    result is [COMPLETED], not [CACHED]. *)
Lemma cache_hit_status_is_completed :
  cache_enabled (sample_shell "make" []) = true
  /\ (exists entry,
        dict_get sample_cache
          (_generate_cache_key (sample_shell "make" []) sample_context) = Some entry
        /\ (100 - cached_at entry <= ttl entry)%Z)
  /\ exists r st',
       _execute_step_securely (sample_platform true) "standard"
         (sample_shell "make" []) sample_context
         (sample_state ["shell.execute"%string] sample_cache) = (Return r, st')
       /\ cached r = true
       /\ status r = COMPLETED
       /\ status r <> CACHED.
Proof.
  split; [reflexivity|]. split.
  - eexists. split; [vm_compute; reflexivity | vm_compute; discriminate].
  - eexists. eexists. split; [vm_compute; reflexivity|].
    split; [reflexivity | split; [reflexivity | discriminate]].
Qed.

(** C3, amended.  For a cache-enabled step whose key is in the step cache and
    has not expired, [_execute_step_securely] returns a result with status
    [COMPLETED] and [cached = true] that holds the cached outputs and the
    key; no executor runs: the effects, the cache, the audit trail and the
    log are as before. *)
Theorem cache_hit_skips_executor P profile step context st entry :
  cache_enabled step = true ->
  dict_get (step_cache st) (_generate_cache_key step context) = Some entry ->
  (clock st - cached_at entry <= ttl entry)%Z ->
  exists r st',
    _execute_step_securely P profile step context st = (Return r, st')
    /\ status r = COMPLETED
    /\ cached r = true
    /\ cache_key r = Some (_generate_cache_key step context)
    /\ result_outputs r = entry_outputs entry
    /\ effects st' = effects st
    /\ step_cache st' = step_cache st
    /\ security_context st' = security_context st
    /\ log st' = log st.
Proof.
  intros Hen Hget Httl.
  rewrite (cache_hit_run P profile step context st entry Hen Hget Httl).
  cbv zeta. eexists. eexists. split; [reflexivity|].
  destruct st. repeat split.
Qed.

Lemma cache_hit_skips_executor_witness :
  exists r st',
    _execute_step_securely (sample_platform true) "standard"
      (sample_shell "make" []) sample_context
      (sample_state ["shell.execute"%string] sample_cache) = (Return r, st')
    /\ status r = COMPLETED
    /\ cached r = true
    /\ cache_key r
       = Some (_generate_cache_key (sample_shell "make" []) sample_context)
    /\ result_outputs r = [("stdout"%string, JStr "done")]
    /\ effects st' = []
    /\ step_cache st' = sample_cache
    /\ security_context st' = sample_security_context ["shell.execute"%string]
    /\ log st' = [].
Proof.
  apply (cache_hit_skips_executor (sample_platform true) "standard"
           (sample_shell "make" []) sample_context
           (sample_state ["shell.execute"%string] sample_cache)
           {| entry_outputs := [("stdout"%string, JStr "done")];
              cached_at := 50; ttl := 3600 |}).
  - reflexivity.
  - vm_compute. reflexivity.
  - vm_compute. discriminate.
Defined.

End EngineFacts.

Section AssertFacts.

Local Open Scope list_scope.

Lemma mbind_run {A B : Type} (m : M A) (f : A -> M B) st :
  mbind m f st
  = match m st with
    | (Return a, st') => f a st'
    | (Raise e, st') => (Raise e, st')
    | (OutOfFuel, st') => (OutOfFuel, st')
    end.
Proof. reflexivity. Qed.

Lemma try_except_run {A : Type} (m : M A) (handler : exn -> M A) st :
  try_except m handler st
  = match m st with
    | (Raise e, st') => handler e st'
    | other => other
    end.
Proof. reflexivity. Qed.

(** The call of [log_security_event] raises before anything is appended to
    the audit trail or written to the log. *)
Lemma log_security_event_raises P event st :
  log_security_event P event st = (Raise (NameError "MAX_LOG_LENGTH"), st).
Proof. reflexivity. Qed.

(** C4, at the input where the code departs from the claim: for an assert
    step whose condition is false and whose policy is [continue],
    [_execute_assert_step] assigns [SKIPPED], [set_completed] overwrites it
    with [COMPLETED], and the call of [log_security_event] that ends the
    method raises [NameError].  The handler of [_execute_step_securely] then
    marks the result [FAILED] and raises [NameError] again: no result is
    returned, and the result object never has the status [SKIPPED]. *)
Lemma assert_continue_never_skipped :
  (exists st1,
     _execute_assert_step (sample_platform true) "standard"
       (sample_assert "false" "continue") sample_context (sample_state [] [])
     = (Raise (NameError "MAX_LOG_LENGTH"), st1)
     /\ status (result st1) = COMPLETED
     /\ result_outputs (result st1) = [("assertion_result"%string, JBool false)])
  /\ exists st',
       _execute_step_securely (sample_platform true) "standard"
         (sample_assert "false" "continue") sample_context (sample_state [] [])
       = (Raise (NameError "MAX_LOG_LENGTH"), st')
       /\ status (result st') = FAILED
       /\ status (result st') <> SKIPPED
       /\ error (result st') = Some "name 'MAX_LOG_LENGTH' is not defined"%string.
Proof.
  split.
  - eexists. split; [vm_compute; reflexivity|]. split; reflexivity.
  - eexists. split; [vm_compute; reflexivity|].
    split; [reflexivity | split; [discriminate | reflexivity]].
Qed.

(** What an assert step does when its condition passes validation and
    evaluates to false, for each policy: the status that it leaves in the
    result before its last statement raises. *)
Lemma assert_false_outcome P lvl step context st st1 st2 :
  validate_string_input P lvl (str_or (condition step) "") "assertion condition" st
  = (Return (str_or (condition step) ""), st1) ->
  evaluate_condition P (str_or (condition step) "") context st1 = (Return false, st2) ->
  exists st3,
    _execute_assert_step P lvl step context st
    = (Raise (NameError "MAX_LOG_LENGTH"), st3)
    /\ effects st3 = effects st2
    /\ if String.eqb (on_failure step) "fail" then
         status (result st3) = FAILED
       else if String.eqb (on_failure step) "warn" then
         status (result st3) = COMPLETED
         /\ result_outputs (result st3)
            = _sanitize_outputs
                [ ("assertion_result"%string, JBool false);
                  ("warning"%string,
                   JStr (str_or (message step)
                           ("Assertion failed: " ++ str_or (condition step) ""))) ]
       else
         status (result st3) = COMPLETED
         /\ result_outputs (result st3)
            = _sanitize_outputs [("assertion_result"%string, JBool false)].
Proof.
  intros Hv He. unfold _execute_assert_step.
  rewrite mbind_run, try_except_run, mbind_run, Hv. cbv beta iota.
  rewrite mbind_run, He. cbv beta iota.
  destruct st2 as [clk sc c lg eff res].
  destruct (String.eqb (on_failure step) "fail").
  - run_engine. eexists. split; [reflexivity|]. split; reflexivity.
  - destruct (String.eqb (on_failure step) "warn").
    + run_engine. eexists. split; [reflexivity|]. repeat split.
    + run_engine. eexists. split; [reflexivity|]. repeat split.
Qed.

End AssertFacts.

Section ValidationFacts.

Local Open Scope list_scope.


(** The message of a command that a shell pattern rejects is built from the
    source text of the pattern. *)
Lemma shell_rejection_message P lvl command st st1 p :
  validate_string_input P lvl command "shell command" st = (Return command, st1) ->
  first_match dangerous_shell_patterns command = Some p ->
  exists st2,
    validate_shell_command P lvl command st
    = (Raise (SecurityError ("Dangerous shell pattern detected: " ++ src p)), st2).
Proof.
  intros Hv Hp. unfold validate_shell_command.
  rewrite mbind_run, Hv. cbv beta iota. rewrite mbind_run.
  destruct st1 as [clk sc c lg eff res].
  match goal with
  | |- context [if ?b then _ else _] => destruct b
  end; run_engine; rewrite Hp; eexists; reflexivity.
Qed.

Lemma template_rejection_message P lvl template st st1 p :
  validate_string_input P lvl template "template" st = (Return template, st1) ->
  first_match injection_patterns template = Some p ->
  validate_template_content P lvl template st
  = (Raise (SecurityError ("Template injection pattern detected: " ++ src p)), st1).
Proof.
  intros Hv Hp. unfold validate_template_content.
  rewrite mbind_run, Hv. cbv beta iota. rewrite Hp. reflexivity.
Qed.

(** C5, at inputs where the code departs from the claim: the message of a
    command rejected for a shell pattern, and of a template rejected for an
    injection pattern, ends with the source text of the pattern that
    matched. *)
Lemma rejection_message_discloses_pattern :
  (exists st',
     validate_shell_command (sample_platform false) "strict" "ls; rm -rf build"
       (sample_state [] [])
     = (Raise (SecurityError "Dangerous shell pattern detected: ;\s*rm\s+-rf"), st'))
  /\ In ";\s*rm\s+-rf"%string (map src dangerous_shell_patterns)
  /\ contains ";\s*rm\s+-rf" "Dangerous shell pattern detected: ;\s*rm\s+-rf" = true
  /\ (exists st',
        validate_template_content (sample_platform false) "strict"
          "{{ x.__class__ }}" (sample_state [] [])
        = (Raise (SecurityError "Template injection pattern detected: \{\{.*__.*\}\}"),
           st'))
  /\ In "\{\{.*__.*\}\}"%string (map src injection_patterns)
  /\ contains "\{\{.*__.*\}\}" "Template injection pattern detected: \{\{.*__.*\}\}"
     = true.
Proof.
  split; [eexists; vm_compute; reflexivity|].
  split; [simpl; auto|].
  split; [vm_compute; reflexivity|].
  split; [eexists; vm_compute; reflexivity|].
  split; [simpl; auto | vm_compute; reflexivity].
Qed.

(** ** Expressions that cannot be evaluated *)




End ValidationFacts.
Section ExpressionClaims.

Local Open Scope list_scope.






End ExpressionClaims.

(** ** Serialization with sorted keys *)


Section SortedKeys.

Local Open Scope list_scope.

Lemma compare_as_OT a b : String_as_OT.compare a b = String.compare a b.
Proof.
  revert b. induction a as [|x a IH]; destruct b as [|y b]; simpl; auto.
Qed.

Lemma leb_iff a b :
  String.leb a b = true <-> a = b \/ String_as_OT.lt a b.
Proof.
  unfold String.leb. rewrite <- (compare_as_OT a b).
  pose proof (@StrictOrder_Irreflexive _ _ String_as_OT.lt_strorder) as Hirr.
  pose proof (@StrictOrder_Transitive _ _ String_as_OT.lt_strorder) as Htr.
  destruct (String_as_OT.compare_spec a b) as [E|E|E].
  - tauto.
  - tauto.
  - split; [discriminate|]. intros [->|H]; exfalso.
    + exact (Hirr b E).
    + exact (Hirr a (Htr a b a H E)).
Qed.

Lemma leb_trans a b c :
  String.leb a b = true -> String.leb b c = true -> String.leb a c = true.
Proof.
  rewrite !leb_iff. intros [->|H1] [->|H2]; auto.
  right. exact (@StrictOrder_Transitive _ _ String_as_OT.lt_strorder a b c H1 H2).
Qed.

Context {V : Type}.
Implicit Types (a b : string * V) (l : list (string * V)).

Lemma insert_item_swap a b l :
  fst a <> fst b ->
  insert_item a (insert_item b l) = insert_item b (insert_item a l).
Proof.
  intros Hne.
  assert (Hab : String.leb (fst a) (fst b) = true -> String.leb (fst b) (fst a) = false).
  { intros H. destruct (String.leb (fst b) (fst a)) eqn:E; auto.
    exfalso. apply Hne. now apply String.leb_antisym. }
  assert (Hba : String.leb (fst a) (fst b) = false -> String.leb (fst b) (fst a) = true).
  { intros H. destruct (String.leb_total (fst a) (fst b)); congruence. }
  assert (Hcases : (String.leb (fst a) (fst b) = true
                    /\ String.leb (fst b) (fst a) = false)
                   \/ (String.leb (fst a) (fst b) = false
                       /\ String.leb (fst b) (fst a) = true)).
  { destruct (String.leb (fst a) (fst b)) eqn:E; [left | right]; auto. }
  induction l as [|c l IH].
  - destruct Hcases as [[E E']|[E E']]; cbn [insert_item]; now rewrite E, E'.
  - destruct (String.leb (fst b) (fst c)) eqn:Ebc;
    destruct (String.leb (fst a) (fst c)) eqn:Eac.
    + destruct Hcases as [[E E']|[E E']];
        repeat first [ rewrite Ebc | rewrite Eac | rewrite E | rewrite E'
                     | progress cbn [insert_item] ]; reflexivity.
    + assert (E : String.leb (fst a) (fst b) = false).
      { destruct (String.leb (fst a) (fst b)) eqn:E; auto.
        rewrite (leb_trans _ _ _ E Ebc) in Eac. discriminate. }
      repeat first [ rewrite Ebc | rewrite Eac | rewrite E
                   | progress cbn [insert_item] ]; reflexivity.
    + assert (E : String.leb (fst b) (fst a) = false).
      { destruct (String.leb (fst b) (fst a)) eqn:E; auto.
        rewrite (leb_trans _ _ _ E Eac) in Ebc. discriminate. }
      repeat first [ rewrite Ebc | rewrite Eac | rewrite E
                   | progress cbn [insert_item] ]; reflexivity.
    + repeat first [ rewrite Ebc | rewrite Eac | progress cbn [insert_item] ].
      now rewrite IH.
Qed.

(** Sorting does not depend on the order in which the entries are given. *)
Lemma sort_items_Permutation l1 l2 :
  Permutation l1 l2 -> NoDup (map fst l1) -> sort_items l1 = sort_items l2.
Proof.
  induction 1 as [|x l1 l2 Hp IH|x y l|l1 l2 l3 H12 IH12 H23 IH23]; intros Hnd.
  - reflexivity.
  - cbn [sort_items]. inversion Hnd; subst. now rewrite IH.
  - cbn [sort_items]. apply insert_item_swap.
    inversion Hnd as [|? ? Hni _]; subst. intros E. apply Hni. simpl. auto.
  - rewrite IH12 by exact Hnd. apply IH23.
    eapply Permutation_NoDup; [|exact Hnd]. now apply Permutation_map.
Qed.

End SortedKeys.

Section Equivalence.

Local Open Scope list_scope.

(** Induction on the derivation of an equivalence, through lists and
    dictionaries. *)
Lemma json_equiv_nested_ind (P : json -> json -> Prop)
    (Hnull : P JNull JNull)
    (Hbool : forall b, P (JBool b) (JBool b))
    (Hint : forall z, P (JInt z) (JInt z))
    (Hfloat : forall r, P (JFloat r) (JFloat r))
    (Hstr : forall s, P (JStr s) (JStr s))
    (Hlist : forall l1 l2, Forall2 P l1 l2 -> P (JList l1) (JList l2))
    (Hdict : forall d1 d1' d2,
        NoDup (map fst d1) -> Permutation d1 d1' ->
        Forall2 (fun kv kv' => fst kv = fst kv' /\ P (snd kv) (snd kv')) d1' d2 ->
        P (JDict d1) (JDict d2)) :
  forall a b, json_equiv a b -> P a b.
Proof.
  fix rec 3. intros a b H.
  destruct H as [|b|z|r|s|l1 l2 HF|d1 d1' d2 Hnd Hp HF].
  - exact Hnull.
  - apply Hbool.
  - apply Hint.
  - apply Hfloat.
  - apply Hstr.
  - apply Hlist.
    induction HF as [|x y l1 l2 h _ IH]; [constructor|].
    constructor; [apply rec, h | exact IH].
  - apply (Hdict d1 d1' d2 Hnd Hp). clear Hp.
    induction HF as [|x y l1 l2 h _ IH]; [constructor|].
    constructor; [|exact IH].
    destruct h as [e je]. split; [exact e | apply rec, je].
Qed.

(** Structurally identical values have the same serialization. *)
Lemma dumps_equiv a b : json_equiv a b -> dumps a = dumps b.
Proof.
  intros H. induction H using json_equiv_nested_ind; try reflexivity.
  - cbn [dumps]. do 3 f_equal.
    induction H as [|x y l1 l2 Hxy _ IH]; cbn [map]; congruence.
  - cbn [dumps]. do 4 f_equal.
    set (f := fun kv : string * json => (fst kv, dumps (snd kv))).
    transitivity (sort_items (map f d1')).
    + apply sort_items_Permutation.
      * now apply Permutation_map.
      * rewrite map_map. exact H.
    + f_equal. clear H H0.
      induction H1 as [|x y l1 l2 [Hk Hv] _ IH]; cbn [map]; [reflexivity|].
      f_equal; [|exact IH]. unfold f. now rewrite Hk, Hv.
Qed.

End Equivalence.

(** ** Cache keys *)

Section CacheKeys.

Local Open Scope list_scope.

(** Induction on a value, through lists and dictionaries. *)
Lemma json_nested_ind (P : json -> Prop)
    (Hnull : P JNull) (Hbool : forall b, P (JBool b)) (Hint : forall z, P (JInt z))
    (Hfloat : forall r, P (JFloat r)) (Hstr : forall s, P (JStr s))
    (Hlist : forall l, Forall P l -> P (JList l))
    (Hdict : forall d, Forall (fun kv => P (snd kv)) d -> P (JDict d)) :
  forall v, P v.
Proof.
  fix rec 1. intros [|b|z|r|s|l|d].
  - exact Hnull.
  - apply Hbool.
  - apply Hint.
  - apply Hfloat.
  - apply Hstr.
  - apply Hlist. induction l as [|x l IH]; [constructor|].
    constructor; [apply rec | exact IH].
  - apply Hdict. induction d as [|kv d IH]; [constructor|].
    constructor; [apply rec | exact IH].
Qed.

Lemma distinct_NoDup l : distinct l = true -> NoDup l.
Proof.
  induction l as [|x l IH]; cbn [distinct]; intros H; constructor.
  - apply andb_true_iff in H. destruct H as [H _].
    apply negb_true_iff in H. now apply mem_false_iff.
  - apply IH. apply andb_true_iff in H. tauto.
Qed.

(** A value whose dictionaries have distinct keys is structurally identical
    to itself. *)
Lemma json_equiv_refl v : distinct_keys v = true -> json_equiv v v.
Proof.
  induction v as [| | | | |l IH|d IH] using json_nested_ind; intros H;
    try constructor.
  - cbn [distinct_keys] in H. rewrite forallb_forall in H.
    induction IH as [|x l Hx _ IHl]; constructor.
    + apply Hx, H. simpl; auto.
    + apply IHl. intros y Hy. apply H. simpl; auto.
  - cbn [distinct_keys] in H. apply andb_true_iff in H. destruct H as [Hd Hf].
    apply je_dict with (d1' := d).
    + now apply distinct_NoDup.
    + apply Permutation_refl.
    + rewrite forallb_forall in Hf. clear Hd.
      induction IH as [|x l Hx _ IHl]; constructor.
      * split; [reflexivity|]. apply Hx, Hf. simpl; auto.
      * apply IHl. intros y Hy. apply Hf. simpl; auto.
Qed.

(** The key of the engine depends on the step and the context only through
    the four components, up to the order of dictionary entries. *)
Lemma engine_key_equiv s1 s2 c1 c2 :
  step_id s1 = step_id s2 ->
  step_type s1 = step_type s2 ->
  json_equiv (JDict (inputs s1)) (JDict (inputs s2)) ->
  json_equiv (dict_get_default c1 "inputs" (JDict []))
             (dict_get_default c2 "inputs" (JDict [])) ->
  _generate_cache_key s1 c1 = _generate_cache_key s2 c2.
Proof.
  intros Hid Hty Hin Hctx. unfold _generate_cache_key.
  now rewrite Hid, Hty, (dumps_equiv _ _ Hin), (dumps_equiv _ _ Hctx).
Qed.

Lemma parser_key_equiv jinja2 s1 s2 c1 c2 :
  dict_get (cache s1) "key" = None ->
  dict_get (cache s2) "key" = None ->
  step_id s1 = step_id s2 ->
  step_type s1 = step_type s2 ->
  json_equiv (JDict (inputs s1)) (JDict (inputs s2)) ->
  json_equiv (asdict s1) (asdict s2) ->
  generate_cache_key jinja2 s1 c1 = generate_cache_key jinja2 s2 c2.
Proof.
  intros Hk1 Hk2 Hid Hty Hin Has. unfold generate_cache_key, parser_key_string.
  now rewrite Hk1, Hk2, Hid, Hty, (dumps_equiv _ _ Hin), (dumps_equiv _ _ Has).
Qed.

(** *** Sorting the keys, then writing the text *)

Lemma insert_item_map {V W : Type} (f : V -> W) kv (l : list (string * V)) :
  insert_item (fst kv, f (snd kv)) (map (fun x => (fst x, f (snd x))) l)
  = map (fun x => (fst x, f (snd x))) (insert_item kv l).
Proof.
  induction l as [|x l IH]; [reflexivity|].
  cbn [map insert_item fst snd].
  destruct (String.leb (fst kv) (fst x)); [reflexivity|].
  cbn [map]. now rewrite IH.
Qed.

Lemma sort_items_map {V W : Type} (f : V -> W) (l : list (string * V)) :
  sort_items (map (fun x => (fst x, f (snd x))) l)
  = map (fun x => (fst x, f (snd x))) (sort_items l).
Proof.
  induction l as [|x l IH]; [reflexivity|].
  cbn [map sort_items]. rewrite IH. apply insert_item_map.
Qed.

Lemma insert_item_In {V : Type} (kv x : string * V) l :
  In x (insert_item kv l) <-> x = kv \/ In x l.
Proof.
  induction l as [|y l IH]; cbn [insert_item].
  - simpl. intuition.
  - destruct (String.leb (fst kv) (fst y)); simpl; [intuition|].
    rewrite IH. intuition.
Qed.

Lemma sort_items_In {V : Type} (x : string * V) l :
  In x (sort_items l) <-> In x l.
Proof.
  induction l as [|y l IH]; cbn [sort_items]; [tauto|].
  rewrite insert_item_In, IH. simpl. intuition.
Qed.

Lemma ascending_insert {V : Type} (kv : string * V) l :
  ascending (map fst l) = true -> ascending (map fst (insert_item kv l)) = true.
Proof.
  induction l as [|x l IH]; [reflexivity|].
  intros Hl. cbn [insert_item].
  destruct (String.leb (fst kv) (fst x)) eqn:E.
  - cbn [map ascending] in *. now rewrite E.
  - assert (Hx : String.leb (fst x) (fst kv) = true).
    { destruct (String.leb_total (fst kv) (fst x)); congruence. }
    assert (Hrest : ascending (map fst l) = true).
    { destruct l as [|y l]; [reflexivity|].
      cbn [map ascending] in Hl. apply andb_true_iff in Hl. tauto. }
    specialize (IH Hrest).
    destruct l as [|y l].
    + cbn [insert_item map ascending]. now rewrite Hx.
    + cbn [map ascending] in Hl. apply andb_true_iff in Hl. destruct Hl as [Hxy _].
      cbn [insert_item] in IH |- *.
      destruct (String.leb (fst kv) (fst y)).
      * cbn [map ascending] in IH |- *. now rewrite Hx, IH.
      * cbn [map ascending] in IH |- *. now rewrite Hxy, IH.
Qed.

Lemma ascending_sort {V : Type} (l : list (string * V)) :
  ascending (map fst (sort_items l)) = true.
Proof.
  induction l as [|x l IH]; [reflexivity|].
  cbn [sort_items]. now apply ascending_insert.
Qed.

(** [sort_keys] puts the keys of every dictionary in ascending order. *)
Lemma sort_keys_ascending v : keys_ascending (sort_keys v) = true.
Proof.
  induction v as [| | | | |l IH|d IH] using json_nested_ind; try reflexivity.
  - cbn [sort_keys keys_ascending]. rewrite forallb_forall.
    intros x Hx. apply in_map_iff in Hx. destruct Hx as (y & <- & Hy).
    rewrite Forall_forall in IH. now apply IH.
  - cbn [sort_keys keys_ascending]. rewrite ascending_sort. cbn [andb].
    rewrite forallb_forall. intros x Hx.
    apply sort_items_In, in_map_iff in Hx. destruct Hx as (y & <- & Hy).
    rewrite Forall_forall in IH. cbn [snd]. now apply IH.
Qed.

(** [json.dumps(v, sort_keys=True)] is the text of the value with its keys
    sorted. *)
Lemma dumps_sorted v : dumps v = json_text (sort_keys v).
Proof.
  induction v as [| [|] | | | |l IH|d IH] using json_nested_ind; try reflexivity.
  - cbn [dumps sort_keys json_text]. rewrite map_map.
    rewrite Forall_forall in IH.
    now rewrite (map_ext_in dumps (fun x => json_text (sort_keys x)) l IH).
  - cbn [dumps sort_keys json_text].
    rewrite Forall_forall in IH.
    assert (E : map (fun kv => (fst kv, dumps (snd kv))) d
                = map (fun x => (fst x, json_text (snd x)))
                    (map (fun kv => (fst kv, sort_keys (snd kv))) d)).
    { rewrite map_map. apply map_ext_in. intros kv Hkv. cbn [fst snd].
      now rewrite (IH kv Hkv). }
    rewrite E, (sort_items_map json_text), map_map. reflexivity.
Qed.

(** C7, as the claim states it, fails for [WorkflowParser.generate_cache_key]:
    for a step without a custom key it is not the digest of the four
    components that the claim names, and it does not change with the inputs
    of the execution. *)
Lemma parser_cache_key_counterexample :
  dict_get (cache (sample_shell "make" [])) "key" = None
  /\ generate_cache_key None (sample_shell "make" []) (JDict sample_context)
     <> Return (Sha256.hexdigest
                  (claimed_key_string (sample_shell "make" []) sample_context))
  /\ generate_cache_key None (sample_shell "make" []) (JDict sample_context)
     = generate_cache_key None (sample_shell "make" []) (JDict []).
Proof.
  split; [reflexivity|]. split; [|reflexivity].
  vm_compute. discriminate.
Qed.

(** C7, amended.  [_generate_cache_key], the function that the engine calls,
    returns for every step, with or without a custom key, the SHA-256 digest
    of the step id, the step type, the declared inputs and the inputs of the
    execution, both serialized with the keys of every dictionary in ascending
    order, joined by bars; it gives the
    same key for steps and contexts that agree in these four components up to
    the order of the entries of their dictionaries.
    [WorkflowParser.generate_cache_key] returns for a step without a custom
    key the digest of the step id, the step type, the declared inputs and the
    whole step, serialized with sorted keys; it does not read the context,
    and gives the same key for steps that are structurally identical. *)
Theorem cache_key_deterministic :
  (forall step context,
     _generate_cache_key step context
     = Sha256.hexdigest (claimed_key_string step context))
  /\ (forall v, keys_ascending (sort_keys v) = true)
  /\ (forall s1 s2 c1 c2,
        step_id s1 = step_id s2 ->
        step_type s1 = step_type s2 ->
        json_equiv (JDict (inputs s1)) (JDict (inputs s2)) ->
        json_equiv (dict_get_default c1 "inputs" (JDict []))
                   (dict_get_default c2 "inputs" (JDict [])) ->
        _generate_cache_key s1 c1 = _generate_cache_key s2 c2)
  /\ (forall jinja2 s1 s2 c1 c2,
        dict_get (cache s1) "key" = None ->
        dict_get (cache s2) "key" = None ->
        step_id s1 = step_id s2 ->
        step_type s1 = step_type s2 ->
        json_equiv (JDict (inputs s1)) (JDict (inputs s2)) ->
        json_equiv (asdict s1) (asdict s2) ->
        generate_cache_key jinja2 s1 c1
        = Return (Sha256.hexdigest
                    (join "|" [ step_id s1; step_type s1;
                                json_text (sort_keys (JDict (inputs s1)));
                                json_text (sort_keys (asdict s1)) ]))
        /\ generate_cache_key jinja2 s1 c1 = generate_cache_key jinja2 s2 c2).
Proof.
  split; [|split; [|split]].
  - intros step context. unfold _generate_cache_key, claimed_key_string.
    now rewrite !dumps_sorted.
  - exact sort_keys_ascending.
  - intros s1 s2 c1 c2. apply engine_key_equiv.
  - intros jinja2 s1 s2 c1 c2 Hk1 Hk2 Hid Hty Hin Has. split.
    + unfold generate_cache_key, parser_key_string.
      now rewrite Hk1, !dumps_sorted.
    + now apply parser_key_equiv.
Qed.

Lemma cache_key_deterministic_witness :
  _generate_cache_key
    (sample_shell "make" [("a"%string, JInt 1); ("b"%string, JInt 2)])
    [("inputs"%string, JDict [("x"%string, JStr "1"); ("y"%string, JStr "2")])]
  = _generate_cache_key
      (sample_shell "make" [("b"%string, JInt 2); ("a"%string, JInt 1)])
      [("inputs"%string, JDict [("y"%string, JStr "2"); ("x"%string, JStr "1")])].
Proof.
  apply (proj1 (proj2 (proj2 cache_key_deterministic))); try reflexivity.
  - apply je_dict with (d1' := [("b"%string, JInt 2); ("a"%string, JInt 1)]).
    + repeat constructor; simpl; intuition discriminate.
    + apply perm_swap.
    + repeat constructor.
  - cbn [dict_get_default dict_get String.eqb Ascii.eqb Bool.eqb].
    apply je_dict with (d1' := [("y"%string, JStr "2"); ("x"%string, JStr "1")]).
    + repeat constructor; simpl; intuition discriminate.
    + apply perm_swap.
    + repeat constructor.
Defined.

End CacheKeys.

(** * Further properties *)

(** ** Strings *)

Section StringFacts.

Local Open Scope list_scope.

Lemma take_length n s : String.length (take n s) = Nat.min n (String.length s).
Proof.
  revert s. induction n as [|n IH]; intros [|c s]; simpl; auto.
Qed.

Lemma take_length_le n s : String.length (take n s) <= n.
Proof. rewrite take_length. apply Nat.le_min_l. Qed.

Lemma take_app_length s t : take (String.length s) (s ++ t)%string = s.
Proof. induction s as [|c s IH]; simpl; [now destruct t | now rewrite IH]. Qed.

Lemma drop_app_length s t : drop (String.length s) (s ++ t)%string = t.
Proof. induction s as [|c s IH]; simpl; auto. Qed.

Lemma string_app_nil s : (s ++ "")%string = s.
Proof. induction s as [|c s IH]; simpl; congruence. Qed.

Lemma string_app_assoc s t u : ((s ++ t) ++ u)%string = (s ++ t ++ u)%string.
Proof. induction s as [|c s IH]; simpl; congruence. Qed.

Lemma string_length_app s t :
  String.length (s ++ t)%string = String.length s + String.length t.
Proof. induction s as [|c s IH]; simpl; auto. Qed.

Lemma startswith_app p s : startswith p (p ++ s)%string = true.
Proof.
  induction p as [|c p IH]; simpl; auto. now rewrite Ascii.eqb_refl.
Qed.

Lemma startswith_prefix p q s :
  startswith (p ++ q)%string s = true -> startswith p s = true.
Proof.
  revert s. induction p as [|c p IH]; intros s; simpl; auto.
  destruct s as [|b s]; [discriminate|].
  rewrite !andb_true_iff. intros [H1 H2]. split; auto.
Qed.

Lemma contains_prefix p q s :
  contains (p ++ q)%string s = true -> contains p s = true.
Proof.
  induction s as [|c s IH].
  - cbn [contains]. rewrite !orb_false_r. apply startswith_prefix.
  - cbn [contains]. rewrite !orb_true_iff. intros [H|H]; [left | right; auto].
    now apply startswith_prefix with (q := q).
Qed.

Lemma contains_false_startswith p s :
  contains p s = false -> startswith p s = false.
Proof. destruct s; cbn [contains]; intros H; now apply orb_false_iff in H. Qed.

Lemma contains_false_tail p c s :
  contains p (String c s) = false -> contains p s = false.
Proof. cbn [contains]. intros H. now apply orb_false_iff in H. Qed.

(** [replace] changes nothing in a text in which [old] does not occur. *)
Lemma replace_loop_absent old new : forall fuel s,
  contains old s = false -> replace_loop fuel old new s = s.
Proof.
  induction fuel as [|fuel IH]; intros s H; cbn [replace_loop]; auto.
  rewrite (contains_false_startswith _ _ H).
  destruct s as [|c s]; auto.
  f_equal. apply IH. now apply contains_false_tail with (c := c).
Qed.

Lemma replace_absent old new s : contains old s = false -> replace old new s = s.
Proof. apply replace_loop_absent. Qed.

Lemma all_chars_app p s t :
  all_chars p (s ++ t)%string = all_chars p s && all_chars p t.
Proof.
  induction s as [|c s IH]; simpl; auto. now rewrite IH, andb_assoc.
Qed.

End StringFacts.

(** ** Regular expressions *)

Section RegexFacts.

Local Open Scope list_scope.

Lemma rmatch_star r1 s k :
  rmatch (Star r1) s k = star_loop r1 k (String.length s) s.
Proof. reflexivity. Qed.

Lemma rmatch_cat r1 r2 s k :
  rmatch (Cat r1 r2) s k = rmatch r1 s (fun s' => rmatch r2 s' k).
Proof. reflexivity. Qed.

Lemma rmatch_chr p c s k :
  rmatch (Chr p) (String c s) k = if p c then k s else None.
Proof. reflexivity. Qed.

(** A starred character class is greedy: it takes the whole run of
    characters of the class when the continuation accepts what follows. *)
Lemma star_loop_class p k : forall s1 n s2 x,
  String.length s1 <= n ->
  all_chars p s1 = true ->
  stops p s2 = true ->
  k s2 = Some x ->
  star_loop (Chr p) k n (s1 ++ s2)%string = Some x.
Proof.
  induction s1 as [|c s1 IH]; intros n s2 x Hn Hall Hstop Hk.
  - cbn [String.append]. destruct n as [|n]; cbn [star_loop]; auto.
    destruct s2 as [|c s2]; cbn [rmatch]; [now rewrite Hk|].
    cbn [stops] in Hstop. apply negb_true_iff in Hstop. now rewrite Hstop, Hk.
  - cbn [all_chars] in Hall. apply andb_true_iff in Hall. destruct Hall as [Hc Hall].
    destruct n as [|n]; [simpl in Hn; lia|].
    cbn [String.append star_loop rmatch]. rewrite Hc.
    assert (Hlt : (String.length (s1 ++ s2) <? String.length (String c (s1 ++ s2)))%nat
                  = true) by (apply Nat.ltb_lt; simpl; lia).
    rewrite Hlt, (IH n s2 x); auto. simpl in Hn. lia.
Qed.

Lemma rmatch_star_class p k s1 s2 x :
  all_chars p s1 = true ->
  stops p s2 = true ->
  k s2 = Some x ->
  rmatch (Star (Chr p)) (s1 ++ s2)%string k = Some x.
Proof.
  intros. rewrite rmatch_star. apply star_loop_class; auto.
  rewrite string_length_app. lia.
Qed.

(** A literal text is matched at the head of a text that starts with it. *)
Lemma rmatch_str_app t s k : rmatch (str false t) (t ++ s)%string k = k s.
Proof.
  induction t as [|c t IH]; cbn [str rmatch String.append lit]; auto.
  now rewrite Ascii.eqb_refl.
Qed.

(** An alternative fails exactly when each of its branches fails. *)
Lemma rmatch_alts_none l s k :
  rmatch (alts l) s k = None <-> Forall (fun r => rmatch r s k = None) l.
Proof.
  induction l as [|r l IH].
  - split; [constructor|]. intros _. destruct s; reflexivity.
  - destruct l as [|r' l].
    + cbn [alts]. split; [intros H; repeat constructor; auto|].
      intros H. now inversion H.
    + change (alts (r :: r' :: l)) with (Alt r (alts (r' :: l))).
      cbn [rmatch]. split.
      * intros H. destruct (rmatch r s k) eqn:E; [discriminate|].
        constructor; auto. now apply IH.
      * intros H. inversion H as [|? ? H1 H2]; subst.
        rewrite H1. now apply IH.
Qed.

Lemma search_none_head r s : search r s = None -> match_at r s = None.
Proof.
  destruct s as [|c s]; cbn [search]; destruct (match_at r _); auto; discriminate.
Qed.

Lemma search_none_tail r c s : search r (String c s) = None -> search r s = None.
Proof.
  cbn [search]. destruct (match_at r (String c s)); [discriminate|].
  destruct (search r s) as [[[b m] a]|]; [discriminate | auto].
Qed.

Lemma search_none_intro r s :
  match_at r s = None ->
  match s with String _ s' => search r s' = None | EmptyString => True end ->
  search r s = None.
Proof.
  intros H1 H2. destruct s as [|c s]; cbn [search]; rewrite H1; auto.
  now rewrite H2.
Qed.

(** A text in which no pattern of a list is found holds none of the patterns
    of a smaller list. *)
Lemma search_alts_incl l1 l2 s :
  incl l1 l2 -> search (alts l2) s = None -> search (alts l1) s = None.
Proof.
  intros Hincl. induction s as [|c s IH]; intros H.
  - apply search_none_intro; auto. apply search_none_head in H.
    unfold match_at in *. apply rmatch_alts_none.
    apply (proj1 (rmatch_alts_none l2 _ _)) in H.
    rewrite Forall_forall in *. auto.
  - apply search_none_intro.
    + apply search_none_head in H.
      unfold match_at in *. apply rmatch_alts_none.
      apply (proj1 (rmatch_alts_none l2 _ _)) in H.
      rewrite Forall_forall in *. auto.
    + apply IH. now apply search_none_tail with (c := c).
Qed.

(** One step of [re.sub] at a match that is not empty. *)
Lemma sub_loop_match r repl fuel s rest :
  match_at r s = Some rest ->
  String.length rest < String.length s ->
  sub_loop (S fuel) r repl s
  = (repl (take (String.length s - String.length rest) s)
     ++ sub_loop fuel r repl rest)%string.
Proof.
  intros Hm Hlt. destruct s as [|c s]; [simpl in Hlt; lia|].
  cbn [sub_loop]. rewrite Hm.
  apply Nat.ltb_lt in Hlt. now rewrite Hlt.
Qed.

End RegexFacts.

(** ** Templates *)

Section TemplateFacts.

Local Open Scope list_scope.

(** *** The fallback of the parser *)

Lemma fold_render_absent context names : forall result,
  contains "{{ " result = false ->
  fold_left
    (fun result name =>
       match _get_nested_value context name with
       | JNull => result
       | value => replace ("{{ " ++ name ++ " }}") (py_str value) result
       end)
    names result = result.
Proof.
  induction names as [|name names IH]; intros result H; cbn [fold_left]; auto.
  assert (Hno : forall v, replace ("{{ " ++ name ++ " }}") v result = result).
  { intros v. apply replace_absent.
    destruct (contains ("{{ " ++ name ++ " }}") result) eqn:E; auto.
    apply contains_prefix in E. congruence. }
  destruct (_get_nested_value context name); rewrite ?Hno; auto.
Qed.

(** X2.  [_simple_render] replaces a variable only where it is written with one
    space inside the braces: a template that nowhere has two opening braces
    followed by a space comes back unchanged, whatever the context holds. *)
Theorem simple_render_needs_spaced_braces template_str context :
  contains "{{ " template_str = false ->
  _simple_render template_str context = template_str.
Proof. intros H. unfold _simple_render. now apply fold_render_absent. Qed.

Lemma simple_render_needs_spaced_braces_witness :
  _simple_render "Hello {{name}}" (JDict [("name"%string, JStr "World")])
  = "Hello {{name}}"%string.
Proof.
  apply (simple_render_needs_spaced_braces "Hello {{name}}"
           (JDict [("name"%string, JStr "World")])).
  reflexivity.
Defined.

(** *** The character classes of a variable *)

Ltac by_cases_on c :=
  destruct c as [[] [] [] [] [] [] [] []]; vm_compute; intros; congruence.

Lemma name_start_not_space c : name_start c = true -> isspace c = false.
Proof. by_cases_on c. Qed.

Lemma name_char_not_space c : name_char c = true -> isspace c = false.
Proof. by_cases_on c. Qed.

Lemma space_not_name_char c : isspace c = true -> name_char c = false.
Proof. by_cases_on c. Qed.

Lemma all_chars_impl (p q : ascii -> bool) s :
  (forall c, p c = true -> q c = true) ->
  all_chars p s = true -> all_chars q s = true.
Proof.
  intros Hpq. induction s as [|c s IH]; simpl; auto.
  intros H. apply andb_true_iff in H. destruct H as [H1 H2].
  now rewrite (Hpq c H1), IH.
Qed.

(** *** [strip] *)

Lemma string_rev_acc_app s : forall acc,
  string_rev_acc s acc = (string_rev s ++ acc)%string.
Proof.
  unfold string_rev. induction s as [|c s IH]; intros acc; cbn [string_rev_acc]; auto.
  rewrite (IH (String c acc)), (IH (String c EmptyString)).
  now rewrite string_app_assoc.
Qed.

Lemma string_rev_cons c s :
  string_rev (String c s) = (string_rev s ++ String c EmptyString)%string.
Proof. unfold string_rev at 1. cbn [string_rev_acc]. apply string_rev_acc_app. Qed.

Lemma string_rev_app s t :
  string_rev (s ++ t) = (string_rev t ++ string_rev s)%string.
Proof.
  induction s as [|c s IH]; cbn [String.append].
  - now rewrite string_app_nil.
  - now rewrite !string_rev_cons, IH, string_app_assoc.
Qed.

Lemma string_rev_involutive s : string_rev (string_rev s) = s.
Proof.
  induction s as [|c s IH]; auto.
  now rewrite string_rev_cons, string_rev_app, IH.
Qed.

Lemma all_chars_rev p s : all_chars p (string_rev s) = all_chars p s.
Proof.
  induction s as [|c s IH]; auto.
  rewrite string_rev_cons, all_chars_app, IH. simpl.
  now rewrite andb_true_r, andb_comm.
Qed.

Lemma lstrip_spaces sp t :
  all_chars isspace sp = true -> lstrip (sp ++ t) = lstrip t.
Proof.
  induction sp as [|c sp IH]; simpl; auto.
  intros H. apply andb_true_iff in H. destruct H as [-> H]. auto.
Qed.

Lemma lstrip_stops t : stops isspace t = true -> lstrip t = t.
Proof.
  destruct t as [|c t]; simpl; auto.
  intros H. apply negb_true_iff in H. now rewrite H.
Qed.

Lemma stops_not_all p s :
  all_chars (fun c => negb (p c)) s = true -> stops p s = true.
Proof.
  destruct s as [|c s]; simpl; auto. intros H. apply andb_true_iff in H. tauto.
Qed.

(** The name between spaces is what [strip] leaves. *)
Lemma strip_spaces sp1 name sp2 :
  all_chars isspace sp1 = true ->
  all_chars isspace sp2 = true ->
  all_chars (fun c => negb (isspace c)) name = true ->
  strip (sp1 ++ name ++ sp2) = name.
Proof.
  intros H1 H2 Hn. unfold strip, rstrip.
  rewrite (lstrip_spaces _ _ H1).
  assert (E : forall sp, all_chars isspace sp = true -> lstrip sp = EmptyString).
  { induction sp as [|d sp IH]; simpl; auto.
    intros H. apply andb_true_iff in H. destruct H as [-> H]. auto. }
  destruct name as [|c name].
  - cbn [String.append]. rewrite (E sp2 H2). reflexivity.
  - assert (Hl : lstrip (String c name ++ sp2) = (String c name ++ sp2)%string).
    { apply lstrip_stops. cbn [String.append stops].
      simpl in Hn. apply andb_true_iff in Hn. tauto. }
    rewrite Hl, string_rev_app.
    rewrite lstrip_spaces by now rewrite all_chars_rev.
    rewrite lstrip_stops, string_rev_involutive; auto.
    apply stops_not_all. now rewrite all_chars_rev.
Qed.

End TemplateFacts.

(** *** Secure rendering in the engine *)

Section RenderFacts.

Local Open Scope list_scope.

Lemma stops_name_char_after sp2 tail :
  all_chars isspace sp2 = true ->
  stops name_char (sp2 ++ "}}" ++ tail) = true.
Proof.
  destruct sp2 as [|d sp2]; [reflexivity|].
  cbn [all_chars String.append stops]. intros H.
  apply andb_true_iff in H. destruct H as [H _].
  now rewrite (space_not_name_char d H).
Qed.

(** The pattern of a variable matches a variable written between braces,
    with any spaces around the name, and leaves what follows. *)
Lemma match_variable sp1 c rest sp2 tail :
  all_chars isspace sp1 = true ->
  name_start c = true ->
  all_chars name_char rest = true ->
  all_chars isspace sp2 = true ->
  match_at variable_re ("{{" ++ sp1 ++ String c rest ++ sp2 ++ "}}" ++ tail)
  = Some tail.
Proof.
  intros H1 Hc Hr H2. unfold match_at, variable_re.
  cbn [seq]. rewrite rmatch_cat, rmatch_str_app, rmatch_cat.
  apply rmatch_star_class; auto.
  - cbn [String.append stops]. now rewrite (name_start_not_space c Hc).
  - cbv beta. cbn [String.append]. rewrite rmatch_cat, rmatch_chr.
    change (in_range 97 122 c || in_range 65 90 c || Ascii.eqb c "_"%char)
      with (name_start c).
    rewrite Hc, rmatch_cat.
    change (fun x : ascii =>
              in_range 97 122 x || in_range 65 90 x || in_range 48 57 x
              || Ascii.eqb x "."%char || Ascii.eqb x "_"%char)
      with name_char.
    apply rmatch_star_class; auto.
    + now apply stops_name_char_after.
    + cbv beta. rewrite rmatch_cat.
      apply rmatch_star_class; auto; apply (rmatch_str_app "}}" tail).
Qed.

Lemma match_variable_no_brace c s :
  Ascii.eqb c "{"%char = false -> match_at variable_re (String c s) = None.
Proof.
  intros H. unfold match_at, variable_re. cbn [seq str lit rmatch]. now rewrite H.
Qed.

(** Text without an opening brace is copied. *)
Lemma sub_loop_no_brace repl : forall pre fuel t,
  String.length pre <= fuel ->
  no_brace pre = true ->
  sub_loop fuel variable_re repl (pre ++ t)
  = (pre ++ sub_loop (fuel - String.length pre) variable_re repl t)%string.
Proof.
  induction pre as [|c pre IH]; intros fuel t Hlen Hnb.
  - cbn [String.append String.length]. now rewrite Nat.sub_0_r.
  - destruct fuel as [|fuel]; [simpl in Hlen; lia|].
    unfold no_brace in Hnb. cbn [all_chars] in Hnb.
    apply andb_true_iff in Hnb. destruct Hnb as [Hc Hnb].
    apply negb_true_iff in Hc.
    cbn [String.append sub_loop]. rewrite (match_variable_no_brace c _ Hc).
    f_equal. cbn [String.length]. rewrite IH; auto. simpl in Hlen. lia.
Qed.

Lemma sub_loop_all_no_brace repl fuel s :
  String.length s < fuel ->
  no_brace s = true ->
  sub_loop fuel variable_re repl s = s.
Proof.
  intros Hlen Hnb.
  rewrite <- (string_app_nil s) at 1.
  rewrite sub_loop_no_brace; auto; [|lia].
  destruct (fuel - String.length s) as [|f] eqn:E; [lia|].
  cbn [sub_loop]. now rewrite string_app_nil.
Qed.

Lemma variable_name_of sp1 name sp2 :
  all_chars isspace sp1 = true ->
  all_chars isspace sp2 = true ->
  all_chars (fun c => negb (isspace c)) name = true ->
  variable_name ("{{" ++ sp1 ++ name ++ sp2 ++ "}}") = name.
Proof.
  intros H1 H2 Hn. unfold variable_name.
  cbn [String.append drop]. cbn [String.length].
  replace (S (S (String.length (sp1 ++ name ++ sp2 ++ "}}"))) - 4)
    with (String.length (sp1 ++ name ++ sp2)).
  - replace (sp1 ++ name ++ sp2 ++ "}}")%string
      with ((sp1 ++ name ++ sp2) ++ "}}")%string
      by now rewrite !string_app_assoc.
    rewrite take_app_length. now apply strip_spaces.
  - rewrite !string_length_app. simpl. lia.
Qed.

Lemma variable_no_space name :
  variable name = true -> all_chars (fun c => negb (isspace c)) name = true.
Proof.
  destruct name as [|c rest]; [discriminate|].
  cbn [variable all_chars]. intros H. apply andb_true_iff in H.
  destruct H as [Hc Hr].
  rewrite (name_start_not_space c Hc). cbn [negb andb].
  revert Hr. apply all_chars_impl.
  intros d Hd. now rewrite (name_char_not_space d Hd).
Qed.

(** X3.  [_render_template_securely] copies text that has no opening brace, and
    replaces a variable written between double braces, with any spaces
    around the name, by the text of the value that the dotted name reaches in
    the context: by nothing when the value is [None], and by the variable as
    it was written when the name reaches nothing. *)
Theorem render_template_securely_variable context pre sp1 name sp2 post :
  no_brace pre = true ->
  all_chars isspace sp1 = true ->
  variable name = true ->
  all_chars isspace sp2 = true ->
  no_brace post = true ->
  _render_template_securely (pre ++ "{{" ++ sp1 ++ name ++ sp2 ++ "}}" ++ post)
    context
  = (pre
     ++ match get_path (JDict context) (split_char "." name) with
        | Some JNull => ""
        | Some value => py_str value
        | None => "{{" ++ sp1 ++ name ++ sp2 ++ "}}"
        end
     ++ post)%string.
Proof.
  intros Hpre H1 Hname H2 Hpost.
  pose proof (variable_no_space name Hname) as Hns.
  destruct name as [|c rest] eqn:En; [discriminate|].
  cbn [variable] in Hname. apply andb_true_iff in Hname.
  destruct Hname as [Hc Hr]. rewrite <- En in *.
  unfold _render_template_securely, sub_with.
  set (body := ("{{" ++ sp1 ++ name ++ sp2 ++ "}}")%string).
  assert (Hbody : forall tail,
             ("{{" ++ sp1 ++ name ++ sp2 ++ "}}" ++ tail)%string
             = (body ++ tail)%string).
  { intros tail. unfold body. cbn [String.append].
    now rewrite !string_app_assoc. }
  rewrite Hbody.
  rewrite sub_loop_no_brace; auto;
    [|rewrite string_length_app; lia].
  f_equal.
  assert (Hfuel : S (String.length (pre ++ body ++ post)) - String.length pre
                  = S (String.length (body ++ post)))
    by (rewrite !string_length_app; lia).
  rewrite Hfuel.
  assert (Hm : match_at variable_re (body ++ post) = Some post).
  { rewrite <- Hbody, En. apply match_variable; auto. }
  assert (Hlt : String.length post < String.length (body ++ post)).
  { rewrite string_length_app. unfold body. simpl. lia. }
  rewrite (sub_loop_match _ _ _ _ post Hm Hlt).
  assert (Htake : take (String.length (body ++ post) - String.length post)
                    (body ++ post) = body).
  { replace (String.length (body ++ post) - String.length post)
      with (String.length body) by (rewrite string_length_app; lia).
    apply take_app_length. }
  rewrite Htake.
  rewrite sub_loop_all_no_brace by (auto; lia).
  f_equal. unfold replace_var, body.
  rewrite variable_name_of; auto.
Qed.

Lemma render_template_securely_variable_witness :
  _render_template_securely "echo {{ inputs.name }}!" sample_context
  = "echo World!"%string.
Proof.
  apply (render_template_securely_variable sample_context
           "echo " " " "inputs.name" " " "!"); reflexivity.
Defined.

(** *** The fallback of the parser, on a variable *)

Lemma search_no_brace s : no_brace s = true -> search variable_re s = None.
Proof.
  induction s as [|c s IH]; intros H; [reflexivity|].
  unfold no_brace in H. cbn [all_chars] in H.
  apply andb_true_iff in H. destruct H as [Hc H]. apply negb_true_iff in Hc.
  cbn [search]. rewrite (match_variable_no_brace c s Hc).
  now rewrite (IH H).
Qed.

Lemma search_after_no_brace t rest : forall pre,
  no_brace pre = true ->
  match_at variable_re t = Some rest ->
  search variable_re (pre ++ t)
  = Some (pre, take (String.length t - String.length rest) t, rest).
Proof.
  intros pre Hpre Hm. induction pre as [|c pre IH].
  - cbn [String.append]. destruct t as [|b t]; cbn [search]; now rewrite Hm.
  - unfold no_brace in Hpre. cbn [all_chars] in Hpre.
    apply andb_true_iff in Hpre. destruct Hpre as [Hc Hpre].
    apply negb_true_iff in Hc.
    cbn [String.append search]. rewrite (match_variable_no_brace c _ Hc).
    now rewrite (IH Hpre).
Qed.

Lemma startswith_brace_no_brace old s c :
  Ascii.eqb c "{"%char = false -> startswith (String "{" old) (String c s) = false.
Proof.
  intros H. cbn [startswith]. rewrite Ascii.eqb_sym, H. reflexivity.
Qed.

Lemma contains_brace_no_brace old s :
  no_brace s = true -> contains (String "{" old) s = false.
Proof.
  induction s as [|c s IH]; intros H; [reflexivity|].
  unfold no_brace in H. cbn [all_chars] in H.
  apply andb_true_iff in H. destruct H as [Hc H]. apply negb_true_iff in Hc.
  cbn [contains]. rewrite (IH H), orb_false_r.
  now apply startswith_brace_no_brace.
Qed.

Lemma replace_loop_no_brace old new : forall pre fuel t,
  String.length pre <= fuel ->
  no_brace pre = true ->
  replace_loop fuel (String "{" old) new (pre ++ t)
  = (pre ++ replace_loop (fuel - String.length pre) (String "{" old) new t)%string.
Proof.
  induction pre as [|c pre IH]; intros fuel t Hlen Hnb.
  - cbn [String.append String.length]. now rewrite Nat.sub_0_r.
  - destruct fuel as [|fuel]; [simpl in Hlen; lia|].
    unfold no_brace in Hnb. cbn [all_chars] in Hnb.
    apply andb_true_iff in Hnb. destruct Hnb as [Hc Hnb].
    apply negb_true_iff in Hc.
    cbn [String.append replace_loop].
    rewrite (startswith_brace_no_brace old _ c Hc).
    f_equal. cbn [String.length]. rewrite IH; auto. simpl in Hlen. lia.
Qed.

Lemma replace_one old new pre post :
  no_brace pre = true ->
  no_brace post = true ->
  replace (String "{" old) new (pre ++ String "{" old ++ post)
  = (pre ++ new ++ post)%string.
Proof.
  intros Hpre Hpost. unfold replace.
  rewrite replace_loop_no_brace; auto; [|rewrite string_length_app; lia].
  f_equal.
  destruct (S (String.length (pre ++ String "{" old ++ post)) - String.length pre)
    as [|f] eqn:E; [rewrite string_length_app in E; lia|].
  cbn [replace_loop]. rewrite startswith_app, drop_app_length.
  f_equal. apply replace_loop_absent. now apply contains_brace_no_brace.
Qed.

(** X4.  [_simple_render] replaces a variable written with one space on each side
    of its name by the text of the value that the dotted name reaches in the
    context, and leaves it as it is when the name reaches nothing or
    [None]. *)
Theorem simple_render_variable context pre name post :
  no_brace pre = true ->
  variable name = true ->
  no_brace post = true ->
  _simple_render (pre ++ "{{ " ++ name ++ " }}" ++ post) context
  = (pre
     ++ match get_path context (split_char "." name) with
        | Some JNull | None => "{{ " ++ name ++ " }}"
        | Some value => py_str value
        end
     ++ post)%string.
Proof.
  intros Hpre Hname Hpost.
  pose proof (variable_no_space name Hname) as Hns.
  set (body := ("{{ " ++ name ++ " }}")%string).
  assert (Hbody : forall tail,
             ("{{ " ++ name ++ " }}" ++ tail)%string = (body ++ tail)%string).
  { intros tail. unfold body. cbn [String.append].
    now rewrite !string_app_assoc. }
  rewrite Hbody.
  assert (Hm : match_at variable_re (body ++ post) = Some post).
  { rewrite <- Hbody. destruct name as [|c rest]; [discriminate|].
    cbn [variable] in Hname. apply andb_true_iff in Hname.
    apply (match_variable " " c rest " " post); tauto. }
  assert (Hnames : findall_variables (String.length (pre ++ body ++ post))
                     (pre ++ body ++ post) = [name]).
  { destruct (String.length (pre ++ body ++ post)) as [|f] eqn:E.
    - rewrite !string_length_app in E. unfold body in E. simpl in E. lia.
    - cbn [findall_variables].
      rewrite (search_after_no_brace _ post pre Hpre Hm).
      replace (String.length (body ++ post) - String.length post)
        with (String.length body) by (rewrite string_length_app; lia).
      rewrite take_app_length. f_equal.
      + apply (variable_name_of " " name " "); auto.
      + destruct f; cbn [findall_variables]; auto.
        now rewrite (search_no_brace post Hpost). }
  unfold _simple_render. rewrite Hnames. cbn [fold_left].
  unfold _get_nested_value.
  assert (Hrep : forall v,
             replace ("{{ " ++ name ++ " }}") v (pre ++ body ++ post)
             = (pre ++ v ++ post)%string).
  { intros v. exact (replace_one ("{ " ++ name ++ " }}") v pre post Hpre Hpost). }
  destruct (get_path context (split_char "." name)) as [[]|]; cbn [get_or];
    rewrite ?Hrep; reflexivity.
Qed.

Lemma simple_render_variable_witness :
  _simple_render "Hello {{ user.name }}!"
    (JDict [("user"%string, JDict [("name"%string, JStr "World")])])
  = "Hello World!"%string.
Proof.
  apply (simple_render_variable
           (JDict [("user"%string, JDict [("name"%string, JStr "World")])])
           "Hello " "user.name" "!"); reflexivity.
Defined.

End RenderFacts.

(** ** More about parsing *)

Section DependencyFacts.

Local Open Scope list_scope.

Lemma add_dependencies_cases step_ids sid deps : forall acc,
  (exists r, add_dependencies step_ids sid deps acc = Return r
             /\ forall d, In d deps -> In d step_ids)
  \/ (exists d, In d deps /\ ~ In d step_ids
                /\ add_dependencies step_ids sid deps acc
                   = Raise (WorkflowValidationError
                              ("Step " ++ sid ++ " depends on unknown step: " ++ d))).
Proof.
  induction deps as [|x deps IH]; intros acc; cbn [add_dependencies].
  - left. exists acc. split; [reflexivity | intros d []].
  - destruct (mem x step_ids) eqn:E; cbn [negb].
    + apply mem_In in E.
      destruct (IH (set_add acc x)) as [(r & Hr & Hk)|(d & Hd & Hno & Hr)].
      * left. exists r. split; auto. intros d [<-|Hd]; auto.
      * right. exists d. simpl. auto.
    + apply mem_false_iff in E. right. exists x. simpl. auto.
Qed.

Lemma build_graph_loop_cases step_ids ss : forall graph,
  (exists g, build_graph_loop step_ids ss graph = Return g
             /\ forall s d, In s ss -> In d (depends_on s) -> In d step_ids)
  \/ (exists s d, In s ss /\ In d (depends_on s) /\ ~ In d step_ids
                  /\ build_graph_loop step_ids ss graph
                     = Raise (WorkflowValidationError
                                ("Step " ++ step_id s
                                 ++ " depends on unknown step: " ++ d))).
Proof.
  induction ss as [|s ss IH]; intros graph; cbn [build_graph_loop].
  - left. exists graph. split; [reflexivity | intros s d []].
  - destruct (add_dependencies_cases step_ids (step_id s) (depends_on s) [])
      as [(r & -> & Hk)|(d & Hd & Hno & ->)].
    + destruct (IH (dict_set graph (step_id s) r))
        as [(g & Hg & Hall)|(s' & d & Hs' & Hd & Hno & Hr)].
      * left. exists g. split; auto. intros s' d [<-|Hs'] Hd; eauto.
      * right. exists s', d. simpl. auto.
    + right. exists s, d. simpl. auto.
Qed.

(** X5.  When a step names a dependency that is the id of no step of the
    workflow, [parse_workflow_data] raises [WorkflowValidationError] with a
    message that names a step and a dependency of it that is no step id. *)
Theorem unknown_dependency_rejected schema data ss s d :
  match schema with Some validate => validate data | None => None end = None ->
  truthy_str (data_name data) = true ->
  truthy_str (data_version data) = true ->
  mapM _parse_step (get_or (data_steps data) []) = Return ss ->
  In s ss ->
  In d (depends_on s) ->
  ~ In d (map step_id ss) ->
  exists s' d',
    In s' ss /\ In d' (depends_on s') /\ ~ In d' (map step_id ss)
    /\ parse_workflow_data schema data
       = Raise (WorkflowValidationError
                  ("Step " ++ step_id s' ++ " depends on unknown step: " ++ d')).
Proof.
  intros Hschema Hname Hversion Hparse Hs Hd Hno.
  destruct (build_graph_loop_cases (set_of_list (map step_id ss)) ss [])
    as [(g & _ & Hall)|(s' & d' & Hs' & Hd' & Hno' & Hr)].
  - exfalso. apply Hno. apply set_of_list_In. eauto.
  - exists s', d'. split; [exact Hs'|]. split; [exact Hd'|].
    split; [now rewrite <- set_of_list_In|].
    unfold parse_workflow_data. rewrite Hschema, Hname, Hversion. cbn [negb].
    destruct (get_or (data_steps data) []) as [|r raws] eqn:E.
    + cbn [mapM] in Hparse. injection Hparse as <-. destruct Hs.
    + rewrite Hparse. cbn [bind]. unfold _build_dependency_graph.
      rewrite Hr. reflexivity.
Qed.

Lemma unknown_dependency_rejected_witness :
  exists s' d',
    In s' (parsed_steps scenario_unknown_dependency)
    /\ In d' (depends_on s')
    /\ ~ In d' (map step_id (parsed_steps scenario_unknown_dependency))
    /\ parse_workflow_data None scenario_unknown_dependency
       = Raise (WorkflowValidationError
                  ("Step " ++ step_id s' ++ " depends on unknown step: " ++ d')).
Proof.
  apply (unknown_dependency_rejected None scenario_unknown_dependency
           (parsed_steps scenario_unknown_dependency)
           (set_shell (base_step (raw_shell "B" ["ghost"] "echo b") "B" "shell")
              (raw_shell "B" ["ghost"] "echo b"))
           "ghost"); try reflexivity.
  - simpl. auto.
  - simpl. auto.
  - simpl. intuition discriminate.
Defined.

End DependencyFacts.

Section ParsedFacts.

Local Open Scope list_scope.

Lemma parsed_order_spec schema data wf :
  parse_workflow_data schema data = Return wf ->
  wf_graph (step_dependency_graph wf)
  /\ (forall k, In k (dict_keys (step_dependency_graph wf))
                <-> In k (map step_id (steps wf)))
  /\ _build_dependency_graph (steps wf) = Return (step_dependency_graph wf)
  /\ exists d,
       kahn_inv (step_dependency_graph wf) d [] (execution_order wf)
       /\ length (execution_order wf) = length (steps wf).
Proof.
  intros Hp.
  destruct (parse_workflow_data_inv schema data wf Hp) as [Hreach Hord].
  destruct Hreach as (_ & _ & _ & _ & _ & Hb).
  destruct (build_dependency_graph_spec (steps wf))
    as [(msg & Hr)|(g & Hg & Hwf & Hk)]; [congruence|].
  assert (g = step_dependency_graph wf) by congruence. subst g.
  destruct (compute_execution_order_spec (steps wf) _ Hwf)
    as (order & d & Hinv & Heq).
  rewrite Heq in Hord.
  destruct (length order =? length (steps wf))%nat eqn:E; [|discriminate].
  injection Hord as <-. apply Nat.eqb_eq in E.
  split; [exact Hwf|]. split; [exact Hk|]. split; [exact Hg|].
  exists d. split; auto.
Qed.

Lemma parsed_ids_NoDup schema data wf :
  parse_workflow_data schema data = Return wf ->
  NoDup (map step_id (steps wf)).
Proof.
  intros Hp.
  destruct (parsed_order_spec schema data wf Hp) as (Hwf & Hk & _ & d & Hinv & Hlen).
  apply NoDup_incl_NoDup with (l := execution_order wf).
  - exact (kahn_order_NoDup _ d _ Hinv).
  - rewrite length_map. lia.
  - intros k Hin. apply Hk. exact (kahn_order_keys _ d _ Hinv k Hin).
Qed.

(** X7.  What holds of every definition that [parse_workflow_data] returns: the
    step ids are distinct, [execution_order] lists each of them once, every
    dependency of a step is the id of a step and comes before the step in
    the order, and the dependency graph has no cycle. *)
Theorem parsed_workflow_sound schema data wf :
  parse_workflow_data schema data = Return wf ->
  steps wf <> []
  /\ NoDup (map step_id (steps wf))
  /\ Permutation (execution_order wf) (map step_id (steps wf))
  /\ (forall s d, In s (steps wf) -> In d (depends_on s) ->
        In d (map step_id (steps wf))
        /\ appears_after (execution_order wf) (step_id s) d)
  /\ acyclic (step_dependency_graph wf).
Proof.
  intros Hp.
  pose proof (parsed_ids_NoDup schema data wf Hp) as Hnd.
  destruct (parsed_order_spec schema data wf Hp) as (Hwf & Hk & Hb & d & Hinv & Hlen).
  pose proof (kahn_order_NoDup _ d _ Hinv) as Hndo.
  pose proof (kahn_order_keys _ d _ Hinv) as Hsub.
  assert (Hincl : incl (map step_id (steps wf)) (execution_order wf)).
  { apply NoDup_length_incl; auto.
    - rewrite length_map. lia.
    - intros k Hin. apply Hk. auto. }
  split.
  { destruct (parse_workflow_data_inv schema data wf Hp) as [Hreach _].
    destruct Hreach as (_ & _ & _ & Hne & Hparse & _).
    intros E. rewrite E in Hparse.
    destruct (get_or (data_steps data) []) as [|r raws]; [congruence|].
    cbn [mapM] in Hparse. destruct (_parse_step r); try discriminate.
    destruct (mapM _parse_step raws); discriminate. }
  split; [exact Hnd|].
  split; [apply NoDup_Permutation; auto; intros k; split; auto;
          intros Hin; apply Hk; auto|].
  split.
  - intros s x Hs Hx.
    destruct (build_dependency_graph_lookup _ _ Hb Hnd s Hs) as (deps & Hget & Hin).
    assert (Hedge : edge (step_dependency_graph wf) (step_id s) x)
      by (exists deps; split; auto; now apply Hin).
    assert (Hso : In (step_id s) (execution_order wf))
      by (apply Hincl; now apply in_map).
    destruct (kahn_order_edge _ d _ Hinv _ _ Hso Hedge) as [Hxo Hlt].
    split; [apply Hk, Hsub, Hxo|]. split; [exact Hso | split; [exact Hxo | exact Hlt]].
  - exact (parsed_workflow_acyclic schema data wf Hp).
Qed.

Lemma parsed_workflow_sound_witness :
  exists wf,
    parse_workflow_data None scenario_B = Return wf
    /\ steps wf <> []
    /\ NoDup (map step_id (steps wf))
    /\ Permutation (execution_order wf) (map step_id (steps wf))
    /\ (forall s d, In s (steps wf) -> In d (depends_on s) ->
          In d (map step_id (steps wf))
          /\ appears_after (execution_order wf) (step_id s) d)
    /\ acyclic (step_dependency_graph wf).
Proof.
  destruct (parse_workflow_data None scenario_B) as [wf| |] eqn:E;
    try (vm_compute in E; discriminate).
  exists wf. split; [reflexivity|].
  exact (parsed_workflow_sound None scenario_B wf E).
Defined.

End ParsedFacts.

Section StepFacts.

Local Open Scope list_scope.

Lemma truthy_str_get o : truthy_str o = true -> String.eqb (get_or o "") "" = false.
Proof.
  destruct o as [s|]; cbn [truthy_str get_or]; [|discriminate].
  intros H. now apply negb_true_iff in H.
Qed.

Lemma mapM_Forall {A B : Type} (f : A -> outcome B) (Q : B -> Prop) l : forall ys,
  Forall (fun x => forall y, f x = Return y -> Q y) l ->
  mapM f l = Return ys -> Forall Q ys.
Proof.
  induction l as [|x l IH]; intros ys Hall; cbn [mapM].
  - intros [= <-]. constructor.
  - inversion Hall as [|? ? Hx Hl]; subst.
    destruct (f x) as [y| |] eqn:Ex; try discriminate.
    destruct (mapM f l) as [ys'| |] eqn:El; try discriminate.
    intros [= <-]. constructor; auto.
Qed.

Lemma parse_step_well_formed r : forall s,
  _parse_step r = Return s -> well_formed_step s = true.
Proof.
  induction r as [r Hthen Helse] using RawStep_nested_ind.
  destruct r as [rid rty ? ? ? ? ? ? ? ? ? ? ? ? ? ? ? ? ? ? ? ? ? ? ? ? ? ? ? ? thens elses].
  cbn [raw_then_steps raw_else_steps] in Hthen, Helse.
  intros s.
  cbn -[String.eqb base_step set_shell set_claude_code set_assert set_template
        set_webhook set_conditional].
  destruct (truthy_str rid) eqn:Hid; cbn [negb]; [|discriminate].
  destruct (truthy_str rty) eqn:Hty; cbn [negb]; [|discriminate].
  pose proof (truthy_str_get _ Hid) as Hid'.
  pose proof (truthy_str_get _ Hty) as Hty'.
  match goal with
  | |- context [match thens with Some l => ?f l | None => _ end] =>
      assert (Hall : forall l ys,
                 Forall (fun x => forall y, _parse_step x = Return y ->
                                            well_formed_step y = true) l ->
                 f l = Return ys -> forallb well_formed_step ys = true)
  end.
  { induction l as [|x l IH]; intros ys Hl.
    - intros [= <-]. reflexivity.
    - inversion Hl as [|? ? Hx Hl']; subst.
      destruct (_parse_step x) as [y| |] eqn:Ex; try discriminate.
      match goal with
      | |- match ?m with _ => _ end = _ -> _ => destruct m as [ys'| |] eqn:El
      end; try discriminate.
      intros [= <-]. cbn [forallb]. rewrite (Hx y eq_refl), (IH ys' Hl' eq_refl).
      reflexivity. }
  destruct (String.eqb (get_or rty "") "shell") eqn:E1.
  { destruct (truthy_str raw_command0) eqn:Hc; cbn [negb]; [|discriminate].
    intros [= <-]. cbn -[String.eqb].
    now rewrite Hid', Hty', E1, Hc. }
  destruct (String.eqb (get_or rty "") "claude_code") eqn:E2.
  { destruct (truthy_str raw_prompt0) eqn:Hc; cbn [negb]; [|discriminate].
    intros [= <-]. cbn -[String.eqb].
    now rewrite Hid', Hty', E1, E2, Hc. }
  destruct (String.eqb (get_or rty "") "assert") eqn:E3.
  { destruct (truthy_str raw_condition0) eqn:Hc; cbn [negb]; [|discriminate].
    intros [= <-]. cbn -[String.eqb].
    now rewrite Hid', Hty', E1, E2, E3, Hc. }
  destruct (String.eqb (get_or rty "") "template") eqn:E4.
  { destruct (truthy_str raw_template0) eqn:Hc; cbn [negb orb]; [|discriminate].
    destruct (truthy_str raw_output0) eqn:Ho; cbn [negb]; [|discriminate].
    intros [= <-]. cbn -[String.eqb].
    now rewrite Hid', Hty', E1, E2, E3, E4, Hc, Ho. }
  destruct (String.eqb (get_or rty "") "webhook") eqn:E5.
  { destruct (truthy_str raw_url0) eqn:Hc; cbn [negb]; [|discriminate].
    intros [= <-]. cbn -[String.eqb].
    now rewrite Hid', Hty', E1, E2, E3, E4, E5, Hc. }
  destruct (String.eqb (get_or rty "") "conditional") eqn:E6.
  { destruct (truthy_str raw_condition0) eqn:Hc; cbn [negb]; [|discriminate].
    destruct thens as [thens|]; cbv beta iota.
    - match goal with
      | |- match ?m with _ => _ end = _ -> _ => destruct m as [ts| |] eqn:Et
      end; try discriminate.
      pose proof (Hall thens ts (Hthen _ eq_refl) Et) as Hts.
      destruct elses as [elses|]; cbv beta iota.
      + match goal with
        | |- match ?m with _ => _ end = _ -> _ => destruct m as [es| |] eqn:Ee
        end; try discriminate.
        pose proof (Hall elses es (Helse _ eq_refl) Ee) as Hes.
        intros [= <-]. cbn -[String.eqb forallb].
        now rewrite Hid', Hty', E1, E2, E3, E4, E5, E6, Hc, Hts, Hes.
      + intros [= <-]. cbn -[String.eqb forallb].
        now rewrite Hid', Hty', E1, E2, E3, E4, E5, E6, Hc, Hts.
    - destruct elses as [elses|]; cbv beta iota.
      + match goal with
        | |- match ?m with _ => _ end = _ -> _ => destruct m as [es| |] eqn:Ee
        end; try discriminate.
        pose proof (Hall elses es (Helse _ eq_refl) Ee) as Hes.
        intros [= <-]. cbn -[String.eqb forallb].
        now rewrite Hid', Hty', E1, E2, E3, E4, E5, E6, Hc, Hes.
      + intros [= <-]. cbn -[String.eqb forallb].
        now rewrite Hid', Hty', E1, E2, E3, E4, E5, E6, Hc. }
  intros [= <-]. cbn -[String.eqb].
  now rewrite Hid', Hty', E1, E2, E3, E4, E5, E6.
Qed.

End StepFacts.

Section ValidateFacts.

Local Open Scope list_scope.

(** X8.  Every step of a definition that [parse_workflow_data] returns, and every
    step nested in a conditional step, has an id and a type that are not
    empty and the field that its type requires: the command of a shell step,
    the prompt of a claude_code step, the condition of an assert or
    conditional step, template and output of a template step, the url of a
    webhook step. *)
Theorem parsed_steps_well_formed schema data wf :
  parse_workflow_data schema data = Return wf ->
  forallb well_formed_step (steps wf) = true.
Proof.
  intros Hp.
  destruct (parse_workflow_data_inv schema data wf Hp) as [Hreach _].
  destruct Hreach as (_ & _ & _ & _ & Hparse & _).
  apply forallb_forall. apply Forall_forall.
  apply (mapM_Forall _parse_step (fun s => well_formed_step s = true)
           (get_or (data_steps data) [])); auto.
  apply Forall_forall. intros r _. apply parse_step_well_formed.
Qed.

Lemma parsed_steps_well_formed_witness :
  exists wf,
    parse_workflow_data None scenario_conditional = Return wf
    /\ forallb well_formed_step (steps wf) = true.
Proof.
  destruct (parse_workflow_data None scenario_conditional) as [wf| |] eqn:E;
    try (vm_compute in E; discriminate).
  exists wf. split; [reflexivity|].
  exact (parsed_steps_well_formed None scenario_conditional wf E).
Defined.

Lemma fold_set_add_fresh l : forall acc,
  NoDup (acc ++ l) -> fold_left set_add l acc = acc ++ l.
Proof.
  induction l as [|x l IH]; intros acc H; cbn [fold_left].
  - now rewrite app_nil_r.
  - assert (Hx : mem x acc = false).
    { apply mem_false_iff. intros Hin.
      apply NoDup_remove_2 in H. apply H. apply in_or_app. auto. }
    unfold set_add at 2. rewrite Hx.
    replace (acc ++ x :: l) with ((acc ++ [x]) ++ l)
      by (rewrite <- app_assoc; reflexivity).
    apply IH. now rewrite <- app_assoc.
Qed.

(** [len(step_ids) != len(set(step_ids))] tells whether an id occurs twice. *)
Lemma set_of_list_length l :
  length (set_of_list l) = length l <-> NoDup l.
Proof.
  split.
  - intros Hlen. apply NoDup_incl_NoDup with (l := set_of_list l).
    + unfold set_of_list. apply fold_set_add_NoDup. constructor.
    + lia.
    + intros x Hx. now apply set_of_list_In.
  - intros Hnd. unfold set_of_list. now rewrite (fold_set_add_fresh l []).
Qed.

Lemma output_issues_shape step_ids outs x :
  In x (output_issues step_ids outs) -> exists rest, x = ("Output " ++ rest)%string.
Proof.
  unfold output_issues. rewrite in_flat_map. intros (kv & _ & H).
  destruct (truthy_str (from_step (snd kv))); [|destruct H].
  destruct (split_char "." (get_or (from_step (snd kv)) "")) as [|sid [|p rest]];
    try destruct H.
  destruct (negb (mem sid step_ids)); [|destruct H].
  destruct H as [<-|[]]. eexists. reflexivity.
Qed.

Lemma input_issues_shape step_ids step x :
  In x (input_issues step_ids step) -> exists rest, x = ("Step " ++ rest)%string.
Proof.
  unfold input_issues. rewrite in_flat_map. intros (kv & _ & H).
  destruct (snd kv); try destruct H.
  match type of H with
  | In _ (if ?c then _ else _) => destruct c; [|destruct H]
  end.
  destruct (referenced_step s) as [ref|]; [|destruct H].
  destruct (negb (mem ref step_ids)); [|destruct H].
  destruct H as [<-|[]]. eexists. reflexivity.
Qed.

(** X9.  [validate_workflow] reports duplicate step ids exactly when an id occurs
    twice among the steps it is given; on a definition that
    [parse_workflow_data] has returned it never does. *)
Theorem duplicate_step_ids_reported workflow :
  (In "Duplicate step IDs found"%string (validate_workflow workflow)
   <-> ~ NoDup (map step_id (steps workflow)))
  /\ forall schema data,
       parse_workflow_data schema data = Return workflow ->
       ~ In "Duplicate step IDs found"%string (validate_workflow workflow).
Proof.
  assert (Hiff : In "Duplicate step IDs found"%string (validate_workflow workflow)
                 <-> ~ NoDup (map step_id (steps workflow))).
  { unfold validate_workflow.
    set (step_ids := map step_id (steps workflow)).
    destruct (length step_ids =? length (set_of_list step_ids))%nat eqn:E;
      cbn [negb].
    - apply Nat.eqb_eq in E. symmetry in E. apply set_of_list_length in E.
      split; [|tauto]. cbn [app]. rewrite in_app_iff. intros [H|H].
      + apply output_issues_shape in H. destruct H as (rest & H). discriminate.
      + apply in_flat_map in H. destruct H as (s & _ & H).
        apply input_issues_shape in H. destruct H as (rest & H). discriminate.
    - apply Nat.eqb_neq in E. split; [|intros _; left; reflexivity].
      intros _ Hnd. apply E. symmetry. now apply set_of_list_length. }
  split; [exact Hiff|].
  intros schema data Hp H. apply Hiff in H. apply H.
  exact (parsed_ids_NoDup schema data workflow Hp).
Qed.

End ValidateFacts.

(** ** Nested values *)

Section ValueFacts.

Local Open Scope list_scope.

Lemma extract_loop_get_path parts : forall value,
  extract_loop parts value = get_or (get_path value parts) JNull.
Proof.
  induction parts as [|part parts IH]; intros value; cbn [extract_loop get_path].
  - reflexivity.
  - destruct value; try reflexivity.
    unfold dict_get_default. destruct (dict_get d part) as [v|]; [apply IH|].
    cbn [get_or]. now destruct parts.
Qed.

(** X10.  [_extract_output_value] of the engine and [_get_nested_value] of the
    parser's template engine are the same function of the dotted reference
    and the context: the value that the reference reaches, and [None] when a
    key is missing or a value on the way is no dictionary. *)
Theorem extract_output_value_nested reference context :
  _extract_output_value reference context
  = _get_nested_value (JDict context) reference.
Proof. apply extract_loop_get_path. Qed.

(** *** [_clean_dict] *)

Lemma dict_set_fresh {V : Type} (d : dict V) k v :
  ~ In k (dict_keys d) -> dict_set d k v = d ++ [(k, v)].
Proof.
  induction d as [|[k0 v0] d IH]; simpl; intros H; auto.
  destruct (String.eqb k k0) eqn:E.
  - apply String.eqb_eq in E. subst. tauto.
  - f_equal. apply IH. tauto.
Qed.

Lemma dict_set_Forall {V : Type} (Q : V -> Prop) (d : dict V) k v :
  Forall (fun kv => Q (snd kv)) d -> Q v ->
  Forall (fun kv => Q (snd kv)) (dict_set d k v).
Proof.
  induction d as [|[k0 v0] d IH]; simpl; intros Hd Hv.
  - repeat constructor. exact Hv.
  - inversion Hd as [|? ? H0 Hd']; subst.
    destruct (String.eqb k k0); constructor; auto.
Qed.

Lemma NoDup_distinct l : NoDup l -> distinct l = true.
Proof.
  induction 1 as [|x l Hx _ IH]; cbn [distinct]; auto.
  apply mem_false_iff in Hx. now rewrite Hx, IH.
Qed.

Lemma clean_dict_not_None v : is_None v = false -> is_None (_clean_dict v) = false.
Proof. destruct v; auto. Qed.

(** The loop of [_clean_dict] over the items of a dictionary. *)
Lemma clean_fold_spec (Q : json -> Prop) d : forall acc,
  Forall (fun kv => is_None (snd kv) = false ->
                    kept (_clean_dict (snd kv)) = true ->
                    Q (_clean_dict (snd kv))) d ->
  Forall (fun kv => Q (snd kv)) acc ->
  NoDup (dict_keys acc) ->
  let r :=
    fold_left
      (fun cleaned kv =>
         if is_None (snd kv) then cleaned
         else if kept (_clean_dict (snd kv))
              then dict_set cleaned (fst kv) (_clean_dict (snd kv))
              else cleaned)
      d acc in
  Forall (fun kv => Q (snd kv)) r /\ NoDup (dict_keys r).
Proof.
  induction d as [|kv d IH]; intros acc Hd Hacc Hnd; cbn [fold_left].
  - auto.
  - inversion Hd as [|? ? Hkv Hd']; subst.
    destruct (is_None (snd kv)) eqn:En; [now apply IH|].
    destruct (kept (_clean_dict (snd kv))) eqn:Ek; [|now apply IH].
    apply IH; auto.
    + apply dict_set_Forall; auto.
    + now apply dict_keys_set_NoDup.
Qed.

Lemma clean_dict_cleaned v :
  cleaned (_clean_dict v) = true /\ distinct_keys (_clean_dict v) = true.
Proof.
  induction v as [| | | | |l IH|d IH] using json_nested_ind; try (split; reflexivity).
  - cbn [_clean_dict cleaned distinct_keys].
    induction IH as [|x l [Hx1 Hx2] _ [IH1 IH2]]; [split; reflexivity|].
    cbn [flat_map]. destruct (is_None x) eqn:En; [auto|].
    cbn [app forallb]. rewrite (clean_dict_not_None x En), Hx1, Hx2.
    cbn [negb andb]. auto.
  - cbn [_clean_dict cleaned distinct_keys].
    destruct (clean_fold_spec
                (fun w => is_None w = false /\ kept w = true
                          /\ cleaned w = true /\ distinct_keys w = true)
                d [])
      as [Hall Hnd].
    + clear -IH. induction IH as [|kv d [H1 H2] _ IHd]; constructor; auto.
      intros En Ek. split; [now apply clean_dict_not_None|]. auto.
    + constructor.
    + constructor.
    + rewrite Forall_forall in Hall. split.
      * apply forallb_forall. intros kv Hkv.
        destruct (Hall kv Hkv) as (-> & -> & -> & _). reflexivity.
      * apply andb_true_iff. split; [now apply NoDup_distinct|].
        apply forallb_forall. intros kv Hkv.
        now destruct (Hall kv Hkv) as (_ & _ & _ & ->).
Qed.

Lemma clean_fold_id d : forall acc,
  Forall (fun kv => is_None (snd kv) = false /\ kept (snd kv) = true
                    /\ _clean_dict (snd kv) = snd kv) d ->
  NoDup (dict_keys acc ++ dict_keys d) ->
  fold_left
    (fun cleaned kv =>
       if is_None (snd kv) then cleaned
       else if kept (_clean_dict (snd kv))
            then dict_set cleaned (fst kv) (_clean_dict (snd kv))
            else cleaned)
    d acc
  = acc ++ d.
Proof.
  induction d as [|[k v] d IH]; intros acc Hd Hnd; cbn [fold_left].
  - now rewrite app_nil_r.
  - inversion Hd as [|? ? (Hn & Hk & Hc) Hd']; subst.
    cbn [fst snd] in *. rewrite Hn, Hc, Hk.
    rewrite dict_set_fresh.
    + rewrite IH; auto.
      * now rewrite <- app_assoc.
      * unfold dict_keys in *. rewrite map_app, <- app_assoc. exact Hnd.
    + intros Hin. apply NoDup_remove_2 in Hnd. apply Hnd.
      apply in_or_app. auto.
Qed.

Lemma clean_dict_fixed v :
  cleaned v = true -> distinct_keys v = true -> _clean_dict v = v.
Proof.
  induction v as [| | | | |l IH|d IH] using json_nested_ind; auto.
  - cbn [cleaned distinct_keys _clean_dict]. intros Hc Hd. f_equal.
    induction IH as [|x l Hx _ IHl]; [reflexivity|].
    cbn [forallb] in Hc, Hd.
    apply andb_true_iff in Hc. destruct Hc as [Hc Hcl].
    apply andb_true_iff in Hc. destruct Hc as [Hn Hc].
    apply andb_true_iff in Hd. destruct Hd as [Hd Hdl].
    apply negb_true_iff in Hn.
    cbn [flat_map]. rewrite Hn, (Hx Hc Hd), (IHl Hcl Hdl). reflexivity.
  - cbn [cleaned distinct_keys _clean_dict]. intros Hc Hd. f_equal.
    apply andb_true_iff in Hd. destruct Hd as [Hk Hd].
    apply (clean_fold_id d []).
    + rewrite forallb_forall in Hc, Hd. rewrite Forall_forall in IH |- *.
      intros kv Hkv. specialize (Hc kv Hkv). specialize (Hd kv Hkv).
      apply andb_true_iff in Hc. destruct Hc as [Hc Hcl].
      apply andb_true_iff in Hc. destruct Hc as [Hn Hkept].
      apply negb_true_iff in Hn. auto.
    + cbn [dict_keys map app]. now apply distinct_NoDup.
Qed.

(** X11.  [_clean_dict] leaves no entry of a dictionary that is [None], an empty
    text or an empty collection, at any depth, and no item of a list that is
    [None]; cleaning a second time changes nothing. *)
Theorem clean_dict_idempotent obj :
  cleaned (_clean_dict obj) = true
  /\ _clean_dict (_clean_dict obj) = _clean_dict obj.
Proof.
  destruct (clean_dict_cleaned obj) as [Hc Hd].
  split; [exact Hc | now apply clean_dict_fixed].
Qed.

(** *** [_render_dict_templates] *)

(** X12.  [_render_dict_templates] returns the value it is given when no text in
    the value, at any depth, has both an opening and a closing pair of
    braces: the template engine is then never called. *)
Theorem render_dict_templates_plain jinja2 obj context :
  no_template obj = true -> _render_dict_templates jinja2 obj context = obj.
Proof.
  induction obj as [| | | |s|l IH|d IH] using json_nested_ind; auto.
  - cbn [no_template _render_dict_templates]. intros H.
    apply negb_true_iff in H. now rewrite H.
  - cbn [no_template _render_dict_templates]. intros H. f_equal.
    rewrite forallb_forall in H. rewrite Forall_forall in IH.
    rewrite <- (map_id l) at 2. apply map_ext_in. auto.
  - cbn [no_template _render_dict_templates]. intros H. f_equal.
    rewrite forallb_forall in H. rewrite Forall_forall in IH.
    rewrite <- (map_id d) at 2. apply map_ext_in.
    intros [k v] Hkv. cbn [fst snd]. f_equal. apply (IH (k, v) Hkv).
    exact (H (k, v) Hkv).
Qed.

Lemma render_dict_templates_plain_witness :
  _render_dict_templates (Some (fun _ _ => inr "undefined"%string))
    (JDict [("command"%string, JStr "echo {{ a"); ("args"%string, JList [JInt 1])])
    JNull
  = JDict [("command"%string, JStr "echo {{ a"); ("args"%string, JList [JInt 1])].
Proof.
  apply (render_dict_templates_plain (Some (fun _ _ => inr "undefined"%string))
           (JDict [("command"%string, JStr "echo {{ a");
                   ("args"%string, JList [JInt 1])])
           JNull).
  reflexivity.
Defined.

End ValueFacts.

(** ** The input validator *)

Section ValidatorFacts.

Local Open Scope list_scope.

(** [validate_string_input] returns exactly the acceptable texts, unchanged
    and without a trace in the state. *)
Lemma validate_string_input_returns P lvl value context st v st' :
  validate_string_input P lvl value context st = (Return v, st')
  <-> acceptable lvl value = true /\ v = value /\ st' = st.
Proof.
  unfold validate_string_input, acceptable, found.
  destruct (search (pattern_regex lvl) value) as [[[b m] a]|]; cbn [negb andb].
  - split; [|intros [H _]; discriminate].
    destruct st. destruct (ENABLE_DETAILED_LOGGING P); run_engine; discriminate.
  - rewrite Z.leb_antisym.
    destruct (_get_max_length lvl <? Z.of_nat (String.length value))%Z;
      cbn [negb]; unfold ret, raise.
    + split; [discriminate | intros [H _]; discriminate].
    + split; [intros [= <- <-]; auto | intros (_ & -> & ->); reflexivity].
Qed.

Lemma validate_string_input_acceptable P lvl value context st :
  acceptable lvl value = true ->
  validate_string_input P lvl value context st = (Return value, st).
Proof. intros H. apply validate_string_input_returns. auto. Qed.

Lemma validate_string_input_rejects P lvl value context st :
  acceptable lvl value = false ->
  exists msg st',
    validate_string_input P lvl value context st = (Raise (SecurityError msg), st')
    /\ result st' = result st /\ effects st' = effects st
    /\ step_cache st' = step_cache st /\ clock st' = clock st
    /\ security_context st' = security_context st.
Proof.
  unfold validate_string_input, acceptable, found.
  destruct (search (pattern_regex lvl) value) as [[[b m] a]|]; cbn [negb andb].
  - intros _. destruct st. destruct (ENABLE_DETAILED_LOGGING P); run_engine;
      eexists; eexists; repeat split.
  - rewrite Z.leb_antisym.
    destruct (_get_max_length lvl <? Z.of_nat (String.length value))%Z;
      cbn [negb]; [|discriminate].
    intros _. unfold raise. eexists. eexists. repeat split.
Qed.

Lemma found_alts_incl l1 l2 s :
  incl l1 l2 -> found (alts l2) s = false -> found (alts l1) s = false.
Proof.
  unfold found. intros Hincl H.
  destruct (search (alts l2) s) eqn:E; [discriminate|].
  now rewrite (search_alts_incl l1 l2 s Hincl E).
Qed.

Lemma acceptable_looser l1 l2 value :
  incl (map re (DANGEROUS_PATTERNS l1)) (map re (DANGEROUS_PATTERNS l2)) ->
  (_get_max_length l2 <= _get_max_length l1)%Z ->
  acceptable l2 value = true -> acceptable l1 value = true.
Proof.
  unfold acceptable, pattern_regex. intros Hincl Hlen H.
  apply andb_true_iff in H. destruct H as [Hf Hl].
  apply negb_true_iff in Hf. apply Z.leb_le in Hl.
  rewrite (found_alts_incl _ _ value Hincl Hf). cbn [negb andb].
  apply Z.leb_le. lia.
Qed.

(** X13.  The four security profiles are ordered by strictness: a text that the
    validator of [plan_only] accepts is accepted by the validator of
    [restricted], a text accepted for [restricted] is accepted for
    [standard], and a text accepted for [standard] is accepted for
    [elevated]. *)
Theorem validation_ordered_by_profile P value context st :
  let accepted profile :=
    validate_string_input P (create_for_profile profile) value context st
    = (Return value, st) in
  (accepted "plan_only"%string -> accepted "restricted"%string)
  /\ (accepted "restricted"%string -> accepted "standard"%string)
  /\ (accepted "standard"%string -> accepted "elevated"%string).
Proof.
  cbv zeta.
  assert (Hstep : forall p1 p2,
             incl (map re (DANGEROUS_PATTERNS (create_for_profile p1)))
                  (map re (DANGEROUS_PATTERNS (create_for_profile p2))) ->
             (_get_max_length (create_for_profile p2)
              <= _get_max_length (create_for_profile p1))%Z ->
             validate_string_input P (create_for_profile p2) value context st
             = (Return value, st) ->
             validate_string_input P (create_for_profile p1) value context st
             = (Return value, st)).
  { intros p1 p2 Hincl Hlen H. apply validate_string_input_returns in H.
    apply validate_string_input_acceptable.
    now apply (acceptable_looser _ _ value Hincl Hlen). }
  assert (E1 : DANGEROUS_PATTERNS (create_for_profile "elevated")
               = base_patterns ++ [] ++ []) by reflexivity.
  assert (E2 : DANGEROUS_PATTERNS (create_for_profile "standard")
               = base_patterns ++ standard_patterns ++ []) by reflexivity.
  assert (E3 : DANGEROUS_PATTERNS (create_for_profile "restricted")
               = base_patterns ++ standard_patterns ++ strict_patterns)
    by reflexivity.
  split; [|split]; apply Hstep.
  - apply incl_refl.
  - vm_compute. discriminate.
  - rewrite E2, E3, !map_app. intros x. rewrite !in_app_iff. simpl. tauto.
  - vm_compute. discriminate.
  - rewrite E1, E2, !map_app. intros x. rewrite !in_app_iff. simpl. tauto.
  - vm_compute. discriminate.
Qed.

End ValidatorFacts.

(** ** Conditions, environments and inputs in the engine *)

Section EngineMoreFacts.

Local Open Scope list_scope.

(** X17.  A condition that is a boolean literal, whatever its case and the spaces
    around it, has the same value with and without [simpleeval]: true for
    [true], [1] and [yes], false for [false], [0], [no] and the empty text.
    Neither [simple_eval] nor the context is consulted, and nothing is
    logged. *)
Theorem literal_condition P expression context st :
  mem (lower (strip expression)) ["true"; "1"; "yes"; "false"; "0"; "no"; ""]%string
  = true ->
  evaluate_condition P expression context st
  = (Return (mem (lower (strip expression)) ["true"; "1"; "yes"]%string),
     set_effects st (effects st ++ [ConditionEvaluated expression])).
Proof.
  intros H. unfold evaluate_condition. rewrite mbind_run.
  destruct st as [clk sc c lg eff res]. run_engine.
  assert (Hcases : mem (lower (strip expression)) ["true"; "1"; "yes"]%string = true
                   \/ (mem (lower (strip expression)) ["true"; "1"; "yes"]%string
                       = false
                       /\ mem (lower (strip expression))
                            ["false"; "0"; "no"; ""]%string = true)).
  { cbn [mem] in H |- *.
    destruct (String.eqb (lower (strip expression)) "true");
      destruct (String.eqb (lower (strip expression)) "1");
      destruct (String.eqb (lower (strip expression)) "yes"); cbn [orb] in *; auto. }
  destruct (SIMPLEEVAL_AVAILABLE P); cbn [negb].
  - destruct (String.eqb (strip expression) "") eqn:E.
    + apply String.eqb_eq in E. rewrite E. reflexivity.
    + destruct Hcases as [->|[-> ->]]; reflexivity.
  - unfold _basic_boolean_eval. destruct Hcases as [->|[-> ->]]; reflexivity.
Qed.

Lemma literal_condition_witness :
  evaluate_condition (sample_platform true) "  YES " sample_context (sample_state [] [])
  = (Return (mem (lower (strip "  YES ")) ["true"; "1"; "yes"]%string),
     set_effects (sample_state [] [])
       (effects (sample_state [] []) ++ [ConditionEvaluated "  YES "])).
Proof.
  apply (literal_condition (sample_platform true) "  YES " sample_context
           (sample_state [] [])).
  vm_compute. reflexivity.
Defined.

(** *** [_create_secure_environment] *)

Lemma add_environment_spec P lvl extra : forall acc st env st',
  add_environment P lvl extra acc st = (Return env, st') ->
  st' = st
  /\ (forall name value, dict_get env name = Some value ->
        dict_get acc name = Some value
        \/ (In (name, value) extra /\ env_name_ok name = true
            /\ acceptable lvl value = true))
  /\ (forall name, dict_mem acc name = true -> dict_mem env name = true).
Proof.
  induction extra as [|[key value] extra IH]; intros acc st env st';
    cbn [add_environment].
  - unfold ret. intros [= <- <-]. auto.
  - destruct (env_name_ok key) eqn:Ek.
    + rewrite mbind_run.
      destruct (validate_string_input P lvl value ("env var " ++ key) st)
        as [[v| |] st1] eqn:Ev; try discriminate.
      apply validate_string_input_returns in Ev. destruct Ev as (Hok & -> & ->).
      intros H. destruct (IH _ _ _ _ H) as (-> & Hget & Hmem).
      split; [reflexivity|]. split.
      * intros name v Hv. destruct (Hget name v Hv) as [Hacc|(Hin & Hn & Ha)].
        -- destruct (string_dec key name) as [<-|Hne].
           ++ rewrite dict_get_set_same in Hacc. injection Hacc as <-.
              right. simpl. auto.
           ++ rewrite dict_get_set_other in Hacc by auto. auto.
        -- right. simpl. auto.
      * intros name Hn. apply Hmem. unfold dict_mem in *.
        destruct (string_dec key name) as [<-|Hne].
        -- now rewrite dict_get_set_same.
        -- now rewrite dict_get_set_other by auto.
    + intros H. destruct (IH _ _ _ _ H) as (-> & Hget & Hmem).
      split; [reflexivity|]. split; auto.
      intros name v Hv. destruct (Hget name v Hv) as [Hacc|(Hin & Hn & Ha)]; auto.
      right. simpl. auto.
Qed.

(** X18.  The environment that [_create_secure_environment] returns has the five
    variables of the minimal environment, and every variable in it comes
    from the minimal environment or from the step, in which case its name
    is made of capital letters, digits and underscores and its value has
    passed [validate_string_input]; nothing else of the step's environment
    gets through. *)
Theorem secure_environment_contents P lvl extra_env st env st' :
  _create_secure_environment P lvl extra_env st = (Return env, st') ->
  (forall name, In name (dict_keys minimal_environment) -> dict_mem env name = true)
  /\ forall name value, dict_get env name = Some value ->
       In (name, value) minimal_environment
       \/ (In (name, value) extra_env /\ env_name_ok name = true
           /\ acceptable lvl value = true).
Proof.
  unfold _create_secure_environment. intros H.
  destruct (add_environment_spec _ _ _ _ _ _ _ H) as (_ & Hget & Hmem).
  split.
  - intros name Hn. apply Hmem. unfold dict_mem.
    destruct (dict_get_In_keys minimal_environment name Hn) as [v Hv].
    fold minimal_environment. now rewrite Hv.
  - intros name value Hv. destruct (Hget name value Hv) as [Hacc|Hex]; auto.
    left. now apply dict_get_Some_In.
Qed.

Lemma secure_environment_contents_witness :
  (forall name, In name (dict_keys minimal_environment) ->
     dict_mem
       (minimal_environment ++ [("CI"%string, "true"%string)]) name = true)
  /\ forall name value,
       dict_get (minimal_environment ++ [("CI"%string, "true"%string)]) name
       = Some value ->
       In (name, value) minimal_environment
       \/ (In (name, value) [("CI"%string, "true"%string); ("ci"%string, "no"%string)]
           /\ env_name_ok name = true
           /\ acceptable "standard" value = true).
Proof.
  apply (secure_environment_contents (sample_platform true) "standard"
           [("CI"%string, "true"%string); ("ci"%string, "no"%string)]
           (sample_state [] []) _ (sample_state [] [])).
  vm_compute. reflexivity.
Defined.

End EngineMoreFacts.

Section InputFacts.

Local Open Scope list_scope.

Lemma validate_inputs_loop_agree P lvl declared : forall inputs1 inputs2 st,
  (forall name, In name (dict_keys declared) ->
     dict_get inputs1 name = dict_get inputs2 name) ->
  validate_inputs_loop P lvl declared inputs1 st
  = validate_inputs_loop P lvl declared inputs2 st.
Proof.
  induction declared as [|[name config] declared IH]; intros i1 i2 st Hagree;
    cbn [validate_inputs_loop]; auto.
  assert (Hn : dict_get i1 name = dict_get i2 name)
    by (apply Hagree; simpl; auto).
  assert (Hrest : forall st0, validate_inputs_loop P lvl declared i1 st0
                              = validate_inputs_loop P lvl declared i2 st0).
  { intros st0. apply IH. intros n Hin. apply Hagree. simpl. auto. }
  unfold dict_mem. rewrite Hn.
  destruct (input_required config && negb match dict_get i2 name with
                                           | Some _ => true | None => false end);
    auto.
  destruct (dict_get i2 name) as [[]|]; auto.
  rewrite !mbind_run.
  destruct (validate_string_input P lvl s ("input " ++ name) st) as [[| |] st1]; auto.
Qed.

(** X19.  What [_validate_workflow_inputs] does with the inputs of an
    execution depends only on the inputs that the workflow declares: for two
    sets of inputs that agree on every declared name it raises the same
    exception and leaves the same state.  A value under a name that the
    workflow does not declare is never looked at. *)
Theorem undeclared_inputs_unchecked P lvl workflow inputs1 inputs2 st :
  (forall name, In name (dict_keys (wf_inputs workflow)) ->
     dict_get inputs1 name = dict_get inputs2 name) ->
  _validate_workflow_inputs P lvl workflow inputs1 st
  = _validate_workflow_inputs P lvl workflow inputs2 st.
Proof.
  intros Hagree. unfold _validate_workflow_inputs. rewrite !mbind_run.
  rewrite (validate_inputs_loop_agree P lvl _ inputs1 inputs2 st Hagree).
  destruct (validate_inputs_loop P lvl (wf_inputs workflow) inputs2 st)
    as [[[]|e|] st1]; [|reflexivity|reflexivity].
  now rewrite !log_security_event_raises.
Qed.

Lemma undeclared_inputs_unchecked_witness :
  _validate_workflow_inputs (sample_platform true) "strict" sample_definition
    [("target"%string, JStr "app"); ("extra"%string, JStr "__import__")]
    (sample_state [] [])
  = _validate_workflow_inputs (sample_platform true) "strict" sample_definition
      [("target"%string, JStr "app")] (sample_state [] []).
Proof.
  apply (undeclared_inputs_unchecked (sample_platform true) "strict"
           sample_definition
           [("target"%string, JStr "app"); ("extra"%string, JStr "__import__")]
           [("target"%string, JStr "app")] (sample_state [] [])).
  intros name [<-|[]]. reflexivity.
Defined.

(** The loop over the declared inputs returns, with the state it was given,
    when every check passes, and raises [SecurityError] when one fails. *)
Lemma validate_inputs_loop_cases P lvl inputs declared : forall st,
  exists o st',
    validate_inputs_loop P lvl declared inputs st = (o, st')
    /\ security_context st' = security_context st
    /\ if forallb (input_acceptable lvl inputs) declared
       then o = Return tt /\ st' = st
       else exists msg, o = Raise (SecurityError msg).
Proof.
  induction declared as [|[name config] declared IH]; intros st;
    cbn [validate_inputs_loop forallb].
  - exists (Return tt), st. auto.
  - unfold input_acceptable at 1. cbn [fst snd].
    destruct (input_required config) eqn:Hreq;
      destruct (dict_mem inputs name) eqn:Hmem; cbn [negb andb orb].
    + destruct (dict_get inputs name) as [v|] eqn:Hget;
        [|unfold dict_mem in Hmem; rewrite Hget in Hmem; discriminate].
      destruct v; try apply IH.
      rewrite mbind_run. destruct (acceptable lvl s) eqn:Ha; cbn [andb].
      * rewrite (validate_string_input_acceptable P lvl s _ st Ha). apply IH.
      * destruct (validate_string_input_rejects P lvl s ("input " ++ name) st Ha)
          as (msg & st' & -> & _ & _ & _ & _ & Hsc).
        exists (Raise (SecurityError msg)), st'. eauto.
    + eexists. eexists. split; [reflexivity|]. split; [reflexivity|]. eauto.
    + destruct (dict_get inputs name) as [v|] eqn:Hget;
        [|unfold dict_mem in Hmem; rewrite Hget in Hmem; discriminate].
      destruct v; try apply IH.
      rewrite mbind_run. destruct (acceptable lvl s) eqn:Ha; cbn [andb].
      * rewrite (validate_string_input_acceptable P lvl s _ st Ha). apply IH.
      * destruct (validate_string_input_rejects P lvl s ("input " ++ name) st Ha)
          as (msg & st' & -> & _ & _ & _ & _ & Hsc).
        exists (Raise (SecurityError msg)), st'. eauto.
    + destruct (dict_get inputs name) as [v|] eqn:Hget;
        [unfold dict_mem in Hmem; rewrite Hget in Hmem; discriminate|].
      apply IH.
Qed.

(** X20.  [_validate_workflow_inputs] never returns.  When a required input
    is missing, or a declared input that is given as a text does not pass
    [validate_string_input], it raises [SecurityError]; when every check
    passes, its last statement, the call of [log_security_event], raises
    [NameError], and the state is as before.  In neither case is anything
    added to the audit trail. *)
Theorem validate_workflow_inputs_never_returns P lvl workflow inputs st :
  exists e st',
    _validate_workflow_inputs P lvl workflow inputs st = (Raise e, st')
    /\ security_context st' = security_context st
    /\ if inputs_acceptable lvl workflow inputs
       then e = NameError "MAX_LOG_LENGTH" /\ st' = st
       else exists msg, e = SecurityError msg.
Proof.
  unfold _validate_workflow_inputs, inputs_acceptable. rewrite mbind_run.
  destruct (validate_inputs_loop_cases P lvl inputs (wf_inputs workflow) st)
    as (o & st' & -> & Hsc & Hcases).
  destruct (forallb (input_acceptable lvl inputs) (wf_inputs workflow)).
  - destruct Hcases as [-> ->]. rewrite log_security_event_raises.
    eexists. eexists. split; [reflexivity|]. auto.
  - destruct Hcases as (msg & ->).
    eexists. eexists. split; [reflexivity|]. eauto.
Qed.

(** *** [_sanitize_inputs] and the other sanitizers *)

Lemma sanitize_inputs_fold inputs : forall acc,
  NoDup (dict_keys acc ++ dict_keys inputs) ->
  fold_left
    (fun sanitized kv =>
       if existsb (fun sensitive => contains sensitive (lower (fst kv))) sensitive_keys
       then dict_set sanitized (fst kv) (JStr "[REDACTED]")
       else dict_set sanitized (fst kv) (JStr (take 100 (py_str (snd kv)))))
    inputs acc
  = acc ++ map (fun kv =>
                  (fst kv,
                   JStr (if sensitive_name (fst kv) then "[REDACTED]"
                         else take 100 (py_str (snd kv)))))
             inputs.
Proof.
  induction inputs as [|[k v] inputs IH]; intros acc Hnd; cbn [fold_left map].
  - now rewrite app_nil_r.
  - cbn [fst snd]. cbn [dict_keys map fst] in Hnd.
    assert (Hk : ~ In k (dict_keys acc)).
    { intros Hin. apply NoDup_remove_2 in Hnd. apply Hnd. apply in_or_app. auto. }
    fold (sensitive_name k).
    assert (Hset : forall w, dict_set acc k w = acc ++ [(k, w)])
      by (intros w; now apply dict_set_fresh).
    destruct (sensitive_name k); rewrite Hset, IH.
    + now rewrite <- app_assoc.
    + unfold dict_keys in *. rewrite map_app, <- app_assoc. exact Hnd.
    + now rewrite <- app_assoc.
    + unfold dict_keys in *. rewrite map_app, <- app_assoc. exact Hnd.
Qed.

(** X21.  In the inputs that [_sanitize_inputs] prepares for the execution
    record, the value of every input whose name contains [password],
    [token], [key], [secret] or [credential], in any case, is replaced by
    [[REDACTED]]; every other value is its text cut to 100 characters. *)
Theorem sanitize_inputs_redacts inputs name value :
  NoDup (dict_keys inputs) ->
  dict_get inputs name = Some value ->
  exists text,
    dict_get (_sanitize_inputs inputs) name = Some (JStr text)
    /\ String.length text <= 100
    /\ text = if sensitive_name name then "[REDACTED]"%string
              else take 100 (py_str value).
Proof.
  intros Hnd Hget. unfold _sanitize_inputs.
  rewrite (sanitize_inputs_fold inputs []) by exact Hnd. cbn [app].
  exists (if sensitive_name name then "[REDACTED]"%string
          else take 100 (py_str value)).
  split; [|split; [|reflexivity]].
  - apply In_dict_get.
    + unfold dict_keys. rewrite map_map. exact Hnd.
    + apply dict_get_Some_In in Hget.
      apply in_map_iff. exists (name, value). auto.
  - destruct (sensitive_name name); [simpl; lia | apply take_length_le].
Qed.

Lemma sanitize_inputs_redacts_witness :
  exists text,
    dict_get (_sanitize_inputs [("API_Token"%string, JStr "s3cr3t");
                                ("target"%string, JStr "app")]) "API_Token"
    = Some (JStr text)
    /\ String.length text <= 100
    /\ text = if sensitive_name "API_Token" then "[REDACTED]"%string
              else take 100 (py_str (JStr "s3cr3t")).
Proof.
  apply (sanitize_inputs_redacts
           [("API_Token"%string, JStr "s3cr3t"); ("target"%string, JStr "app")]
           "API_Token" (JStr "s3cr3t")).
  - apply distinct_NoDup. reflexivity.
  - reflexivity.
Defined.

Lemma sanitize_outputs_fold outs : forall acc,
  Forall (fun kv => bounded_output (snd kv) = true) acc ->
  Forall (fun kv => bounded_output (snd kv) = true)
    (fold_left
       (fun sanitized kv =>
          match snd kv with
          | JStr value =>
              dict_set sanitized (fst kv)
                (JStr (take 1000 (sub output_secret_re "[REDACTED]" value)))
          | JInt _ | JFloat _ | JBool _ => dict_set sanitized (fst kv) (snd kv)
          | other => dict_set sanitized (fst kv) (JStr (take 1000 (py_str other)))
          end)
       outs acc).
Proof.
  induction outs as [|[k v] outs IH]; intros acc Hacc; cbn [fold_left]; auto.
  apply IH. cbn [fst snd].
  assert (Hb : forall s, bounded_output (JStr (take 1000 s)) = true).
  { intros s. cbn [bounded_output]. apply Nat.leb_le, take_length_le. }
  destruct v; apply (dict_set_Forall (fun w => bounded_output w = true)); auto.
Qed.

(** X22.  What the sanitizers of the engine let through is bounded: an error
    message has at most 500 characters, the output of a command at most
    5000, and every value among the outputs of a step is a number, a truth
    value or a text of at most 1000 characters. *)
Theorem sanitizers_bound_size :
  (forall e, String.length (_sanitize_error e) <= 500)
  /\ (forall out, String.length (_sanitize_output out) <= 5000)
  /\ (forall outs, Forall (fun kv => bounded_output (snd kv) = true)
                     (_sanitize_outputs outs)).
Proof.
  split; [|split].
  - intros e. apply take_length_le.
  - intros out. unfold _sanitize_output.
    destruct (String.eqb out ""); [simpl; lia | apply take_length_le].
  - intros outs. apply (sanitize_outputs_fold outs []). constructor.
Qed.

End InputFacts.

(** ** The execution of a step *)

(** A list that has grown by nothing, or by what the goal shows. *)
Ltac grows :=
  first [ exists []; rewrite ?app_nil_r; first [reflexivity | split; reflexivity]
        | eexists; first [reflexivity | split; [reflexivity|]] ].

Ltac show_continues := constructor; cbn; auto; grows.

Section TrackFacts.

Local Open Scope list_scope.

Lemma continues_refl allowed st : continues_with allowed st st.
Proof.
  constructor; auto; grows.
Qed.

Lemma continues_trans allowed st1 st2 st3 :
  continues_with allowed st1 st2 -> continues_with allowed st2 st3 ->
  continues_with allowed st1 st3.
Proof.
  intros [c1 s1 (g1 & Hg1) (e1 & He1 & Hf1)]
         [c2 s2 (g2 & Hg2) (e2 & He2 & Hf2)].
  constructor; try congruence.
  - exists (g1 ++ g2). now rewrite Hg2, Hg1, app_assoc.
  - exists (e1 ++ e2). split; [now rewrite He2, He1, app_assoc|].
    now rewrite forallb_app, Hf1, Hf2.
Qed.

Lemma continues_weaken (allowed allowed' : Effect -> bool) st st' :
  (forall e, allowed e = true -> allowed' e = true) ->
  continues_with allowed st st' -> continues_with allowed' st st'.
Proof.
  intros Himp [c s g (e & He & Hf)].
  constructor; auto. exists e. split; auto.
  rewrite forallb_forall in *. auto.
Qed.

Lemma continues_set_result allowed st r : continues_with allowed st (set_result st r).
Proof.
  destruct st. show_continues.
Qed.

Lemma continues_set_step_cache allowed st c :
  continues_with allowed st (set_step_cache st c).
Proof.
  destruct st. show_continues.
Qed.

Lemma keeps_refl r : keeps r r.
Proof. repeat split. Qed.

Lemma keeps_trans r1 r2 r3 : keeps r1 r2 -> keeps r2 r3 -> keeps r1 r3.
Proof. unfold keeps. intuition congruence. Qed.

Lemma tracks_weaken {A : Type} (allowed allowed' : Effect -> bool) (m : M A) :
  (forall e, allowed e = true -> allowed' e = true) ->
  tracks allowed m -> tracks allowed' m.
Proof.
  intros Himp Hm st o st' H. destruct (Hm st o st' H) as (H1 & H2 & H3 & H4).
  split; [exact H1|]. split; [now apply (continues_weaken allowed allowed')|].
  split; [exact H3 | exact H4].
Qed.

Lemma tracks_ret {A : Type} allowed (a : A) : tracks allowed (ret a).
Proof.
  intros st o st' [= <- <-]. split; [discriminate|].
  split; [apply continues_refl | split; [reflexivity | apply keeps_refl]].
Qed.

Lemma tracks_raise {A : Type} allowed e : tracks allowed (@raise A e).
Proof.
  intros st o st' [= <- <-]. split; [discriminate|].
  split; [apply continues_refl | split; [reflexivity | apply keeps_refl]].
Qed.

Lemma tracks_get_state allowed : tracks allowed get_state.
Proof.
  intros st o st' [= <- <-]. split; [discriminate|].
  split; [apply continues_refl | split; [reflexivity | apply keeps_refl]].
Qed.

Lemma tracks_bind {A B : Type} allowed (m : M A) (f : A -> M B) :
  tracks allowed m -> (forall a, tracks allowed (f a)) ->
  tracks allowed (mbind m f).
Proof.
  intros Hm Hf st o st'. rewrite mbind_run.
  destruct (m st) as [[a|e|] st1] eqn:E;
    destruct (Hm st _ st1 E) as (H1 & H2 & H3 & H4).
  - intros H. destruct (Hf a st1 o st' H) as (G1 & G2 & G3 & G4).
    split; [exact G1|]. split; [eapply continues_trans; eauto|].
    split; [congruence | eapply keeps_trans; eauto].
  - intros [= <- <-]. split; [discriminate | auto].
  - congruence.
Qed.

Lemma tracks_try {A : Type} allowed (m : M A) (h : exn -> M A) :
  tracks allowed m -> (forall e, tracks allowed (h e)) ->
  tracks allowed (try_except m h).
Proof.
  intros Hm Hh st o st'. rewrite try_except_run.
  destruct (m st) as [[a|e|] st1] eqn:E;
    destruct (Hm st _ st1 E) as (H1 & H2 & H3 & H4).
  - intros [= <- <-]. split; [discriminate | auto].
  - intros H. destruct (Hh e st1 o st' H) as (G1 & G2 & G3 & G4).
    split; [exact G1|]. split; [eapply continues_trans; eauto|].
    split; [congruence | eapply keeps_trans; eauto].
  - congruence.
Qed.

Lemma tracks_logger allowed level msg : tracks allowed (logger level msg).
Proof.
  intros st o st' H. destruct st. unfold logger in H. cbn in H.
  injection H as <- <-. split; [discriminate|].
  split; [|split; [reflexivity | apply keeps_refl]].
  show_continues.
Qed.

Lemma tracks_perform (allowed : Effect -> bool) e :
  allowed e = true -> tracks allowed (perform e).
Proof.
  intros Ha st o st' H. destruct st. unfold perform in H. cbn in H.
  injection H as <- <-. split; [discriminate|].
  split; [|split; [reflexivity | apply keeps_refl]].
  show_continues. cbn. now rewrite Ha.
Qed.

Lemma tracks_log_security_event allowed P event :
  tracks allowed (log_security_event P event).
Proof.
  intros st o st'. rewrite log_security_event_raises. intros [= <- <-].
  split; [discriminate|].
  split; [apply continues_refl | split; [reflexivity | apply keeps_refl]].
Qed.

Lemma tracks_unbound_global allowed name : tracks allowed (unbound_global name).
Proof. apply tracks_raise. Qed.

Lemma tracks_set_completed allowed outs : tracks allowed (set_completed outs).
Proof.
  intros st o st' H. destruct st. unfold set_completed in H. cbn in H.
  injection H as <- <-. split; [discriminate|].
  split; [apply continues_set_result | split; [reflexivity | repeat split]].
Qed.

Lemma tracks_set_failed allowed e : tracks allowed (set_failed e).
Proof.
  intros st o st' H. destruct st. unfold set_failed in H. cbn in H.
  injection H as <- <-. split; [discriminate|].
  split; [apply continues_set_result | split; [reflexivity | repeat split]].
Qed.

Lemma tracks_update_result allowed f :
  (forall r, keeps r (f r)) -> tracks allowed (update_result f).
Proof.
  intros Hf st o st' H. destruct st. unfold update_result in H. cbn in H.
  injection H as <- <-. split; [discriminate|].
  split; [apply continues_set_result | split; [reflexivity | apply Hf]].
Qed.

Lemma tracks_validate_string_input allowed P lvl value context :
  tracks allowed (validate_string_input P lvl value context).
Proof.
  unfold validate_string_input.
  destruct (search (pattern_regex lvl) value) as [[[b m] a]|].
  - apply tracks_bind; [|intros; apply tracks_raise].
    destruct (ENABLE_DETAILED_LOGGING P); [apply tracks_logger | apply tracks_ret].
  - destruct (_get_max_length lvl <? Z.of_nat (String.length value))%Z;
      [apply tracks_raise | apply tracks_ret].
Qed.

Lemma tracks_validate_file_path allowed P path :
  tracks allowed (validate_file_path P path).
Proof.
  unfold validate_file_path.
  destruct (contains ".." (normpath P path) || startswith "/" (normpath P path));
    [apply tracks_raise|].
  destruct (existsb _ _); [apply tracks_raise | apply tracks_ret].
Qed.

Lemma tracks_validate_shell_command allowed P lvl command :
  tracks allowed (validate_shell_command P lvl command).
Proof.
  unfold validate_shell_command.
  apply tracks_bind; [apply tracks_validate_string_input|]. intros c.
  apply tracks_bind.
  - destruct (negb _ && negb _); [apply tracks_logger | apply tracks_ret].
  - intros _. destruct (first_match dangerous_shell_patterns c);
      [apply tracks_raise | apply tracks_ret].
Qed.

Lemma tracks_validate_template_content allowed P lvl template :
  tracks allowed (validate_template_content P lvl template).
Proof.
  unfold validate_template_content.
  apply tracks_bind; [apply tracks_validate_string_input|]. intros c.
  destruct (first_match injection_patterns c);
    [apply tracks_raise | apply tracks_ret].
Qed.

Lemma tracks_basic_boolean_eval allowed expression context :
  tracks allowed (_basic_boolean_eval expression context).
Proof.
  unfold _basic_boolean_eval.
  destruct (mem _ _); [apply tracks_ret|].
  destruct (mem _ _); [apply tracks_ret|].
  destruct (dict_get _ _); [apply tracks_ret|].
  destruct (compare_with _ _ _); [apply tracks_ret|].
  apply tracks_bind; [apply tracks_logger | intros; apply tracks_ret].
Qed.

Lemma tracks_evaluate_condition P expression context :
  tracks assert_effect (evaluate_condition P expression context).
Proof.
  unfold evaluate_condition.
  apply tracks_bind; [now apply tracks_perform|]. intros _.
  destruct (negb (SIMPLEEVAL_AVAILABLE P)); [apply tracks_basic_boolean_eval|].
  destruct (String.eqb _ _); [apply tracks_ret|].
  destruct (mem _ _); [apply tracks_ret|].
  destruct (mem _ _); [apply tracks_ret|].
  destruct (simple_eval P _ _); [apply tracks_ret|].
  apply tracks_bind; [apply tracks_logger | intros; apply tracks_raise].
Qed.

Lemma tracks_add_environment allowed P lvl extra : forall acc,
  tracks allowed (add_environment P lvl extra acc).
Proof.
  induction extra as [|[k v] extra IH]; intros acc; cbn [add_environment].
  - apply tracks_ret.
  - destruct (env_name_ok k); [|apply IH].
    apply tracks_bind; [apply tracks_validate_string_input | intros; apply IH].
Qed.

Lemma tracks_validate_working_directory P working_dir :
  tracks shell_effect (_validate_working_directory P working_dir).
Proof.
  unfold _validate_working_directory.
  destruct (negb (truthy_str working_dir)); [apply tracks_ret|].
  apply tracks_bind; [apply tracks_validate_file_path|]. intros d.
  apply tracks_bind; [|intros; apply tracks_ret].
  destruct (negb (path_exists P d)); [now apply tracks_perform | apply tracks_ret].
Qed.

Lemma tracks_create_secure_file_path P file_path :
  tracks template_effect (_create_secure_file_path P file_path).
Proof.
  unfold _create_secure_file_path.
  apply tracks_bind; [apply tracks_validate_file_path|]. intros d.
  apply tracks_bind; [now apply tracks_perform|]. intros _.
  destruct (negb _); [apply tracks_raise | apply tracks_ret].
Qed.

End TrackFacts.

Section ExecutorFacts.

Local Open Scope list_scope.

Lemma keeps_with_process out code r : keeps r (with_process out code r).
Proof. repeat split. Qed.

Lemma keeps_with_status s r : keeps r (with_status s r).
Proof. repeat split. Qed.

Lemma tracks_execute_shell_step P lvl step context :
  tracks shell_effect (_execute_shell_step P lvl step context).
Proof.
  unfold _execute_shell_step.
  apply tracks_bind; [apply tracks_get_state|]. intros st0.
  destruct (negb (has_permission (security_context st0) "shell.execute"));
    [apply tracks_raise|].
  apply tracks_bind; [apply tracks_validate_shell_command|]. intros cmd.
  apply tracks_bind; [|intros; apply tracks_log_security_event].
  apply tracks_try.
  - apply tracks_bind; [apply tracks_add_environment|]. intros env.
    apply tracks_bind; [apply tracks_validate_working_directory|]. intros cwd.
    apply tracks_bind; [now apply tracks_perform|]. intros _.
    destruct (create_subprocess_shell P _ env cwd); [apply tracks_raise|].
    apply tracks_bind; [apply tracks_unbound_global|]. intros limit.
    destruct (communicate P _ env cwd _) as [rc out err|];
      [|apply tracks_raise].
    apply tracks_bind;
      [apply tracks_update_result; intros; apply keeps_with_process|].
    intros _. destruct (rc =? 0)%Z;
      [apply tracks_set_completed | apply tracks_set_failed].
  - intros e. destruct e; try apply tracks_raise. apply tracks_set_failed.
Qed.

Lemma tracks_execute_assert_step P lvl step context :
  tracks assert_effect (_execute_assert_step P lvl step context).
Proof.
  unfold _execute_assert_step.
  apply tracks_bind; [|intros; apply tracks_log_security_event].
  apply tracks_try; [|intros; apply tracks_set_failed].
  apply tracks_bind; [apply tracks_validate_string_input|]. intros _.
  apply tracks_bind; [apply tracks_evaluate_condition|]. intros passed.
  destruct passed; [apply tracks_set_completed|].
  destruct (String.eqb (on_failure step) "fail"); [apply tracks_set_failed|].
  destruct (String.eqb (on_failure step) "warn"); [apply tracks_set_completed|].
  apply tracks_bind; [|intros; apply tracks_set_completed].
  apply tracks_update_result. intros; apply keeps_with_status.
Qed.

(** The size check of a template step raises before the file is written:
    the only effects are the new directories. *)
Lemma tracks_execute_template_step P lvl step context :
  tracks template_effect (_execute_template_step P lvl step context).
Proof.
  unfold _execute_template_step.
  apply tracks_bind; [apply tracks_get_state|]. intros st0.
  destruct (negb (has_permission (security_context st0) "file.write"));
    [apply tracks_raise|].
  apply tracks_bind; [|intros; apply tracks_log_security_event].
  apply tracks_try; [|intros; apply tracks_set_failed].
  apply tracks_bind; [apply tracks_validate_template_content|]. intros content.
  apply tracks_bind; [apply tracks_validate_file_path|]. intros path.
  apply tracks_bind; [apply tracks_create_secure_file_path|]. intros secure.
  intros st o st' H. rewrite mbind_run in H. cbn in H.
  injection H as <- <-. split; [discriminate|].
  split; [apply continues_refl | split; [reflexivity | apply keeps_refl]].
Qed.

(** *** Executors do not return *)

Lemma never_returns_raise {A : Type} e : never_returns (@raise A e).
Proof. intros st a st'. discriminate. Qed.

Lemma never_returns_bind {A B : Type} (m : M A) (f : A -> M B) :
  (forall a, never_returns (f a)) -> never_returns (mbind m f).
Proof.
  intros Hf st b st'. rewrite mbind_run.
  destruct (m st) as [[a|e|] st1]; try discriminate. apply Hf.
Qed.

Lemma never_returns_log_security_event P event :
  never_returns (log_security_event P event).
Proof. intros st a st'. rewrite log_security_event_raises. discriminate. Qed.

Lemma never_returns_execute_shell_step P lvl step context :
  never_returns (_execute_shell_step P lvl step context).
Proof.
  unfold _execute_shell_step. apply never_returns_bind. intros st0.
  destruct (negb (has_permission (security_context st0) "shell.execute"));
    [apply never_returns_raise|].
  apply never_returns_bind. intros cmd.
  apply never_returns_bind. intros _. apply never_returns_log_security_event.
Qed.

Lemma never_returns_execute_assert_step P lvl step context :
  never_returns (_execute_assert_step P lvl step context).
Proof.
  unfold _execute_assert_step.
  apply never_returns_bind. intros _. apply never_returns_log_security_event.
Qed.

Lemma never_returns_execute_template_step P lvl step context :
  never_returns (_execute_template_step P lvl step context).
Proof.
  unfold _execute_template_step. apply never_returns_bind. intros st0.
  destruct (negb (has_permission (security_context st0) "file.write"));
    [apply never_returns_raise|].
  apply never_returns_bind. intros _. apply never_returns_log_security_event.
Qed.

End ExecutorFacts.

Section StepFacts2.

Local Open Scope list_scope.

Lemma execute_step_securely_phases P profile step context st :
  _execute_step_securely P profile step context st
  = match guarded_phases P profile step context
            (set_result st (new_result (step_id step) RUNNING (clock st))) with
    | (Return _, st') => (Return (result st'), st')
    | (Raise e, st') => (Raise e, st')
    | (OutOfFuel, st') => (OutOfFuel, st')
    end.
Proof. reflexivity. Qed.

Lemma tracks_executor_phase P lvl step context :
  tracks (effect_of_type (step_type step)) (executor_phase P lvl step context).
Proof.
  unfold executor_phase.
  destruct (String.eqb (step_type step) "shell") eqn:E1.
  { apply String.eqb_eq in E1. rewrite E1.
    apply (tracks_weaken shell_effect); [|apply tracks_execute_shell_step].
    intros e He. destruct e; cbn in *; congruence. }
  destruct (String.eqb (step_type step) "assert") eqn:E2.
  { apply String.eqb_eq in E2. rewrite E2.
    apply (tracks_weaken assert_effect); [|apply tracks_execute_assert_step].
    intros e He. destruct e; cbn in *; congruence. }
  destruct (String.eqb (step_type step) "template") eqn:E3.
  { apply String.eqb_eq in E3. rewrite E3.
    apply (tracks_weaken template_effect); [|apply tracks_execute_template_step].
    intros e He. destruct e; cbn in *; congruence. }
  apply tracks_raise.
Qed.

Lemma never_returns_executor_phase P lvl step context :
  never_returns (executor_phase P lvl step context).
Proof.
  unfold executor_phase.
  destruct (String.eqb (step_type step) "shell");
    [apply never_returns_execute_shell_step|].
  destruct (String.eqb (step_type step) "assert");
    [apply never_returns_execute_assert_step|].
  destruct (String.eqb (step_type step) "template");
    [apply never_returns_execute_template_step|].
  apply never_returns_raise.
Qed.

(** The lookup either hits, or misses and leaves the state as it is, but for
    an expired entry that it removes. *)
Lemma cache_phase_cases step context st :
  (exists entry,
     cache_enabled step = true
     /\ dict_get (step_cache st) (_generate_cache_key step context) = Some entry
     /\ (clock st - cached_at entry <= ttl entry)%Z
     /\ cache_phase step context st
        = (Return true,
           set_result st
             (mkSecureStepResult (result_step_id (result st)) COMPLETED
                (started_at (result st)) (Some (clock st))
                (clock st - started_at (result st)) (entry_outputs entry)
                (error (result st)) true
                (Some (_generate_cache_key step context))
                (sanitized_stdout (result st)) (exit_code (result st)))))
  \/ (exists c,
        cache_phase step context st = (Return false, set_step_cache st c)
        /\ (c = step_cache st
            \/ (cache_enabled step = true
                /\ c = dict_del (step_cache st) (_generate_cache_key step context)))).
Proof.
  unfold cache_phase. destruct (cache_enabled step) eqn:Hen.
  - rewrite mbind_run. unfold _get_cached_result. rewrite mbind_run.
    unfold get_state.
    destruct (dict_get (step_cache st) (_generate_cache_key step context))
      as [entry|] eqn:Hget.
    + destruct (ttl entry <? clock st - cached_at entry)%Z eqn:Httl.
      * right. exists (dict_del (step_cache st) (_generate_cache_key step context)).
        destruct st. split; [reflexivity | auto].
      * left. exists entry. apply Z.ltb_ge in Httl.
        destruct st. repeat split; auto.
    + right. exists (step_cache st). destruct st. split; [reflexivity | auto].
  - right. exists (step_cache st). destruct st. split; [reflexivity | auto].
Qed.

(** The handler marks the result as failed and then raises itself, from its
    call of [log_security_event]. *)
Lemma failure_phase_spec P step e st :
  exists st',
    failure_phase P step e st = (Raise (NameError "MAX_LOG_LENGTH"), st')
    /\ continues_with no_effect st st'
    /\ step_cache st' = step_cache st
    /\ keeps (result st) (result st')
    /\ status (result st') = FAILED
    /\ error (result st') = Some (_sanitize_error (exn_str e))
    /\ completed_at (result st') = Some (clock st)
    /\ effects st' = effects st
    /\ log st' = log st.
Proof.
  destruct st as [clk sc c lg eff res].
  unfold failure_phase. rewrite mbind_run. unfold set_failed at 1.
  cbv beta iota zeta. rewrite log_security_event_raises.
  eexists. split; [reflexivity|].
  split; [|repeat split].
  show_continues.
Qed.

(** A miss of the cache leaves the state as it is, but for an expired entry
    that it removes. *)
Lemma cache_phase_on_miss step context st :
  cache_miss step context st ->
  exists c,
    cache_phase step context st = (Return false, set_step_cache st c)
    /\ (c = step_cache st
        \/ c = dict_del (step_cache st) (_generate_cache_key step context)).
Proof.
  intros Hmiss.
  destruct (cache_phase_cases step context st)
    as [(entry & Hen & Hget & Httl & _)|(c & Hc & Hcc)].
  - exfalso. destruct Hmiss as [Hoff|Hm]; [congruence|].
    rewrite Hget in Hm. lia.
  - exists c. split; [exact Hc|]. destruct Hcc as [Hcc|[_ Hcc]]; auto.
Qed.

Lemma cache_miss_init step context st r :
  cache_miss step context st -> cache_miss step context (set_result st r).
Proof. destruct st. exact (fun H => H). Qed.

(** What [_execute_step_securely] does when the cache does not serve the
    step: the executor raises, the handler marks the result as failed and
    raises [NameError]. *)
Lemma execute_step_securely_miss P profile step context st :
  cache_miss step context st ->
  exists c e st3 st',
    (c = step_cache st
     \/ c = dict_del (step_cache st) (_generate_cache_key step context))
    /\ executor_phase P (create_for_profile profile) step context
         (set_step_cache
            (set_result st (new_result (step_id step) RUNNING (clock st))) c)
       = (Raise e, st3)
    /\ _execute_step_securely P profile step context st
       = (Raise (NameError "MAX_LOG_LENGTH"), st')
    /\ continues_with (effect_of_type (step_type step)) st st'
    /\ step_cache st' = c
    /\ effects st' = effects st3
    /\ result_step_id (result st') = step_id step
    /\ started_at (result st') = clock st
    /\ cached (result st') = false
    /\ status (result st') = FAILED
    /\ error (result st') = Some (_sanitize_error (exn_str e))
    /\ completed_at (result st') = Some (clock st).
Proof.
  intros Hmiss.
  rewrite execute_step_securely_phases.
  set (st1 := set_result st (new_result (step_id step) RUNNING (clock st))).
  assert (Hc1 : continues_with (effect_of_type (step_type step)) st st1)
    by apply continues_set_result.
  assert (Hclk1 : clock st1 = clock st) by (destruct st; reflexivity).
  assert (Hcache1 : step_cache st1 = step_cache st) by (destruct st; reflexivity).
  assert (Hres1 : result st1 = new_result (step_id step) RUNNING (clock st))
    by (destruct st; reflexivity).
  destruct (cache_phase_on_miss step context st1
              (cache_miss_init step context st _ Hmiss)) as (c & Hcp & Hcc).
  rewrite Hcache1 in Hcc.
  unfold guarded_phases. rewrite try_except_run, mbind_run, Hcp.
  cbv beta iota. rewrite mbind_run.
  set (st2 := set_step_cache st1 c).
  assert (Hc2 : continues_with (effect_of_type (step_type step)) st st2).
  { apply (continues_trans _ _ st1); auto. apply continues_set_step_cache. }
  assert (Hres2 : result st2 = new_result (step_id step) RUNNING (clock st))
    by (unfold st2; destruct st1; cbn in *; auto).
  assert (Hclk2 : clock st2 = clock st)
    by (unfold st2; destruct st1; cbn in *; auto).
  assert (Hcache2 : step_cache st2 = c) by (unfold st2; destruct st1; reflexivity).
  destruct (executor_phase P (create_for_profile profile) step context st2)
    as [[[]|e|] st3] eqn:Ex;
    destruct (tracks_executor_phase P _ step context st2 _ st3 Ex)
      as (Hfuel & Hc3 & Hcache3 & Hk3); [| |congruence].
  - exfalso. exact (never_returns_executor_phase P _ step context st2 tt st3 Ex).
  - destruct (failure_phase_spec P step e st3)
      as (st4 & -> & Hc4 & Hcache4 & Hk4 & Hst4 & Herr4 & Hdone4 & Heff4 & _).
    exists c, e, st3, st4.
    split; [exact Hcc|]. split; [exact Ex|]. split; [reflexivity|].
    split.
    { apply (continues_trans _ _ st2); auto.
      apply (continues_trans _ _ st3); auto.
      apply (continues_weaken no_effect); auto. discriminate. }
    pose proof (keeps_trans _ _ _ Hk3 Hk4) as (Hid & Hstart & Hcached & Hkey).
    rewrite Hres2 in Hid, Hstart, Hcached, Hkey. cbn in Hid, Hstart, Hcached, Hkey.
    split; [congruence|]. split; [exact Heff4|].
    split; [exact Hid|]. split; [exact Hstart|]. split; [exact Hcached|].
    split; [exact Hst4|]. split; [exact Herr4|].
    rewrite Hdone4, (same_clock Hc3). now rewrite Hclk2.
Qed.

(** In every case the call continues the state and stores nothing. *)
Lemma execute_step_securely_cases P profile step context st :
  exists o st',
    _execute_step_securely P profile step context st = (o, st')
    /\ continues_with (effect_of_type (step_type step)) st st'
    /\ (step_cache st' = step_cache st
        \/ step_cache st'
           = dict_del (step_cache st) (_generate_cache_key step context))
    /\ ((exists r, o = Return r /\ cached r = true /\ status r = COMPLETED
                   /\ effects st' = effects st)
        \/ (o = Raise (NameError "MAX_LOG_LENGTH")
            /\ cache_miss step context st
            /\ status (result st') = FAILED)).
Proof.
  destruct (cache_enabled step) eqn:Hen.
  - destruct (dict_get (step_cache st) (_generate_cache_key step context))
      as [entry|] eqn:Hget.
    + destruct (Z_le_gt_dec (clock st - cached_at entry) (ttl entry)) as [Hle|Hgt].
      * rewrite (cache_hit_run P profile step context st entry Hen Hget Hle).
        cbv zeta. eexists. eexists. split; [reflexivity|].
        split; [apply continues_set_result|].
        split; [left; destruct st; reflexivity|].
        left. eexists. split; [reflexivity|].
        split; [reflexivity|]. split; [reflexivity|]. destruct st; reflexivity.
      * assert (Hmiss : cache_miss step context st).
        { right. rewrite Hget. lia. }
        destruct (execute_step_securely_miss P profile step context st Hmiss)
          as (c & e & st3 & st' & Hcc & _ & Hrun & Hcont & Hcache & _ & _ & _ & _
              & Hst & _).
        exists (Raise (NameError "MAX_LOG_LENGTH")), st'.
        split; [exact Hrun|]. split; [exact Hcont|].
        split; [rewrite Hcache; exact Hcc|]. right. auto.
    + assert (Hmiss : cache_miss step context st).
      { right. now rewrite Hget. }
      destruct (execute_step_securely_miss P profile step context st Hmiss)
        as (c & e & st3 & st' & Hcc & _ & Hrun & Hcont & Hcache & _ & _ & _ & _
            & Hst & _).
      exists (Raise (NameError "MAX_LOG_LENGTH")), st'.
      split; [exact Hrun|]. split; [exact Hcont|].
      split; [rewrite Hcache; exact Hcc|]. right. auto.
  - assert (Hmiss : cache_miss step context st) by (now left).
    destruct (execute_step_securely_miss P profile step context st Hmiss)
      as (c & e & st3 & st' & Hcc & _ & Hrun & Hcont & Hcache & _ & _ & _ & _
          & Hst & _).
    exists (Raise (NameError "MAX_LOG_LENGTH")), st'.
    split; [exact Hrun|]. split; [exact Hcont|].
    split; [rewrite Hcache; exact Hcc|]. right. auto.
Qed.

End StepFacts2.

(** ** What the execution of a step guarantees *)

Section StepGuarantees.

Local Open Scope list_scope.

Lemma no_effect_nil t : forallb no_effect t = true -> t = [].
Proof. destruct t; [reflexivity | discriminate]. Qed.

Lemma continues_no_effect st st' :
  continues_with no_effect st st' -> effects st' = effects st.
Proof.
  intros H. destruct (effects_grow H) as (t & -> & Ht).
  rewrite (no_effect_nil t Ht). apply app_nil_r.
Qed.

(** X23.  [_execute_step_securely] returns a result only from the cache.
    When the cache does not serve the step, the executor of the step raises,
    the handler marks the result of the step as [FAILED], and the call of
    [log_security_event] in the handler raises [NameError]: the method
    raises instead of returning the failed result, and nothing is added to
    the audit trail. *)
Theorem step_returns_only_from_cache P profile step context st :
  cache_miss step context st ->
  exists st',
    _execute_step_securely P profile step context st
    = (Raise (NameError "MAX_LOG_LENGTH"), st')
    /\ result_step_id (result st') = step_id step
    /\ status (result st') = FAILED
    /\ cached (result st') = false
    /\ completed_at (result st') <> None
    /\ security_context st' = security_context st.
Proof.
  intros Hmiss.
  destruct (execute_step_securely_miss P profile step context st Hmiss)
    as (c & e & st3 & st' & _ & _ & Hrun & Hcont & _ & _ & Hid & _ & Hcached
        & Hst & _ & Hdone).
  exists st'. split; [exact Hrun|]. split; [exact Hid|]. split; [exact Hst|].
  split; [exact Hcached|]. split; [rewrite Hdone; discriminate|].
  exact (same_context Hcont).
Qed.

Lemma step_returns_only_from_cache_witness :
  exists st',
    _execute_step_securely (sample_platform true) "standard"
      (sample_assert "true" "fail") sample_context (sample_state [] [])
    = (Raise (NameError "MAX_LOG_LENGTH"), st')
    /\ result_step_id (result st') = step_id (sample_assert "true" "fail")
    /\ status (result st') = FAILED
    /\ cached (result st') = false
    /\ completed_at (result st') <> None
    /\ security_context st' = security_context (sample_state [] []).
Proof.
  apply (step_returns_only_from_cache (sample_platform true) "standard"
           (sample_assert "true" "fail") sample_context (sample_state [] [])).
  right. exact I.
Defined.

(** X24.  Whatever the step, the context and the state, the execution of a
    step ends: with a result from the cache, or with [NameError].  It leaves
    the security context as it was, the audit trail included; the log and
    the effects only grow; and every new effect belongs to the type of the
    step: a subprocess is started only for a shell step, a condition is
    evaluated only for an assert step, a directory is made only for a shell
    or a template step, and no file is written or has its mode changed. *)
Theorem step_execution_continues P profile step context st :
  exists o st',
    _execute_step_securely P profile step context st = (o, st')
    /\ ((exists r, o = Return r /\ cached r = true /\ status r = COMPLETED)
        \/ o = Raise (NameError "MAX_LOG_LENGTH"))
    /\ security_context st' = security_context st
    /\ (exists t, log st' = log st ++ t)
    /\ (exists t, effects st' = effects st ++ t
                  /\ forallb (effect_of_type (step_type step)) t = true).
Proof.
  destruct (execute_step_securely_cases P profile step context st)
    as (o & st' & Hrun & [_ Hsc Hlog Heff] & _ & Hcases).
  exists o, st'. split; [exact Hrun|].
  split.
  { destruct Hcases as [(r & -> & Hc & Hs & _)|(-> & _)]; [left; eauto | now right]. }
  split; [exact Hsc|]. split; [exact Hlog | exact Heff].
Qed.

(** X26.  The execution of a step stores nothing in the step cache: after
    it the cache is the cache of before, or the cache of before without the
    expired entry of the step.  [_cache_result] is not reached, since no
    executor returns. *)
Theorem step_execution_never_stores P profile step context st :
  exists o st',
    _execute_step_securely P profile step context st = (o, st')
    /\ (step_cache st' = step_cache st
        \/ step_cache st'
           = dict_del (step_cache st) (_generate_cache_key step context)).
Proof.
  destruct (execute_step_securely_cases P profile step context st)
    as (o & st' & Hrun & _ & Hcache & _).
  eauto.
Qed.

(** *** Steps that are refused *)

(** The execution of a step whose executor raises without an effect. *)
Lemma miss_without_effect P profile step context st e0 :
  cache_miss step context st ->
  (forall st2,
     security_context st2 = security_context st ->
     effects st2 = effects st ->
     exists st3,
       executor_phase P (create_for_profile profile) step context st2
       = (Raise e0, st3)
       /\ effects st3 = effects st2) ->
  exists st',
    _execute_step_securely P profile step context st
    = (Raise (NameError "MAX_LOG_LENGTH"), st')
    /\ status (result st') = FAILED
    /\ error (result st') = Some (_sanitize_error (exn_str e0))
    /\ effects st' = effects st.
Proof.
  intros Hmiss Hex.
  destruct (execute_step_securely_miss P profile step context st Hmiss)
    as (c & e & st3 & st' & _ & Hrun3 & Hrun & _ & _ & Heff & _ & _ & _
        & Hst & Herr & _).
  destruct (Hex (set_step_cache
                   (set_result st (new_result (step_id step) RUNNING (clock st)))
                   c)) as (st3' & Hrun3' & Heff3');
    try (destruct st; reflexivity).
  rewrite Hrun3' in Hrun3. injection Hrun3 as <- <-.
  exists st'. split; [exact Hrun|]. split; [exact Hst|]. split; [exact Herr|].
  rewrite Heff, Heff3'. destruct st; reflexivity.
Qed.

(** X27.  A step whose type is not [shell], [assert] or [template] is not
    run by the secure engine, although the parser accepts the types
    [claude_code], [webhook] and [conditional]: unless the cache serves it,
    the result of the step is marked [FAILED] with the message that its type
    is not supported, nothing is done, and the method raises [NameError]. *)
Theorem unsupported_step_type_fails P profile step context st :
  step_type step <> "shell"%string ->
  step_type step <> "assert"%string ->
  step_type step <> "template"%string ->
  cache_miss step context st ->
  exists st',
    _execute_step_securely P profile step context st
    = (Raise (NameError "MAX_LOG_LENGTH"), st')
    /\ status (result st') = FAILED
    /\ error (result st')
       = Some (_sanitize_error ("Unsupported step type: " ++ step_type step))
    /\ effects st' = effects st.
Proof.
  intros H1 H2 H3 Hmiss.
  apply String.eqb_neq in H1, H2, H3.
  apply (miss_without_effect P profile step context st
           (SecurityError ("Unsupported step type: " ++ step_type step)) Hmiss).
  intros st2 _ _. exists st2. unfold executor_phase. rewrite H1, H2, H3.
  split; reflexivity.
Qed.

Lemma unsupported_step_type_fails_witness :
  exists st',
    _execute_step_securely (sample_platform true) "standard" sample_webhook
      sample_context (sample_state [] [])
    = (Raise (NameError "MAX_LOG_LENGTH"), st')
    /\ status (result st') = FAILED
    /\ error (result st')
       = Some (_sanitize_error ("Unsupported step type: " ++ step_type sample_webhook))
    /\ effects st' = effects (sample_state [] []).
Proof.
  apply (unsupported_step_type_fails (sample_platform true) "standard"
           sample_webhook sample_context (sample_state [] []));
    try discriminate.
  right. exact I.
Defined.

(** X28.  For a shell step of a user who holds neither [shell.execute] nor
    [admin], and for a template step of a user who holds neither
    [file.write] nor [admin], the result is marked [FAILED] with the message
    of the missing permission, unless the cache serves the step; no
    subprocess is started and no directory is made, and the method raises
    [NameError]. *)
Theorem permission_denied_step_fails P profile step context st msg :
  denied step (security_context st) = Some msg ->
  cache_miss step context st ->
  exists st',
    _execute_step_securely P profile step context st
    = (Raise (NameError "MAX_LOG_LENGTH"), st')
    /\ status (result st') = FAILED
    /\ error (result st') = Some msg
    /\ effects st' = effects st.
Proof.
  intros Hden Hmiss.
  assert (Hmsg : _sanitize_error msg = msg).
  { unfold denied in Hden.
    destruct (String.eqb (step_type step) "shell").
    - destruct (has_permission (security_context st) "shell.execute");
        [discriminate|]. injection Hden as <-. vm_compute. reflexivity.
    - destruct (String.eqb (step_type step) "template"); [|discriminate].
      destruct (has_permission (security_context st) "file.write");
        [discriminate|]. injection Hden as <-. vm_compute. reflexivity. }
  destruct (miss_without_effect P profile step context st (SecurityError msg) Hmiss)
    as (st' & Hrun & Hst & Herr & Heff).
  { intros st2 Hsc _. exists st2. split; [|reflexivity].
    unfold denied in Hden. unfold executor_phase.
    destruct (String.eqb (step_type step) "shell").
    - destruct (has_permission (security_context st) "shell.execute") eqn:Hp;
        [discriminate|]. injection Hden as <-.
      unfold _execute_shell_step. rewrite mbind_run. unfold get_state.
      rewrite Hsc, Hp. reflexivity.
    - destruct (String.eqb (step_type step) "template") eqn:Et; [|discriminate].
      destruct (has_permission (security_context st) "file.write") eqn:Hp;
        [discriminate|]. injection Hden as <-.
      destruct (String.eqb (step_type step) "assert") eqn:Ea.
      { apply String.eqb_eq in Ea, Et. congruence. }
      unfold _execute_template_step. rewrite mbind_run. unfold get_state.
      rewrite Hsc, Hp. reflexivity. }
  exists st'. cbn [exn_str] in Herr. rewrite Hmsg in Herr. auto.
Qed.

Lemma permission_denied_step_fails_witness :
  exists st',
    _execute_step_securely (sample_platform true) "standard"
      (sample_shell "make" []) sample_context (sample_state ["file.write"%string] [])
    = (Raise (NameError "MAX_LOG_LENGTH"), st')
    /\ status (result st') = FAILED
    /\ error (result st')
       = Some "User lacks permission to execute shell commands"%string
    /\ effects st' = effects (sample_state ["file.write"%string] []).
Proof.
  apply (permission_denied_step_fails (sample_platform true) "standard"
           (sample_shell "make" []) sample_context
           (sample_state ["file.write"%string] [])).
  - reflexivity.
  - right. exact I.
Defined.

Lemma validate_shell_command_rejects P lvl command st :
  rejected_command lvl command = true ->
  exists e st',
    validate_shell_command P lvl command st = (Raise e, st')
    /\ effects st' = effects st.
Proof.
  intros Hrej.
  destruct (validate_shell_command P lvl command st) as [[v|e|] st'] eqn:E.
  - exfalso. unfold rejected_command in Hrej.
    destruct (acceptable lvl command) eqn:Hok; cbn [negb orb] in Hrej.
    + destruct (first_match dangerous_shell_patterns command) as [p|] eqn:Ep;
        [|discriminate].
      destruct (shell_rejection_message P lvl command st st p
                  (validate_string_input_acceptable P lvl command _ st Hok) Ep)
        as (st2 & H).
      congruence.
    + destruct (validate_string_input_rejects P lvl command "shell command" st Hok)
        as (msg & st1 & Hv & _).
      unfold validate_shell_command in E. rewrite mbind_run, Hv in E.
      discriminate.
  - exists e, st'. split; [reflexivity|].
    apply continues_no_effect.
    apply (tracks_validate_shell_command no_effect P lvl command st _ st' E).
  - exfalso.
    now destruct (tracks_validate_shell_command no_effect P lvl command st _ st' E).
Qed.

(** X29.  A shell step whose command [validate_shell_command] rejects, for a
    dangerous pattern, for its length or for a dangerous shell pattern, has
    no effect at all: no subprocess is started, whether the step is served
    from the cache or not. *)
Theorem rejected_command_never_runs P profile step context st :
  step_type step = "shell"%string ->
  rejected_command (create_for_profile profile) (str_or (command step) "") = true ->
  exists o st',
    _execute_step_securely P profile step context st = (o, st')
    /\ effects st' = effects st.
Proof.
  intros Hty Hrej.
  destruct (execute_step_securely_cases P profile step context st)
    as (o & st' & Hrun & _ & _ & [(r & _ & _ & _ & Heff)|(_ & Hmiss & _)]).
  { exists o, st'. auto. }
  destruct (execute_step_securely_miss P profile step context st Hmiss)
    as (c & e & st3 & st'' & _ & Hrun3 & Hrun' & _ & _ & Heff & _).
  rewrite Hrun' in Hrun. injection Hrun as <- <-.
  eexists. eexists. split; [exact Hrun'|].
  rewrite Heff. revert Hrun3.
  set (st2 := set_step_cache
                (set_result st (new_result (step_id step) RUNNING (clock st))) c).
  assert (Heff2 : effects st2 = effects st) by (destruct st; reflexivity).
  unfold executor_phase. rewrite Hty. cbn [String.eqb Ascii.eqb Bool.eqb andb].
  unfold _execute_shell_step. rewrite mbind_run. unfold get_state.
  destruct (negb (has_permission (security_context st2) "shell.execute")).
  - intros [= _ <-]. exact Heff2.
  - rewrite mbind_run.
    destruct (validate_shell_command_rejects P (create_for_profile profile)
                (str_or (command step) "") st2 Hrej) as (e1 & st4 & -> & Heff4).
    intros [= _ <-]. congruence.
Qed.

Lemma rejected_command_never_runs_witness :
  exists o st',
    _execute_step_securely (sample_platform true) "standard"
      (sample_shell "ls; rm -rf build" []) sample_context
      (sample_state ["shell.execute"%string] [])
    = (o, st')
    /\ effects st' = effects (sample_state ["shell.execute"%string] []).
Proof.
  apply (rejected_command_never_runs (sample_platform true) "standard"
           (sample_shell "ls; rm -rf build" []) sample_context
           (sample_state ["shell.execute"%string] [])).
  - reflexivity.
  - vm_compute. reflexivity.
Defined.

(** *** The command that is run *)

Lemma validate_shell_command_accepts P lvl command st :
  rejected_command lvl command = false ->
  exists st',
    validate_shell_command P lvl command st = (Return command, st')
    /\ effects st' = effects st
    /\ security_context st' = security_context st.
Proof.
  intros Hrej. unfold rejected_command in Hrej.
  apply orb_false_iff in Hrej. destruct Hrej as [Hok Hp].
  apply negb_false_iff in Hok.
  unfold validate_shell_command. rewrite mbind_run.
  rewrite (validate_string_input_acceptable P lvl command _ st Hok).
  cbv beta iota. rewrite mbind_run.
  destruct (first_match dangerous_shell_patterns command); [discriminate|].
  match goal with
  | |- context [if ?b then _ else _] => destruct b
  end; destruct st; eexists; (split; [reflexivity | split; reflexivity]).
Qed.

(** X30.  The command of a shell step is validated as it is written, and
    the variables of the context are substituted into it afterwards: for a
    user with the permission, a command that passes
    [validate_shell_command], no environment and no working directory, the
    one effect of the step is the call of [create_subprocess_shell] with the
    rendered command, whatever the rendering has put into it.  The process
    is not waited for: computing the timeout raises [NameError], the result
    is marked [FAILED] and the method raises. *)
Theorem shell_step_runs_rendered_command P profile step context st :
  step_type step = "shell"%string ->
  has_permission (security_context st) "shell.execute" = true ->
  cache_miss step context st ->
  rejected_command (create_for_profile profile) (str_or (command step) "") = false ->
  environment step = [] ->
  truthy_str (working_directory step) = false ->
  exists st',
    _execute_step_securely P profile step context st
    = (Raise (NameError "MAX_LOG_LENGTH"), st')
    /\ effects st'
       = effects st
         ++ [Subprocess
               (_render_template_securely (str_or (command step) "") context)]
    /\ status (result st') = FAILED
    /\ error (result st')
       = Some (_sanitize_error
                 (exn_str
                    (after_spawn
                       (create_subprocess_shell P
                          (_render_template_securely (str_or (command step) "")
                             context)
                          minimal_environment None)))).
Proof.
  intros Hty Hperm Hmiss Hrej Henv Hwd.
  set (rendered := _render_template_securely (str_or (command step) "") context).
  destruct (execute_step_securely_miss P profile step context st Hmiss)
    as (c & e & st3 & st' & _ & Hrun3 & Hrun & _ & _ & Heff & _ & _ & _
        & Hst & Herr & _).
  exists st'. split; [exact Hrun|].
  revert Hrun3.
  set (st2 := set_step_cache
                (set_result st (new_result (step_id step) RUNNING (clock st))) c).
  assert (Hsc : security_context st2 = security_context st)
    by (destruct st; reflexivity).
  assert (Heff2 : effects st2 = effects st) by (destruct st; reflexivity).
  destruct (validate_shell_command_accepts P (create_for_profile profile)
              (str_or (command step) "") st2 Hrej) as (st2a & Hv & Heffa & _).
  unfold executor_phase. rewrite Hty. cbn [String.eqb Ascii.eqb Bool.eqb andb].
  unfold _execute_shell_step. rewrite mbind_run. unfold get_state.
  rewrite Hsc, Hperm. cbn [negb]. rewrite mbind_run, Hv. cbv beta iota.
  rewrite Henv. unfold _create_secure_environment, _validate_working_directory.
  rewrite Hwd. cbn [negb add_environment]. fold minimal_environment. fold rendered.
  intros Hrun3.
  assert (E : e = after_spawn (create_subprocess_shell P rendered
                                 minimal_environment None)
              /\ effects st3 = effects st2a ++ [Subprocess rendered]).
  { revert Hrun3. rewrite mbind_run, try_except_run, !mbind_run.
    unfold ret at 1. cbv beta iota. rewrite mbind_run. unfold ret at 1.
    cbv beta iota. rewrite mbind_run. unfold perform at 1. cbv beta iota.
    destruct (create_subprocess_shell P rendered minimal_environment None);
      cbn [after_spawn]; destruct st2a; cbn; intros [= <- <-]; auto. }
  destruct E as [-> E3].
  split; [rewrite Heff, E3, Heffa, Heff2; reflexivity|].
  split; [exact Hst | exact Herr].
Qed.

Lemma shell_step_runs_rendered_command_witness :
  rejected_command (create_for_profile "standard") "echo x; rm -rf /" = true
  /\ exists st',
       _execute_step_securely (sample_platform true) "standard"
         (sample_shell "echo {{ inputs.name }}" []) injected_context
         (sample_state ["shell.execute"%string] [])
       = (Raise (NameError "MAX_LOG_LENGTH"), st')
       /\ effects st' = [Subprocess "echo x; rm -rf /"]
       /\ status (result st') = FAILED
       /\ error (result st') = Some "name 'MAX_STEP_DURATION' is not defined"%string.
Proof.
  split; [vm_compute; reflexivity|].
  destruct (shell_step_runs_rendered_command (sample_platform true) "standard"
              (sample_shell "echo {{ inputs.name }}" []) injected_context
              (sample_state ["shell.execute"%string] []))
    as (st' & Hrun & Heff & Hst & Herr);
    [reflexivity | reflexivity | right; exact I
     | vm_compute; reflexivity | reflexivity | reflexivity |].
  exists st'. split; [exact Hrun|].
  split; [rewrite Heff; vm_compute; reflexivity|].
  split; [exact Hst|]. rewrite Herr. vm_compute. reflexivity.
Defined.

End StepGuarantees.
